(** * The dense matrix engine and the LDA scatter computation of the
      face-recognition system, embedded in Rocq.

    Sources embedded here:
    - [matrix.c]  (the matrix library: constructors, text and binary I/O,
      elementwise operations, determinant, cofactor, inverse),
    - [lda.c]     ([m_scatter] and [LDA]),
    - [MATLAB/PCA/Recognition.m] (nearest-neighbour matching).

    Conventions of the embedding.
    - [precision_t] is a typedef of [matrix.h]; the engine is written once
      over any type [T] with the arithmetic of the class [Precision] and is
      instantiated with IEEE binary64 ([float]) and with exact rationals
      ([Q]).  What is proved of binary64 rests on the IEEE 754 model of the
      standard library ([SpecFloat]), by which the primitive operations
      are specified.
    - C [int]s are [Z]; every theorem is stated for well-formed matrices,
      whose element count fits in an [int], so no [int] arithmetic wraps.
    - A matrix is its header ([rows], [cols]) and its buffer ([data], a list
      in column-major order).  Memory that the program reads without having
      written it (a [malloc]ed block, an index outside the buffer) holds
      whatever [indeterminate] says; a write outside the buffer is dropped.
      [m_reshape], [m_covariance] and [m_reorder_columns], whose indices
      are not bounded by the loops that produce them, are embedded with
      checked accesses instead: outside the buffer the call is
      [Undefined].
    - A C [for] loop is [for_loop lo hi body], a left fold of [body] over
      [lo, lo+1, ..., hi-1] on the variables the loop changes. *)

From Stdlib Require Import ZArith QArith Qround Qabs Floats List Lia Lqa Bool.
From stdpp Require Import base tactics option list list_numbers strings gmap.

Local Open Scope Z_scope.
Set Default Proof Using "Type*".

(** ** How a call ends *)

(** A call returns to its caller, or it ends the process: [exit(status)],
    or [abort()] from a failed [assert].  [Undefined] is a call on which
    the C standard imposes nothing (a pointer that was never allocated).
    [Unfinished] is not a behaviour of the program but of the model: the
    fuel handed to a recursive function ran out. *)
Inductive outcome (A : Type) : Type :=
  | Returns (a : A)
  | Exits (status : Z)
  | Aborts
  | Undefined
  | Unfinished.
Arguments Returns {A} a.
Arguments Exits {A} status.
Arguments Aborts {A}.
Arguments Undefined {A}.
Arguments Unfinished {A}.

Global Instance outcome_ret : MRet outcome := λ A a, Returns a.
Global Instance outcome_bind : MBind outcome := λ A B k c,
  match c with
  | Returns a => k a
  | Exits s => Exits s
  | Aborts => Aborts
  | Undefined => Undefined
  | Unfinished => Unfinished
  end.

Definition returned {A} (c : outcome A) : Prop := ∃ a, c = Returns a.

Definition terminates_process {A} (c : outcome A) : bool :=
  match c with Exits _ | Aborts => true | _ => false end.

(** [assert(b)] of <assert.h>, as the Makefile compiles it (no NDEBUG). *)
Definition assert (b : bool) : outcome unit :=
  if b then Returns tt else Aborts.

(** ** Loops *)

Definition for_loop {S : Type} (lo hi : Z) (body : Z → S → S) (s : S) : S :=
  foldl (λ s i, body i s) s (seqZ lo (hi - lo)).

(** The value of the loop variable once [for (i = lo; i < hi; i++)] is
    over. *)
Definition for_end (lo hi : Z) : Z := Z.max lo hi.

(** A loop whose body may end the process. *)
Fixpoint foldlM {S B : Type} (f : S → B → outcome S) (s : S) (l : list B)
    : outcome S :=
  match l with
  | [] => Returns s
  | x :: l => s' ← f s x; foldlM f s' l
  end.

Definition for_loopM {S : Type} (lo hi : Z) (body : Z → S → outcome S)
    (s : S) : outcome S :=
  foldlM (λ s i, body i s) s (seqZ lo (hi - lo)).

(** [for (k = lo; k < hi; k++) if (stop k) break;] leaves [k] at the first
    index where [stop] holds, or at the end of the range. *)
Definition for_break (lo hi : Z) (stop : Z → bool) : Z :=
  match list_find (λ k, stop k = true) (seqZ lo (hi - lo)) with
  | Some (_, k) => k
  | None => for_end lo hi
  end.

(** The cells of an [r]-by-[c] matrix in the order in which
    [for i < r) for (j < c)] visits them. *)
Definition row_major (r c : Z) : list (Z * Z) :=
  i ← seqZ 0 r; (λ j, (i, j)) <$> seqZ 0 c.

(** ** The element type *)

Class Precision (T : Type) := {
  p_of_int : Z → T;          (* (precision_t) n *)
  p_add : T → T → T;
  p_sub : T → T → T;
  p_mul : T → T → T;
  p_div : T → T → T;
  p_lt : T → T → bool;       (* a < b *)
  p_ne : T → T → bool;       (* a != b *)
}.

(** The conversions of <stdio.h> that the text format goes through.  A
    text stream is read and written field by field ([text] is one
    whitespace-separated field); a conversion that does not match yields
    nothing and leaves the field in the stream. *)
Class Stdio (T text : Type) := {
  printf_d : Z → text;           (* "%d" *)
  printf_lg : T → text;          (* "%lg" *)
  scanf_d : text → option Z;     (* "%d" *)
  scanf_lf : text → option T;    (* "%lf" *)
}.

(** The routines of LAPACKE that the engine calls.  They are not part of
    the sources; each is the function from what the routine reads to what
    it writes: [info] first, then the arrays it overwrites. *)
Inductive matrix_layout : Type := LAPACK_ROW_MAJOR | LAPACK_COL_MAJOR.

Class Lapack (T : Type) := {
  (* LAPACKE_dgetrf(layout, m, n, a, lda, ipiv): LU factorization; info > 0
     reports an exactly zero pivot, that is a singular matrix *)
  LAPACKE_dgetrf : matrix_layout → Z → Z → list T → Z → Z * list T * list Z;
  (* LAPACKE_dgetri(layout, n, a, lda, ipiv): inverse from the factors *)
  LAPACKE_dgetri : matrix_layout → Z → list T → Z → list Z → Z * list T;
  (* LAPACKE_dgetrs(layout, 'N', n, nrhs, a, lda, ipiv, b, ldb): triangular
     solves with the factors against the right-hand sides b *)
  LAPACKE_dgetrs :
    matrix_layout → Z → Z → list T → Z → list Z → list T → Z → Z * list T;
  (* LAPACKE_dgeev(layout, 'N', 'V', n, a, lda, wr, wi, NULL, ldvl, vr, ldvr):
     the eigenvalues wr and the right eigenvectors vr *)
  LAPACKE_dgeev : matrix_layout → Z → list T → Z → Z → list T * list T;
}.

(** The two C operators on one element that the arithmetic above does not
    give: the unary minus, and the conversion to [int], which drops the
    fraction and is not defined when what is left does not fit an
    [int]. *)
Class Conversion (T : Type) := {
  p_neg : T → T;             (* - a *)
  p_to_int : T → option Z;   (* (int) a *)
}.

(** [database_entry_t] of database.h. *)
Record database_entry_t : Type := { class : Z; name : string }.

Definition INT_MAX : Z := 2147483647.
Definition INT_MIN : Z := -2147483648.

Section Engine.
Context {T : Type} {PR : Precision T}.
Context {text : Type} {IO : Stdio T text}.
Context {LA : Lapack T}.

(** What memory holds where the program has not written: elements of
    a buffer, and an [int] variable. *)
Variable indeterminate : Z → T.
Variable indeterminate_int : Z.

Definition zero : T := p_of_int 0.
Definition one : T := p_of_int 1.

(** Buffers. *)
Definition load (d : list T) (k : Z) : T :=
  if k <? 0 then indeterminate k
  else default (indeterminate k) (d !! Z.to_nat k).

Definition store (d : list T) (k : Z) (v : T) : list T :=
  if k <? 0 then d else <[Z.to_nat k := v]> d.

(** [matrix_t] of matrix.h. *)
Record matrix_t : Type := Matrix { rows : Z; cols : Z; data : list T }.

(** Modelled from the spec: the macro [elem] of matrix.h, which is not
    part of the sources; the engine stores matrices column-major (and
    hands [data] with leading dimension [rows] to BLAS as
    [CblasColMajor]), so [elem(M, i, j)] is [M->data[j * M->rows + i]]. *)
Definition elem_index (M : matrix_t) (i j : Z) : Z := j * rows M + i.

Definition elem (M : matrix_t) (i j : Z) : T :=
  load (data M) (elem_index M i j).

Definition elem_set (M : matrix_t) (i j : Z) (v : T) : matrix_t :=
  Matrix (rows M) (cols M) (store (data M) (elem_index M i j) v).

Global Instance matrix_inhabited : Inhabited matrix_t :=
  populate (Matrix 0 0 []).

Definition same_shape (A B : matrix_t) : Prop :=
  rows A = rows B ∧ cols A = cols B.

Definition same_dimensions (A B : matrix_t) : bool :=
  (rows A =? rows B) && (cols A =? cols B).

(** A matrix as the constructors make it. *)
Definition well_formed (M : matrix_t) : Prop :=
  0 ≤ rows M ∧ 0 ≤ cols M ∧ rows M * cols M ≤ INT_MAX ∧
  length (data M) = Z.to_nat (rows M * cols M).

(** *** Constructors *)

(** [malloc]: the block holds indeterminate values. *)
Definition m_initialize (rows cols : Z) : matrix_t :=
  Matrix rows cols (indeterminate <$> seqZ 0 (rows * cols)).

(** [calloc]: the block holds zero bits, which is 0.0. *)
Definition m_zeros (rows cols : Z) : matrix_t :=
  Matrix rows cols (replicate (Z.to_nat (rows * cols)) zero).

Definition m_identity (rows : Z) : matrix_t :=
  let M := Matrix rows rows (replicate (Z.to_nat (rows * rows)) zero) in
  for_loop 0 rows (λ i M, elem_set M i i one) M.

(** [memcpy(dst, src + from, n * sizeof(precision_t))] into a block of
    [n] elements. *)
Definition memcpy (src : list T) (from n : Z) : list T :=
  (λ k, load src (from + k)) <$> seqZ 0 n.

Definition m_copy (M : matrix_t) : matrix_t :=
  let C := m_initialize (rows M) (cols M) in
  Matrix (rows C) (cols C) (memcpy (data M) 0 (rows C * cols C)).

(** *** Mean column, transpose, column-wise subtraction *)

Definition m_mean_column (M : matrix_t) : matrix_t :=
  let a := m_zeros (rows M) 1 in
  let a :=
    for_loop 0 (cols M) (λ i a,
      for_loop 0 (rows M) (λ j a,
        elem_set a j 0 (p_add (elem a j 0) (elem M j i))) a) a in
  for_loop 0 (rows M) (λ i a,
    elem_set a i 0 (p_div (elem a i 0) (p_of_int (cols M)))) a.

Definition m_transpose (M : matrix_t) : matrix_t :=
  let T' := m_initialize (cols M) (rows M) in
  for_loop 0 (rows T') (λ i T',
    for_loop 0 (cols T') (λ j T',
      elem_set T' i j (elem M j i)) T') T'.

Definition m_normalize_columns (M a : matrix_t) : matrix_t :=
  for_loop 0 (cols M) (λ i M,
    for_loop 0 (rows M) (λ j M,
      elem_set M j i (p_sub (elem M j i) (elem a j 0))) M) M.

(** *** Elementwise operations on one matrix (they change [M]) *)

Definition m_normalize (M : matrix_t) : matrix_t :=
  let min := elem M 0 0 in
  let max := min in
  let '(min, max) :=
    for_loop 0 (rows M) (λ i st,
      for_loop 0 (cols M) (λ j '(min, max),
        let val := elem M i j in
        let min := if p_lt val min then val else min in
        let max := if p_lt max val then val else max in
        (min, max)) st) (min, max) in
  for_loop 0 (rows M) (λ i M,
    for_loop 0 (cols M) (λ j M,
      elem_set M i j (p_div (p_sub (elem M i j) min) (p_sub max min))) M) M.

Definition m_elem_mult (M : matrix_t) (x : T) : matrix_t :=
  for_loop 0 (rows M) (λ i M,
    for_loop 0 (cols M) (λ j M,
      elem_set M i j (p_mul (elem M i j) x)) M) M.

(** *** Determinant and cofactor matrix *)

(** The buffer [A] and the variable [i] after the "Fill matrix" loops of
    [m_determinant] for column [j]: [A] receives the rows 1.. of [M]
    without column [j]. *)
Definition determinant_fill (M A : matrix_t) (i j : Z) : matrix_t * Z :=
  let c := 0 in
  let '(A, i, c) :=
    for_loop 0 (cols M) (λ k '(A, i, c),
      if k =? j then (A, i, c) (* skip over columns that are the same *)
      else
        let A := for_loop 1 (rows M) (λ i A,
                   let r := i - 1 in
                   elem_set A r c (elem M i k)) A in
        let i := for_end 1 (rows M) in
        (A, i, c + 1)) (A, i, c) in
  (A, i).

(** [printf("error finding determinant\n")] on an order below 1 only
    writes to stdout; [det] keeps its initial 0.  The variable [i] is
    read after the loops that fill [A] have left it at [M->rows]. *)
Fixpoint m_determinant_rec (fuel : nat) (M : matrix_t) : outcome T :=
  match fuel with
  | O => Unfinished
  | S fuel =>
    let i := indeterminate_int in
    let det := p_of_int 0 in
    assert (cols M =? rows M);;
    if rows M <? 1 then mret det
    else if rows M =? 1 then mret (elem M 0 0)
    else if rows M =? 2 then
      mret (p_sub (p_mul (elem M 0 0) (elem M 1 1))
                  (p_mul (elem M 1 0) (elem M 0 1)))
    else
      let det := p_of_int 0 in
      let A := m_initialize (rows M - 1) (cols M - 1) in
      '(det, A, i) ←
        for_loopM 0 (cols M) (λ j '(det, A, i),
          let '(A, i) := determinant_fill M A i j in
          val ← m_determinant_rec fuel A;
          let sign := 1 - 2 * Z.lxor (i `rem` 2) (j `rem` 2) in
          let det :=
            p_add det (p_mul (p_mul (p_of_int sign) (elem M 0 j)) val) in
          mret (det, A, i)) (det, A, i);
      mret det
  end.

(** The recursion is on the order, so [rows M + 1] units of fuel are
    enough. *)
Definition enough_fuel (M : matrix_t) : nat := S (Z.to_nat (rows M)).

Definition m_determinant (M : matrix_t) : outcome T :=
  m_determinant_rec (enough_fuel M) M.

(** The buffer [A] after the "Make matrix of values not sharing this
    column/row" loops of [m_cofactor]. *)
Definition cofactor_fill (M A : matrix_t) (i j : Z) : matrix_t :=
  let '(A, row) :=
    for_loop 0 (rows M) (λ r '(A, row),
      if i =? r then (A, row)
      else
        let '(A, col) :=
          for_loop 0 (cols M) (λ c '(A, col),
            if j =? c then (A, col)
            else (elem_set A row col (elem M r c), col + 1)) (A, 0) in
        (A, row + 1)) (A, 0) in
  A.

Definition m_cofactor_rec (fuel : nat) (M : matrix_t) : outcome matrix_t :=
  assert (rows M =? cols M);;
  let A := m_initialize (rows M - 1) (cols M - 1) in
  let R := m_initialize (rows M) (cols M) in
  '(A, R) ←
    for_loopM 0 (rows M) (λ i st,
      for_loopM 0 (cols M) (λ j '(A, R),
        let A := cofactor_fill M A i j in
        val ← m_determinant_rec fuel A;
        let sign := 1 - 2 * Z.lxor (i `rem` 2) (j `rem` 2) in
        let val := p_mul val (p_of_int sign) in
        mret (A, elem_set R j i val)) st) (A, R);
  mret R.

Definition m_cofactor (M : matrix_t) : outcome matrix_t :=
  m_cofactor_rec (enough_fuel M) M.

(** *** Elementwise operations on two matrices, on the heap *)

(** These three functions are embedded with the store they run in: a
    [matrix_t *] is an address, the heap maps the addresses that are
    allocated to the matrices they hold, and [malloc] hands out an
    address that is not in use. *)
Local Abbreviation heap := (gmap positive matrix_t).
Definition prog (A : Type) : Type := heap → outcome (A * heap).

Global Instance prog_ret : MRet prog := λ A a h, Returns (a, h).
Global Instance prog_bind : MBind prog := λ A B k c h,
  match c h with
  | Returns (a, h') => k a h'
  | Exits s => Exits s
  | Aborts => Aborts
  | Undefined => Undefined
  | Unfinished => Unfinished
  end.

Definition lift {A} (c : outcome A) : prog A :=
  λ h, a ← c; mret (a, h).

Definition deref (p : positive) : prog matrix_t :=
  λ h, match h !! p with Some m => Returns (m, h) | None => Undefined end.
Definition assign (p : positive) (m : matrix_t) : prog unit :=
  λ h, match h !! p with
       | Some _ => Returns (tt, <[p := m]> h)
       | None => Undefined
       end.
Definition malloc (m : matrix_t) : prog positive :=
  λ h, let p := fresh (dom h) in Returns (p, <[p := m]> h).

(** [elem(P, i, j)] read, and [elem(P, i, j) = v]. *)
Definition elem_at (P : positive) (i j : Z) : prog T :=
  m ← deref P; mret (elem m i j).
Definition elem_assign (P : positive) (i j : Z) (v : T) : prog unit :=
  m ← deref P; assign P (elem_set m i j v).

Fixpoint for_each {B} (l : list B) (body : B → prog unit) : prog unit :=
  match l with
  | [] => mret tt
  | x :: l => body x;; for_each l body
  end.
Definition for_loopP (lo hi : Z) (body : Z → prog unit) : prog unit :=
  for_each (seqZ lo (hi - lo)) body.

Definition m_initialize_at (rows cols : Z) : prog positive :=
  malloc (m_initialize rows cols).

(** The three functions differ in one operator. *)
Definition m_dot (op : T → T → T) (A B : positive) : prog positive :=
  a ← deref A;
  b ← deref B;
  lift (assert ((rows a =? rows b) && (cols a =? cols b)));;
  R ← m_initialize_at (rows a) (cols a);
  for_loopP 0 (rows a) (λ i,
    for_loopP 0 (cols a) (λ j,
      x ← elem_at A i j;
      y ← elem_at B i j;
      elem_assign R i j (op x y)));;
  mret R.

Definition m_dot_subtract : positive → positive → prog positive := m_dot p_sub.
Definition m_dot_add : positive → positive → prog positive := m_dot p_add.
Definition m_dot_division : positive → positive → prog positive := m_dot p_div.

(** *** Serialization *)

(** A binary stream is the sequence of the objects that [fwrite] copied
    into it from memory: an [int] or an element, each in the platform's
    own representation.  The bytes of an object are not modelled: where
    [fread] would reinterpret the bytes of an [int] as an element, or the
    reverse, the embedding reads nothing more.  The theorems are stated on
    streams that [m_fwrite] produced, or that are too short, where no
    object is read at the other type. *)
Inductive object : Type :=
  | obj_int (n : Z)
  | obj_elem (x : T).

Definition fwrite_int (n : Z) (stream : list object) : list object :=
  stream ++ [obj_int n].

Definition fwrite_elems (d : list T) (n : Z) (stream : list object)
    : list object :=
  stream ++ (obj_elem <$> memcpy d 0 n).

(** [fread] of one [int]: nothing is stored when the stream does not
    continue with one. *)
Definition fread_int (stream : list object) : Z * list object :=
  match stream with
  | obj_int n :: stream => (n, stream)
  | _ => (indeterminate_int, stream)
  end.

(** [fread] of up to [n] elements into the buffer [d], from index [k]
    on. *)
Fixpoint fread_elems (d : list T) (k : Z) (n : nat) (stream : list object)
    : list T * list object :=
  match n, stream with
  | S n, obj_elem x :: stream => fread_elems (store d k x) (k + 1) n stream
  | _, _ => (d, stream)
  end.

Definition m_fwrite (stream : list object) (M : matrix_t) : list object :=
  let stream := fwrite_int (rows M) stream in
  let stream := fwrite_int (cols M) stream in
  fwrite_elems (data M) (rows M * cols M) stream.

Definition m_fread (stream : list object) : matrix_t * list object :=
  let '(rows, stream) := fread_int stream in
  let '(cols, stream) := fread_int stream in
  let M := m_initialize rows cols in
  let '(d, stream) :=
    fread_elems (data M) 0 (Z.to_nat (rows * cols)) stream in
  (Matrix rows cols d, stream).

(** The text format; blanks and newlines only separate the fields. *)
Definition m_fprint (stream : list text) (M : matrix_t) : list text :=
  let stream := stream ++ [printf_d (rows M); printf_d (cols M)] in
  for_loop 0 (rows M) (λ i stream,
    for_loop 0 (cols M) (λ j stream,
      stream ++ [printf_lg (elem M i j)]) stream) stream.

Definition fscanf_d (stream : list text) : option Z * list text :=
  match stream with
  | t :: rest =>
      match scanf_d t with Some n => (Some n, rest) | None => (None, stream) end
  | [] => (None, stream)
  end.

Definition fscanf_lf (stream : list text) : option T * list text :=
  match stream with
  | t :: rest =>
      match scanf_lf t with Some x => (Some x, rest) | None => (None, stream) end
  | [] => (None, stream)
  end.

(** [fscanf(stream, "%d %d", &rows, &cols)]: a variable whose conversion
    fails keeps its indeterminate value. *)
Definition fscanf_d_d (stream : list text) : Z * Z * list text :=
  match fscanf_d stream with
  | (Some rows, stream) =>
      match fscanf_d stream with
      | (Some cols, stream) => (rows, cols, stream)
      | (None, stream) => (rows, indeterminate_int, stream)
      end
  | (None, stream) => (indeterminate_int, indeterminate_int, stream)
  end.

Definition m_fscan (stream : list text) : matrix_t * list text :=
  let '(rows, cols, stream) := fscanf_d_d stream in
  let M := m_initialize rows cols in
  for_loop 0 rows (λ i st,
    for_loop 0 cols (λ j '(M, stream),
      match fscanf_lf stream with
      | (Some x, stream) => (elem_set M i j x, stream)
      | (None, stream) => (M, stream)
      end) st) (M, stream).

(** *** Eigenvectors, product, inverse *)

Definition m_eigenvalues_eigenvectors (M M_eval M_evec : matrix_t)
    : matrix_t * matrix_t :=
  let M_work := m_copy M in
  let '(wr, vr) :=
    LAPACKE_dgeev LAPACK_COL_MAJOR (cols M) (data M_work) (rows M) (rows M) in
  (Matrix (rows M_eval) (cols M_eval) wr,
   Matrix (rows M_evec) (cols M_evec) vr).

(** Modelled from the spec: [cblas_dgemm] of BLAS, which is not part of
    the sources, called with [CblasColMajor], no transposition, alpha = 1
    and beta = 0: "standard matrix-multiplication semantics", each cell
    of [C] the sum over l of A(i,l) * B(l,j), accumulated from zero in
    the order of l. *)
Definition cblas_dgemm (m n k : Z) (A B C : matrix_t) : matrix_t :=
  for_loop 0 n (λ j C,
    for_loop 0 m (λ i C,
      elem_set C i j
        (for_loop 0 k (λ l acc, p_add acc (p_mul (elem A i l) (elem B l j)))
           zero)) C) C.

Definition m_matrix_multiply (A B : matrix_t) : outcome matrix_t :=
  assert (cols A =? rows B);;
  let C := m_zeros (rows A) (cols B) in
  mret (cblas_dgemm (rows A) (cols B) (cols A) A B C).

Definition m_inverseMatrix (M : matrix_t) : outcome matrix_t :=
  let '(info, a, ipiv) :=
    LAPACKE_dgetrf LAPACK_ROW_MAJOR (cols M) (rows M) (data M) (rows M) in
  if negb (info =? 0) then Exits 1
  else
    let '(info, a) :=
      LAPACKE_dgetri LAPACK_ROW_MAJOR (cols M) a (rows M) ipiv in
    if negb (info =? 0) then Exits 1
    else mret (Matrix (rows M) (cols M) a).

Definition m_matrix_division (A B : matrix_t) : outcome matrix_t :=
  let C := m_copy B in
  C ← m_inverseMatrix C;
  m_matrix_multiply A C.

(** *** The matrix library as lda.c calls it

    lda.c is written against a later matrix.c than the one in the
    sources.  Of the functions it calls, [m_copy], [m_mean_column],
    [m_transpose], [m_elem_mult], [m_initialize] and [m_zeros] are in the
    sources under these names; the others are modelled here. *)

(** Modelled from the spec: [m_product], missing from the sources; "Matrix
    product requires left.cols == right.rows; returns a newly allocated
    (left.rows x right.cols) result; implemented as a single dense
    multiply-accumulate": [m_matrix_multiply] of the sources. *)
Definition m_product (A B : matrix_t) : outcome matrix_t :=
  m_matrix_multiply A B.

(** Modelled from the spec: [m_eigen], missing from the sources;
    "returns eigenvalues as an (n x 1) vector and eigenvectors as columns
    of an (n x n) matrix": [m_eigenvalues_eigenvectors] of the sources. *)
Definition m_eigen (M M_eval M_evec : matrix_t) : matrix_t * matrix_t :=
  m_eigenvalues_eigenvectors M M_eval M_evec.

(** Modelled from the spec: [m_subtract_columns], missing from the
    sources; "column-wise subtraction of a given vector mutates every
    column in place (broadcast)": [m_normalize_columns] of the sources. *)
Definition m_subtract_columns (M a : matrix_t) : matrix_t :=
  m_normalize_columns M a.

(** Modelled from the spec: [m_copy_columns], missing from the sources;
    "partition the projected coordinate matrix into contiguous per-class
    column blocks": a fresh matrix holding the columns [i], ..., [j - 1]
    of [M], as lda.c uses it. *)
Definition m_copy_columns (M : matrix_t) (i j : Z) : matrix_t :=
  let C := m_initialize (rows M) (j - i) in
  Matrix (rows C) (cols C)
    (memcpy (data M) (elem_index M 0 i) (rows C * cols C)).

(** Modelled from the spec: [m_add] and [m_subtract], missing from the
    sources; "elementwise binary ops require identical dimensions on both
    operands" and "may mutate in place for add/subtract on the receiver".
    The dimension check is the [assert] that the elementwise functions of
    the sources open with. *)
Definition m_add (A B : matrix_t) : outcome matrix_t :=
  assert ((rows A =? rows B) && (cols A =? cols B));;
  mret (for_loop 0 (rows A) (λ i A,
          for_loop 0 (cols A) (λ j A,
            elem_set A i j (p_add (elem A i j) (elem B i j))) A) A).

Definition m_subtract (A B : matrix_t) : outcome matrix_t :=
  assert ((rows A =? rows B) && (cols A =? cols B));;
  mret (for_loop 0 (rows A) (λ i A,
          for_loop 0 (cols A) (λ j A,
            elem_set A i j (p_sub (elem A i j) (elem B i j))) A) A).

(** Modelled from the spec: [m_inverse], missing from the sources;
    "computed via LU factorization and a triangular solve/back-substitution
    against the identity; fails fatally (process-terminating in the
    reference behavior) if the factorization reports numerical
    singularity".  It returns a new matrix and leaves [M] as it was. *)
Definition m_inverse (M : matrix_t) : outcome matrix_t :=
  let M_work := m_copy M in
  let '(info, a, ipiv) :=
    LAPACKE_dgetrf LAPACK_COL_MAJOR (rows M) (cols M) (data M_work) (rows M) in
  if negb (info =? 0) then Exits 1
  else
    let M_inv := m_identity (rows M) in
    let '(_, b) :=
      LAPACKE_dgetrs LAPACK_COL_MAJOR (rows M) (rows M) a (rows M) ipiv
        (data M_inv) (rows M) in
    mret (Matrix (rows M_inv) (cols M_inv) b).

(** *** lda.c *)

(** [entries[k].class] *)
Definition entry_class (entries : list database_entry_t) (k : Z) : Z :=
  if k <? 0 then indeterminate_int
  else default indeterminate_int (class <$> entries !! Z.to_nat k).

(** [X_classes] and [U] are arrays of [c] pointers that the first loop
    fills from index 0 upwards; they are the lists of what has been
    stored so far.  [S_b] and [S_w] are changed in place: the function
    returns their new contents. *)
Definition m_scatter (X : matrix_t) (c : Z) (entries : list database_entry_t)
    (S_b S_w : matrix_t) : outcome (matrix_t * matrix_t) :=
  (* compute the mean of each class *)
  let '(X_classes, U, j) :=
    for_loop 0 c (λ i '(X_classes, U, j),
      (* extract the columns of X in class i *)
      let k := for_break j (cols X) (λ k,
                 negb (entry_class entries k =? entry_class entries j)) in
      let X_class := m_copy_columns X j k in
      let j := k in
      (* compute the mean of the class *)
      (X_classes ++ [X_class], U ++ [m_mean_column X_class], j))
    ([], [], 0) in
  (* compute the mean of all classes *)
  let u := m_initialize (rows X) 1 in
  let u :=
    for_loop 0 c (λ i u,
      for_loop 0 (rows X) (λ j u,
        elem_set u j 0 (p_add (elem u j 0) (elem (U !!! Z.to_nat i) j 0))) u)
      u in
  let u :=
    for_loop 0 (rows X) (λ i u,
      elem_set u i 0 (p_div (elem u i 0) (p_of_int c))) u in
  (* compute the between-scatter and the within-scatter *)
  for_loopM 0 c (λ i '(S_b, S_w),
    let X_class := X_classes !!! Z.to_nat i in
    (* compute S_b_i = n_i * (u_i - u) * (u_i - u)' *)
    let u_i := m_copy (U !!! Z.to_nat i) in
    u_i ← m_subtract u_i u;
    let u_i_tr := m_transpose u_i in
    S_b_i ← m_product u_i u_i_tr;
    let S_b_i := m_elem_mult S_b_i (p_of_int (cols X_class)) in
    S_b ← m_add S_b S_b_i;
    (* compute S_w_i = X_class * X_class', X_class is mean-subtracted *)
    let X_class := m_subtract_columns X_class (U !!! Z.to_nat i) in
    let X_class_tr := m_transpose X_class in
    S_w_i ← m_product X_class X_class_tr;
    S_w ← m_add S_w S_w_i;
    mret (S_b, S_w)) (S_b, S_w).

Definition LDA (W_pca_tr P_pca : matrix_t) (c : Z)
    (entries : list database_entry_t) : outcome matrix_t :=
  (* compute scatter matrices S_b and S_w *)
  let S_b := m_zeros (rows P_pca) (rows P_pca) in
  let S_w := m_zeros (rows P_pca) (rows P_pca) in
  '(S_b, S_w) ← m_scatter P_pca c entries S_b S_w;
  (* compute W_fld = eigenvectors of S_w^-1 * S_b *)
  S_w_inv ← m_inverse S_w;
  J ← m_product S_w_inv S_b;
  let J_eval := m_initialize (rows J) 1 in
  let J_evec := m_initialize (rows J) (cols J) in
  let '(J_eval, J_evec) := m_eigen J J_eval J_evec in
  let W_fld := J_evec in
  let W_fld_tr := m_transpose W_fld in
  (* compute W_lda' = W_fld' * W_pca' *)
  W_lda_tr ← m_product W_fld_tr W_pca_tr;
  mret W_lda_tr.

(** *** Non-zero index extraction *)

Definition m_findNonZeros (M : matrix_t) : matrix_t :=
  let R := m_zeros (rows M * cols M) 1 in
  let count := 0 in
  let '(R, count) :=
    for_loop 0 (rows M) (λ i st,
      for_loop 0 (cols M) (λ j '(R, count),
        let val := elem M i j in
        if p_ne val (p_of_int 0)
        then (elem_set R count 0 (p_of_int (i + 1)), count + 1)
        else (R, count)) st) (R, count) in
  R.

(** *** The other functions of matrix.c *)

Context {CV : Conversion T}.

(** "Swaps columns in M from left to right". *)
Definition m_flipCols (M : matrix_t) : matrix_t :=
  for_loop 0 (rows M) (λ i M,
    for_loop 0 (cols M `quot` 2) (λ j M,
      let temp := elem M i j in
      let M := elem_set M i j (elem M i (cols M - j - 1)) in
      elem_set M i (cols M - j - 1) temp) M) M.

Definition m_elem_truncate (M : matrix_t) : outcome matrix_t :=
  for_loopM 0 (rows M) (λ i M,
    for_loopM 0 (cols M) (λ j M,
      match p_to_int (elem M i j) with
      | Some n => mret (elem_set M i j (p_of_int n))
      | None => Undefined
      end) M) M.

Definition m_elem_negate (M : matrix_t) : matrix_t :=
  for_loop 0 (rows M) (λ i M,
    for_loop 0 (cols M) (λ j M,
      elem_set M i j (p_neg (elem M i j))) M) M.

Definition m_elem_divideByConst (M : matrix_t) (x : T) : matrix_t :=
  for_loop 0 (rows M) (λ i M,
    for_loop 0 (cols M) (λ j M,
      elem_set M i j (p_div (elem M i j) x)) M) M.

Definition m_elem_divideByMatrix (M : matrix_t) (num : T) : matrix_t :=
  for_loop 0 (rows M) (λ i M,
    for_loop 0 (cols M) (λ j M,
      elem_set M i j (p_div num (elem M i j))) M) M.

Definition m_elem_add (M : matrix_t) (x : T) : matrix_t :=
  for_loop 0 (rows M) (λ i M,
    for_loop 0 (cols M) (λ j M,
      elem_set M i j (p_add (elem M i j) x)) M) M.

(** "sums the columns of a matrix, returns a row vector" *)
Definition m_sumCols (M : matrix_t) : matrix_t :=
  let R := m_initialize 1 (cols M) in
  for_loop 0 (cols M) (λ j R,
    let val := p_of_int 0 in
    let val := for_loop 0 (rows M) (λ i val, p_add val (elem M i j)) val in
    elem_set R 0 j val) R.

(** "takes the mean value of each column" *)
Definition m_meanCols (M : matrix_t) : matrix_t :=
  let R := m_sumCols M in
  for_loop 0 (cols M) (λ i R,
    elem_set R 0 i (p_div (elem R 0 i) (p_of_int (rows M)))) R.

(** "sums the rows of a matrix, returns a col vect" *)
Definition m_sumRows (M : matrix_t) : matrix_t :=
  let R := m_initialize (rows M) 1 in
  for_loop 0 (rows M) (λ i R,
    let val := p_of_int 0 in
    let val := for_loop 0 (cols M) (λ j val, p_add val (elem M i j)) val in
    elem_set R i 0 val) R.

(** The body of [m_sqrtm] is commented out: it returns its argument. *)
Definition m_sqrtm (M : matrix_t) : matrix_t := M.

(** Three functions index a buffer with something else than a loop
    counter below the bound of the same matrix.  Their accesses are
    embedded with the check that C leaves to the programmer: outside the
    block that was allocated, the access is undefined. *)
Definition in_buffer (M : matrix_t) (i j : Z) : bool :=
  (0 <=? elem_index M i j) && (elem_index M i j <? Z.of_nat (length (data M))).

Definition elem_load (M : matrix_t) (i j : Z) : outcome T :=
  if in_buffer M i j then mret (elem M i j) else Undefined.

Definition elem_store (M : matrix_t) (i j : Z) (v : T) : outcome matrix_t :=
  if in_buffer M i j then mret (elem_set M i j v) else Undefined.

(** "reshapes matrix by changing dimensions, keeping data"; [/] and [%]
    of C on [int]s are [quot] and [rem]. *)
Definition m_reshape (M : matrix_t) (newNumRows newNumCols : Z)
    : outcome matrix_t :=
  assert (rows M * cols M =? newNumRows * newNumCols);;
  let R := m_initialize newNumRows newNumCols in
  for_loopM 0 (newNumRows * newNumCols) (λ i R,
    let r1 := i `quot` newNumCols in
    let c1 := i `rem` newNumCols in
    let r2 := i `quot` cols M in
    let c2 := i `rem` cols M in
    x ← elem_load M r2 c2;
    elem_store R r1 c1 x) R.

(** [precision_t val;] before the function assigns it. *)
Variable indeterminate_elem : T.

(** "return the covariance matrix".  The first pair of loops assigns
    [val] and nothing else; [norm] is read as [malloc] returned it. *)
Definition m_covariance (M : matrix_t) : outcome matrix_t :=
  let val := indeterminate_elem in
  let colAvgs := m_meanCols M in
  let norm := m_initialize (rows M) (cols M) in
  let R := m_initialize (rows M) (cols M) in
  let val :=
    for_loop 0 (cols M) (λ j val,
      for_loop 0 (rows M) (λ i val,
        p_sub (elem M i j) (elem colAvgs 0 j)) val) val in
  '(val, R) ←
    for_loopM 0 (cols M) (λ j st,
      for_loopM 0 (cols M) (λ k '(val, R),
        let val := p_of_int 0 in
        let val :=
          for_loop 0 (rows M) (λ i val,
            p_add val (p_mul (elem norm i j) (elem norm i j))) val in
        let val := p_div val (p_of_int (cols M - 1)) in
        R ← elem_store R j k val;
        mret (val, R)) st) (val, R);
  mret R.

(** "reorders the columns of input matrix M to the order specified by V
    into output matrix R"; [int row = elem(V, 1, j)] converts the
    element. *)
Definition m_reorder_columns (M V : matrix_t) : outcome matrix_t :=
  assert ((cols M =? cols V) && (rows V =? 1));;
  let R := m_initialize (rows M) (cols M) in
  for_loopM 0 (cols R) (λ j R,
    x ← elem_load V 1 j;
    row ← (match p_to_int x with Some n => mret n | None => Undefined end);
    for_loopM 0 (rows R) (λ i R,
      y ← elem_load M row j;
      elem_store R i j y) R) R.

(** What an elementwise function leaves in [M']: the shape of [M], and in
    each cell [op] of what the cell of [M] held. *)
Definition elementwise (op : T → T) (M M' : matrix_t) : Prop :=
  well_formed M' ∧ same_shape M' M ∧
  ∀ i j, 0 ≤ i < rows M → 0 ≤ j < cols M → elem M' i j = op (elem M i j).

(** *** What the specification asks of determinant and scatter *)

(** The index in [M] of row (or column) [n] of a minor that leaves out
    row (or column) [k]. *)
Definition skip (k n : Z) : Z := if n <? k then n else n + 1.

(** The minor of [M] without row [i] and column [j]. *)
Definition minor (M : matrix_t) (i j : Z) : matrix_t :=
  Matrix (rows M - 1) (cols M - 1)
    ((λ k, elem M (skip i (k `rem` (rows M - 1)))
                  (skip j (k `quot` (rows M - 1))))
       <$> seqZ 0 ((rows M - 1) * (cols M - 1))).

(** "Recursive cofactor expansion along the first row; base cases at 1x1
    and 2x2": the term of column [j] carries the sign (-1)^(0+j). *)
Fixpoint determinant_spec (order : nat) (M : matrix_t) : T :=
  match order with
  | 0%nat => one
  | 1%nat => elem M 0 0
  | 2%nat => p_sub (p_mul (elem M 0 0) (elem M 1 1))
                   (p_mul (elem M 1 0) (elem M 0 1))
  | S n =>
      for_loop 0 (cols M) (λ j det,
        let sign := if Z.even j then 1 else -1 in
        p_add det (p_mul (p_mul (p_of_int sign) (elem M 0 j))
                         (determinant_spec n (minor M 0 j)))) zero
  end.

(** "For every (i,j), the determinant of the minor with row i and column j
    removed, signed by (-1)^(i+j)". *)
Definition signed_minor_spec (M : matrix_t) (i j : Z) : T :=
  let sign := if Z.even (i + j) then 1 else -1 in
  p_mul (determinant_spec (Z.to_nat (rows M - 1)) (minor M i j))
        (p_of_int sign).

(** Vectors as lists, for the scatter of classes given as the lists of
    their columns. *)
Definition vec_add (v w : list T) : list T := zip_with p_add v w.
Definition vec_sub (v w : list T) : list T := zip_with p_sub v w.
Definition vec_scale (x : T) (v : list T) : list T := p_mul x <$> v.

(** The mean of a non-empty list of vectors, each with the same weight. *)
Definition vec_mean (vs : list (list T)) : list T :=
  match vs with
  | [] => []
  | v :: vs' =>
      (λ x, p_div x (p_of_int (Z.of_nat (length vs)))) <$> foldl vec_add v vs'
  end.

(** "Compute each class's mean column and the grand mean of class means
    (equal weight per class, not per image)." *)
Definition grand_mean_spec (classes : list (list (list T))) : list T :=
  vec_mean (vec_mean <$> classes).

(** "S_b = sum over classes of class_count_i * (mean_i - grand_mean) *
    (mean_i - grand_mean)'", as the list of its rows. *)
Definition between_scatter_spec (classes : list (list (list T)))
    : list (list T) :=
  let g := grand_mean_spec classes in
  let term (cl : list (list T)) : list (list T) :=
    let d := vec_sub (vec_mean cl) g in
    (λ x, vec_scale (p_of_int (Z.of_nat (length cl))) (vec_scale x d)) <$> d in
  match classes with
  | [] => []
  | cl :: rest =>
      foldl (λ acc cl, zip_with vec_add acc (term cl)) (term cl) rest
  end.

(** The cells of [M] that hold a non-zero element, in row-major scan
    order. *)
Definition nonzero_cells (M : matrix_t) : list (Z * Z) :=
  filter (λ ij, p_ne (elem M ij.1 ij.2) (p_of_int 0) = true)
         (row_major (rows M) (cols M)).

End Engine.

Arguments matrix_t T : clear implicits.
Arguments Matrix {T} rows cols data.
Arguments object T : clear implicits.
Arguments obj_int {T} n.
Arguments obj_elem {T} x.

(** ** MATLAB/PCA/Recognition.m *)

(** A MATLAB column vector is the list of its entries and a matrix is the
    list of its columns; indices start at 1. *)
Module Matlab.
Section Recognition.
Context {T : Type} {PR : Precision T}.

(** MATLAB's [norm]: the Euclidean norm of a vector, a built-in. *)
Variable norm : list T → T.

(** [isnan]: NaN is the one value that differs from itself. *)
Definition isnan (x : T) : bool := p_ne x x.

Definition minus (a b : list T) : list T := zip_with p_sub a b.

(** [E' * v] *)
Definition mtimes_ctranspose (E : list (list T)) (v : list T) : list T :=
  (λ e, foldl p_add (p_of_int 0) (zip_with p_mul e v)) <$> E.

(** [[m, i] = min(v)], a built-in: the smallest entry and the index of its
    first occurrence.  MATLAB's [min] ignores NaN entries; when every
    entry is NaN it answers NaN and the index 1. *)
Definition min (v : list T) : option (T * Z) :=
  match v with
  | [] => None
  | x :: v' =>
      let '(m, i, _) :=
        foldl (λ '(m, i, k) y,
                 if p_lt y m || (isnan m && negb (isnan y))
                 then (y, k, k + 1) else (m, i, k + 1))
              (x, 1, 2) v' in
      Some (m, i)
  end.

Definition Euc_dist_of (ProjectedImages : list (list T))
    (ProjectedTestImage : list T) : list T :=
  foldl (λ Euc_dist q,
           let n := norm (minus ProjectedTestImage q) in
           let temp := p_mul n n in
           Euc_dist ++ [temp]) [] ProjectedImages.

(** [InImage] is the pixel column that [imread] and [reshape] make of
    the file [TestImage]. *)
Definition Recognition (InImage m : list T) (A Eigenfaces : list (list T))
    : option Z :=
  let ProjectedImages :=
    foldl (λ ProjectedImages a,
             let temp := mtimes_ctranspose Eigenfaces a in
             ProjectedImages ++ [temp]) [] A in
  let Difference := minus InImage m in
  let ProjectedTestImage := mtimes_ctranspose Eigenfaces Difference in
  let Euc_dist := Euc_dist_of ProjectedImages ProjectedTestImage in
  '(Euc_dist_min, OutputName) ← min Euc_dist;
  Some OutputName.
End Recognition.
End Matlab.

(** The order that "minimal" refers to.  A comparison with NaN is false;
    on the other values [p_lt] is a strict weak order. *)
Class NumberOrder (T : Type) {PR : Precision T} : Prop := {
  lt_number : ∀ a b : T,
    p_lt a b = true → Matlab.isnan a = false ∧ Matlab.isnan b = false;
  lt_irreflexive : ∀ a : T, p_lt a a = false;
  lt_transitive : ∀ a b c : T,
    p_lt a b = true → p_lt b c = true → p_lt a c = true;
  lt_cotransitive : ∀ a b c : T,
    Matlab.isnan b = false →
    p_lt a c = true → p_lt a b = true ∨ p_lt b c = true;
}.


(** ** What "nearest" means *)

(** The quantities that the claim on [Recognition] speaks of, written
    from their definitions: the difference of two vectors, the inner
    product (summed from the first entry on), the projection of a vector
    on a basis given by its columns, and the squared Euclidean distance. *)
Section FaceSpace.
Context {T : Type} {PR : Precision T}.





End FaceSpace.

(** ** The two element types *)

(** IEEE binary64, the [double] of the C sources.  An [int] converts
    exactly. *)
Definition float_of_int (n : Z) : float :=
  match n with
  | Z0 => 0%float
  | Zpos _ => PrimFloat.of_uint63 (Uint63.of_Z n)
  | Zneg _ => PrimFloat.opp (PrimFloat.of_uint63 (Uint63.of_Z (- n)))
  end.

Global Instance float_precision : Precision float := {
  p_of_int := float_of_int;
  p_add := PrimFloat.add;
  p_sub := PrimFloat.sub;
  p_mul := PrimFloat.mul;
  p_div := PrimFloat.div;
  p_lt := PrimFloat.ltb;
  p_ne := λ a b, negb (PrimFloat.eqb a b);
}.

(** Exact rationals: arithmetic without rounding.  [Q] answers a division
    by zero with 0, where binary64 answers NaN or an infinity; the
    theorems on [Q] are stated where no such division occurs. *)
Global Instance Q_precision : Precision Q := {
  p_of_int := inject_Z;
  p_add := λ a b, Qred (a + b);
  p_sub := λ a b, Qred (a - b);
  p_mul := λ a b, Qred (a * b);
  p_div := λ a b, Qred (a / b);
  p_lt := λ a b, negb (Qle_bool b a);
  p_ne := λ a b, negb (Qeq_bool a b);
}.

(** The conversion to [int] truncates toward zero. *)
Global Instance Q_conversion : Conversion Q := {
  p_neg := λ a, Qred (- a);
  p_to_int := λ a,
    let n := Qnum a ÷ Z.pos (Qden a) in
    if (INT_MIN <=? n) && (n <=? INT_MAX) then Some n else None;
}.

(** ** The numbers of binary64, counted in units *)

(** The operations on [float] are those of the IEEE 754 model of the
    standard library ([SpecFloat]): a finite number is a sign, a mantissa
    and an exponent, and every finite number is a whole multiple of the
    smallest one, 2^-1074.  [SF_units] is that multiple; it orders the
    finite numbers as [<] does.  [SF_key] puts the infinities beyond
    them. *)
Local Abbreviation fexp64 := (SpecFloat.fexp prec emax).
Local Abbreviation emin64 := (SpecFloat.emin prec emax).

Definition SF_units (f : spec_float) : Z :=
  match f with
  | S754_finite s m e => cond_Zopp s (Z.pos m * 2 ^ (e - emin64))
  | _ => 0
  end.

Definition SF_finite (f : spec_float) : bool :=
  match f with
  | S754_zero _ | S754_finite _ _ _ => true
  | _ => false
  end.

Definition SF_number (f : spec_float) : bool :=
  match f with
  | S754_nan => false
  | _ => true
  end.

Definition SF_key (f : spec_float) : Z :=
  match f with
  | S754_infinity s => cond_Zopp s (2 ^ 2098)
  | _ => SF_units f
  end.

Definition F_units (x : float) : Z := SF_units (Prim2SF x).
Definition F_key (x : float) : Z := SF_key (Prim2SF x).

(** The integer nearest to [t / d], the even one of two that are equally
    near. *)
Definition rne (t d : Z) : Z :=
  let q := t / d in
  let r := t mod d in
  if (d <? 2 * r) || ((d =? 2 * r) && Z.odd q) then q + 1 else q.

(** Rounding to 53 significant bits, on units. *)
Definition round_units (n : Z) : Z :=
  let k := Z.max (Z.log2 n + 1 - 53) 0 in
  rne n (2 ^ k) * 2 ^ k.

(** [located mrs t d]: the record [mrs] of the rounding algorithm holds
    the integer part of [t / d], and its two bits say where the rest lies
    with respect to one half. *)
Definition located (mrs : shr_record) (t d : Z) : Prop :=
  0 < d ∧ 0 ≤ shr_m mrs ∧
  shr_m mrs * d ≤ t < (shr_m mrs + 1) * d ∧
  (shr_r mrs = true ↔ (2 * shr_m mrs + 1) * d ≤ 2 * t) ∧
  (shr_s mrs = true ↔
     if shr_r mrs then (2 * shr_m mrs + 1) * d < 2 * t else shr_m mrs * d < t).

(** The number of bits by which [shr_fexp] shifts [m] at the exponent
    [e]. *)
Definition shift_of (m e : Z) : Z := Z.max (fexp64 (Zdigits2 m + e) - e) 0.

(** What [binary_round_aux] answers for the mantissa [m] at the exponent
    [e], when [m] is the integer part of [t / d]. *)
Definition rounded (s : bool) (m e t d : Z) : spec_float :=
  let n1 := shift_of m e in
  let mr := rne t (d * 2 ^ n1) in
  let e1 := e + n1 in
  let n2 := shift_of mr e1 in
  match mr / 2 ^ n2 with
  | Z0 => S754_zero s
  | Zpos p => if e1 + n2 <=? emax - prec then S754_finite s p (e1 + n2)
              else S754_infinity s
  | Zneg _ => S754_nan
  end.

Ltac located_arith :=
  unfold located; simpl;
  repeat match goal with
         | |- _ ∧ _ => split
         | |- _ ↔ _ => split; intros
         end;
  first [done | lia].

(** ** <stdio.h> on exact rationals *)

(** The characters of a number field, as the number they spell:
    [mantissa] x 10^[exponent]; "1.23457e+06" is mantissa 123457,
    exponent 1. *)
Record decimal_text : Type := { mantissa : Z; exponent : Z }.

Definition pow10 (e : Z) : Q := inject_Z 10 ^ e.

Definition decimal_digits (n : positive) : Z :=
  Z.of_nat (Decimal.nb_digits (Pos.to_uint n)).

(** The decimal exponent of a positive rational: the [e] with
    10^e <= q < 10^(e+1). *)
Definition decimal_exponent (q : Q) : Z :=
  let e := decimal_digits (Z.to_pos (Qnum q)) - decimal_digits (Qden q) in
  if Qle_bool (pow10 e) q then e else e - 1.

(** Round to nearest, ties to even. *)
Definition round_to_integer (q : Q) : Z :=
  let f := Qfloor q in
  match (q - inject_Z f ?= 1 # 2)%Q with
  | Lt => f
  | Gt => f + 1
  | Eq => if Z.even f then f else f + 1
  end.

(** Dropping trailing zeros does not change the number spelled. *)
Fixpoint strip_zeros (n : nat) (m e : Z) : decimal_text :=
  match n with
  | O => {| mantissa := m; exponent := e |}
  | S n =>
      if (negb (m =? 0)) && (m `rem` 10 =? 0)
      then strip_zeros n (m `quot` 10) (e + 1)
      else {| mantissa := m; exponent := e |}
  end.

(** Modelled from the spec: [fprintf("%lg")] of the C library, which is
    not part of the sources ("text format is whitespace-separated ...,
    human-readable").  By the C standard "%lg" converts with precision 6:
    the field spells the value rounded to six significant decimal digits
    (in the style of %e or of %f, without trailing zeros). *)
Definition lg_text (q : Q) : decimal_text :=
  if Qeq_bool q 0 then {| mantissa := 0; exponent := 0 |}
  else
    let a := Qabs q in
    let e := decimal_exponent a in
    let m := round_to_integer (a * pow10 (5 - e)) in
    let '(m, e) := if m =? 1000000 then (100000, e + 1) else (m, e) in
    strip_zeros 5 (Z.sgn (Qnum q) * m) (e - 5).

Definition text_value (t : decimal_text) : Q :=
  Qred (inject_Z (mantissa t) * pow10 (exponent t)).

Global Instance Q_stdio : Stdio Q decimal_text := {
  printf_d := λ n, {| mantissa := n; exponent := 0 |};
  printf_lg := lg_text;
  scanf_d := λ t, if exponent t =? 0 then Some (mantissa t) else None;
  scanf_lf := λ t, Some (text_value t);
}.

(** What comes back of an element that "%lg" printed and "%lf" read: the
    number that the field spells (the element itself should the field not
    be readable). *)
Definition reread {T text : Type} {IO : Stdio T text} (x : T) : T :=
  default x (scanf_lf (printf_lg x)).

(** ** LU factorization, for the inputs of the examples *)

(** Modelled from the spec: [LAPACKE_dgetrf], which is not part of the
    sources ("LU factorization ... reports numerical singularity").  As
    LAPACK documents it: Gaussian elimination with partial pivoting and
    row interchanges; [info = i > 0] says that the pivot U(i,i) is exactly
    zero. *)
Section Getrf.
Context {T : Type} {PR : Precision T}.

Definition p_abs (x : T) : T :=
  if p_lt x (p_of_int 0) then p_sub (p_of_int 0) x else x.

Definition flat_index (layout : matrix_layout) (lda i j : Z) : nat :=
  match layout with
  | LAPACK_ROW_MAJOR => Z.to_nat (i * lda + j)
  | LAPACK_COL_MAJOR => Z.to_nat (j * lda + i)
  end.

Definition at_ (a : list (list T)) (i j : nat) : T :=
  default (p_of_int 0) (a !! i ≫= (.!! j)).

(** The first row at or below [k] whose entry in column [k] is largest
    in absolute value. *)
Definition pivot_row (a : list (list T)) (m k : nat) : nat :=
  foldl (λ p i, if p_lt (p_abs (at_ a p k)) (p_abs (at_ a i k)) then i else p)
        k (seq (S k) (m - S k)).

Definition swap_rows (a : list (list T)) (k p : nat) : list (list T) :=
  <[k := default [] (a !! p)]> (<[p := default [] (a !! k)]> a).

(** Rows below [k]: store the multiplier in column [k] and subtract the
    multiple of row [k] to the right of it. *)
Definition eliminate (a : list (list T)) (k : nat) : list (list T) :=
  imap (λ i row,
          if decide (i ≤ k)%nat then row
          else
            let l := p_div (at_ a i k) (at_ a k k) in
            imap (λ j x,
                    if decide (j < k)%nat then x
                    else if decide (j = k) then l
                    else p_sub x (p_mul l (at_ a k j))) row) a.

Definition getrf_step (m : nat) (st : Z * list (list T) * list Z) (k : nat)
    : Z * list (list T) * list Z :=
  let '(info, a, ipiv) := st in
  let p := pivot_row a m k in
  let ipiv := ipiv ++ [Z.of_nat p + 1] in
  if p_ne (at_ a p k) (p_of_int 0)
  then (info, eliminate (swap_rows a k p) k, ipiv)
  else (if info =? 0 then Z.of_nat k + 1 else info, a, ipiv).

Definition getrf (layout : matrix_layout) (m n : Z) (a : list T) (lda : Z)
    : Z * list T * list Z :=
  let rows_ :=
    (λ i, (λ j, default (p_of_int 0) (a !! flat_index layout lda i j))
            <$> seqZ 0 n) <$> seqZ 0 m in
  let '(info, lu, ipiv) :=
    foldl (getrf_step (Z.to_nat m)) (0, rows_, [])
          (seq 0 (Z.to_nat (Z.min m n))) in
  let a' :=
    foldl (λ a' ij,
             <[flat_index layout lda ij.1 ij.2 :=
                 at_ lu (Z.to_nat ij.1) (Z.to_nat ij.2)]> a')
          a (row_major m n) in
  (info, a', ipiv).

(** LAPACK with the factorization above.  The other three routines are
    left as the identity on their arrays: the examples below stop at the
    factorization. *)
Definition lapack_getrf_only : Lapack T := {|
  LAPACKE_dgetrf := getrf;
  LAPACKE_dgetri := λ _ _ a _ _, (0, a);
  LAPACKE_dgetrs := λ _ _ _ _ _ _ b _, (0, b);
  LAPACKE_dgeev := λ _ _ a _ _, (a, a);
|}.
End Getrf.

(** ** The sign that [m_determinant] gets wrong *)

(** At every order n >= 3 the sign of a first-row term is taken from
    [i % 2] with [i = n] instead of from row 0: an expansion of odd order
    is negated, one of even order is not.  [sign_defect n] is the product
    of these factors down to order 3. *)
Fixpoint sign_defect (n : nat) : Z :=
  match n with
  | O => 1
  | S n' =>
      match n' with
      | O | S O => 1
      | _ => (if Z.even (Z.of_nat n) then 1 else -1) * sign_defect n'
      end
  end.

(** ** Inputs of the examples *)

(** A heap in which every block that [malloc] hands out still holds 5.0 in
    each element, and one in which it holds 0.0. *)
Definition stale_heap : Z → float := λ _, 5%float.
Definition zeroed_heap : Z → float := λ _, 0%float.
Definition stale_heap_Q : Z → Q := λ _, 5%Q.

(** Two training images of one dimension, 1 and 3, each a class of its
    own. *)
Definition two_classes : matrix_t float := Matrix 1 2 [1; 3]%float.
Definition two_classes_Q : matrix_t Q := Matrix 1 2 [1; 3]%Q.
Definition two_entries : list database_entry_t :=
  [ {| class := 1; name := "s1" |}; {| class := 2; name := "s2" |} ].

Definition sample_2x3 : matrix_t float :=
  Matrix 2 3 [5; 0; 0; 2; 1; 1]%float.
Definition sample_3x3 : matrix_t Q :=
  Matrix 3 3 [2; 0; 1; 1; 3; 0; 0; 1; 4]%Q.

(** Two 1-by-1 matrices, at the addresses 1 and 2. *)
Definition matched_heap : gmap positive (matrix_t float) :=
  <[2%positive := Matrix 1 1 [3]%float]>
    (<[1%positive := Matrix 1 1 [6]%float]> ∅).

(** A 1-by-1 matrix at address 1 and a 1-by-2 matrix at address 2. *)
Definition mismatched_heap : gmap positive (matrix_t float) :=
  <[2%positive := Matrix 1 2 [1; 2]%float]>
    (<[1%positive := Matrix 1 1 [1]%float]> ∅).

Definition constant_2x2 : matrix_t float := Matrix 2 2 [5; 5; 5; 5]%float.
Definition sample_2x2_Q : matrix_t Q := Matrix 2 2 [5; 1; 3; 2]%Q.

Definition sample_2x2 : matrix_t float := Matrix 2 2 [5; 1; 3; 2]%float.

(** Two elements whose difference is beyond the largest number, an
    element that is an infinity, and one that is NaN. *)
Definition wide_1x2 : matrix_t float :=
  Matrix 1 2 [-0x1p+1023; 0x1p+1023]%float.
Definition infinite_1x2 : matrix_t float := Matrix 1 2 [0; infinity]%float.
Definition not_a_number_1x3 : matrix_t float := Matrix 1 3 [1; nan; 2]%float.

Definition seven_digits : matrix_t Q := Matrix 1 1 [1234567]%Q.

(** The Euclidean norm of a vector with one entry. *)
Definition norm_of_scalar (v : list Q) : Q := Qabs (default 0%Q (head v)).

Definition norm_of_scalar_float (v : list float) : float :=
  abs (default 0%float (head v)).

(** Three training images and a test image of two pixels, one eigenface. *)
Definition training_images : list (list Q) := [[4; 0]; [1; 0]; [1; 2]]%Q.
Definition one_eigenface : list (list Q) := [[1; 0]]%Q.



(** Two classes of two identical images each, already projected. *)
Definition identical_images : matrix_t Q :=
  Matrix 2 4 [1; 2; 1; 2; 3; 5; 3; 5]%Q.
Definition four_entries : list database_entry_t :=
  [ {| class := 1; name := "s1" |}; {| class := 1; name := "s1" |};
    {| class := 2; name := "s2" |}; {| class := 2; name := "s2" |} ].

Definition singular_2x2 : matrix_t Q := Matrix 2 2 [0; 0; 0; 0]%Q.
Definition identity_basis : matrix_t Q := Matrix 2 2 [1; 0; 0; 1]%Q.

(** Elements with a fraction, and an element above [INT_MAX]. *)
Definition fractions_1x2 : matrix_t Q := Matrix 1 2 [7 # 2; -5 # 3]%Q.
Definition too_large_1x1 : matrix_t Q := Matrix 1 1 [2147483648]%Q.

(** Two 1-by-2 matrices of rationals, at the addresses 1 and 2. *)
Definition heap_Q : gmap positive (matrix_t Q) :=
  <[2%positive := Matrix 1 2 [3; 5]%Q]>
    (<[1%positive := Matrix 1 2 [1; 2]%Q]> ∅).

(** Matrices without columns and without rows. *)
Definition no_columns_2 : matrix_t Q := Matrix 2 0 [].
Definition no_columns_1 : matrix_t Q := Matrix 1 0 [].
Definition no_rows : matrix_t float := Matrix 0 2 [].
Definition no_columns : matrix_t float := Matrix 2 0 [].

(** A 3-by-3 matrix whose second row is zero. *)
Definition zero_row_3x3 : matrix_t Q :=
  Matrix 3 3 [1; 0; 4; 2; 0; 5; 3; 0; 7]%Q.

(** * Theorems *)

(** ** Loops and buffers *)

Section LoopFacts.
Context {St : Type}.

Lemma for_loop_nested (r c : Z) (f : Z → Z → St → St) (s : St) :
  for_loop 0 r (λ i s, for_loop 0 c (λ j s, f i j s) s) s
  = foldl (λ s ij, f ij.1 ij.2 s) s (row_major r c).
Proof.
  unfold for_loop, row_major. rewrite !Z.sub_0_r.
  generalize (seqZ 0 r) as l. intros l. revert s.
  induction l as [|i l IH]; intros s; [done|].
  rewrite bind_cons, foldl_app, foldl_fmap. simpl. apply IH.
Qed.

Lemma for_loop_empty (lo hi : Z) (f : Z → St → St) (s : St) :
  hi ≤ lo → for_loop lo hi f s = s.
Proof. intros. unfold for_loop. by rewrite seqZ_nil by lia. Qed.

Lemma for_loop_last (lo hi : Z) (f : Z → St → St) (s : St) :
  lo ≤ hi → for_loop lo (hi + 1) f s = f hi (for_loop lo hi f s).
Proof.
  intros. unfold for_loop.
  replace (hi + 1 - lo) with ((hi - lo) + 1) by lia.
  rewrite seqZ_app by lia. rewrite foldl_app.
  rewrite (seqZ_cons _ 1) by lia. rewrite (seqZ_nil _ (Z.pred 1)) by lia. simpl.
  by replace (lo + (hi - lo)) with hi by lia.
Qed.

(** Loop invariants, for [for_loop] and for a fold over a list. *)
Lemma for_loop_ind (P : Z → St → Prop) (lo hi : Z) (f : Z → St → St) (s : St) :
  lo ≤ hi → P lo s →
  (∀ i s, lo ≤ i < hi → P i s → P (i + 1) (f i s)) →
  P hi (for_loop lo hi f s).
Proof.
  intros Hle H0 Hstep.
  replace hi with (lo + Z.of_nat (Z.to_nat (hi - lo))) by lia.
  assert (Hn : (Z.of_nat (Z.to_nat (hi - lo)) ≤ hi - lo)) by lia.
  revert Hn. generalize (Z.to_nat (hi - lo)) as n.
  induction n as [|n IH]; intros Hn.
  - rewrite for_loop_empty by lia. by rewrite Z.add_0_r.
  - replace (lo + Z.of_nat (S n)) with ((lo + Z.of_nat n) + 1) by lia.
    rewrite for_loop_last by lia. apply Hstep; [lia|]. apply IH. lia.
Qed.

Lemma foldl_ind {B : Type} (P : list B → St → Prop) (f : St → B → St)
    (s : St) (l : list B) :
  P [] s →
  (∀ l1 x s, P l1 s → P (l1 ++ [x]) (f s x)) →
  P l (foldl f s l).
Proof.
  intros H0 Hstep. induction l as [|x l IH] using rev_ind; [done|].
  rewrite foldl_snoc. by apply Hstep.
Qed.
End LoopFacts.

Lemma length_row_major (r c : Z) :
  length (row_major r c) = (Z.to_nat r * Z.to_nat c)%nat.
Proof.
  unfold row_major. rewrite <- (length_seqZ 0 r).
  induction (seqZ 0 r) as [|i l IH]; [done|].
  rewrite bind_cons, length_app, length_fmap, length_seqZ. simpl. lia.
Qed.

Lemma elem_of_row_major (r c i j : Z) :
  (i, j) ∈ row_major r c ↔ 0 ≤ i < r ∧ 0 ≤ j < c.
Proof.
  unfold row_major. rewrite list_elem_of_bind. split.
  - intros (i' & Hj & Hi). apply list_elem_of_fmap in Hj as (j' & Heq & Hj).
    simplify_eq. apply elem_of_seqZ in Hi, Hj. lia.
  - intros [Hi Hj]. exists i. split; [|apply elem_of_seqZ; lia].
    apply list_elem_of_fmap. exists j. split; [done|apply elem_of_seqZ; lia].
Qed.

(** ** Non-zero index extraction *)

Section FindNonZeros.
Context {T : Type} {PR : Precision T} (indeterminate : Z → T).

Local Abbreviation row_indices l :=
  ((λ ij : Z * Z, p_of_int (ij.1 + 1)) <$> l).

Lemma findNonZeros_scan (M : matrix_t T) (N : nat) (l : list (Z * Z)) :
  (length l ≤ N)%nat →
  let hit := λ ij : Z * Z, p_ne (elem indeterminate M ij.1 ij.2) (p_of_int 0) = true in
  foldl (λ (st : matrix_t T * Z) ij,
           let '(R, count) := st in
           if p_ne (elem indeterminate M ij.1 ij.2) (p_of_int 0)
           then (elem_set R count 0 (p_of_int (ij.1 + 1)), count + 1)
           else (R, count))
        (Matrix (Z.of_nat N) 1 (replicate N zero), 0) l
  = (Matrix (Z.of_nat N) 1
       (row_indices (filter hit l)
        ++ replicate (N - length (filter hit l)) zero),
     Z.of_nat (length (filter hit l))).
Proof.
  intros Hlen hit. revert Hlen.
  induction l as [|[i j] l IH] using rev_ind; intros Hlen.
  { simpl. by rewrite Nat.sub_0_r. }
  rewrite length_app in Hlen. simpl in Hlen.
  rewrite foldl_snoc, IH by lia. clear IH.
  rewrite filter_app, filter_cons, filter_nil. simpl.
  pose proof (length_filter hit l) as Hk.
  destruct (decide (hit (i, j))) as [Hne|Hne]; unfold hit in Hne;
    simpl in Hne; [|apply not_true_is_false in Hne]; rewrite Hne.
  - rewrite length_app, fmap_app. simpl. f_equal; [|lia].
    unfold elem_set, elem_index, store. simpl.
    rewrite (proj2 (Z.ltb_ge _ _)) by lia. f_equal.
    replace (Z.to_nat (0 * Z.of_nat N + Z.of_nat (length (filter hit l))))
      with (length (row_indices (filter hit l)) + 0)%nat
      by (rewrite length_fmap; lia).
    rewrite insert_app_r.
    replace (N - length (filter hit l))%nat
      with (S (N - (length (filter hit l) + 1)))%nat by lia.
    simpl. by rewrite <- app_assoc.
  - by rewrite app_nil_r.
Qed.

(** C10. For a matrix [M] with r rows and c columns, [m_findNonZeros]
    returns an (r*c)-by-1 vector: its first k entries are the 1-based row
    indices (the column index is dropped) of the k non-zero elements of
    [M] in row-major scan order, and the other r*c - k entries are 0. *)
Theorem m_findNonZeros_spec (M : matrix_t T) :
  well_formed M →
  let cells := nonzero_cells indeterminate M in
  let k := length cells in
  (k ≤ Z.to_nat (rows M * cols M))%nat ∧
  m_findNonZeros indeterminate M
  = Matrix (rows M * cols M) 1
      (row_indices cells
       ++ replicate (Z.to_nat (rows M * cols M) - k) zero).
Proof.
  intros (Hr & Hc & _ & _) cells k.
  assert (Hlen : length (row_major (rows M) (cols M))
                 = Z.to_nat (rows M * cols M)).
  { rewrite length_row_major. lia. }
  split.
  { unfold k, cells, nonzero_cells. rewrite <- Hlen. apply length_filter. }
  unfold m_findNonZeros, m_zeros.
  rewrite (for_loop_nested (rows M) (cols M)
             (λ i j (st : matrix_t T * Z),
                let '(R, count) := st in
                if p_ne (elem indeterminate M i j) (p_of_int 0)
                then (elem_set R count 0 (p_of_int (i + 1)), count + 1)
                else (R, count))).
  pose proof (findNonZeros_scan M (Z.to_nat (rows M * cols M))
                (row_major (rows M) (cols M))) as Hscan.
  rewrite Z2Nat.id in Hscan by lia.
  cbv beta zeta in Hscan |- *. rewrite Z.mul_1_r. by rewrite Hscan by lia.
Qed.
End FindNonZeros.

(** ** Reading and writing cells *)

Section Cells.
Context {T : Type} {PR : Precision T} (indeterminate : Z → T).

Lemma cell_index_range (r c i j : Z) :
  0 ≤ i < r → 0 ≤ j < c → 0 ≤ j * r + i < r * c.
Proof.
  intros Hi Hj.
  assert (0 ≤ j * r) by (apply Z.mul_nonneg_nonneg; lia).
  assert (j * r ≤ (c - 1) * r) by (apply Z.mul_le_mono_nonneg_r; lia).
  lia.
Qed.

Lemma cell_index_inj (r i j i' j' : Z) :
  0 ≤ i < r → 0 ≤ i' < r → 0 ≤ j → 0 ≤ j' →
  j * r + i = j' * r + i' → i = i' ∧ j = j'.
Proof.
  intros Hi Hi' Hj Hj' Heq.
  assert (j = j') as ->; [|lia].
  destruct (Z.lt_trichotomy j j') as [Hlt|[?|Hlt]]; [|done|].
  - assert ((j + 1) * r ≤ j' * r) by (apply Z.mul_le_mono_nonneg_r; lia). lia.
  - assert ((j' + 1) * r ≤ j * r) by (apply Z.mul_le_mono_nonneg_r; lia). lia.
Qed.

Lemma load_lookup (d : list T) (k : Z) (x : T) :
  0 ≤ k → d !! Z.to_nat k = Some x → load indeterminate d k = x.
Proof.
  intros Hk Hx. unfold load.
  rewrite (proj2 (Z.ltb_ge _ _)) by lia. by rewrite Hx.
Qed.

Lemma load_store_eq (d : list T) (k : Z) (v : T) :
  0 ≤ k → (Z.to_nat k < length d)%nat →
  load indeterminate (store d k v) k = v.
Proof.
  intros Hk Hlen. apply load_lookup; [done|]. unfold store.
  rewrite (proj2 (Z.ltb_ge _ _)) by lia. by apply list_lookup_insert_eq.
Qed.

Lemma load_store_ne (d : list T) (k k' : Z) (v : T) :
  0 ≤ k → 0 ≤ k' → k ≠ k' →
  load indeterminate (store d k v) k' = load indeterminate d k'.
Proof.
  intros Hk Hk' Hne. unfold load, store.
  rewrite !(proj2 (Z.ltb_ge _ _)) by lia.
  rewrite list_lookup_insert_ne by lia. done.
Qed.

Lemma length_store (d : list T) (k : Z) (v : T) :
  length (store d k v) = length d.
Proof. unfold store. destruct (k <? 0); [done|apply length_insert]. Qed.

Lemma elem_set_rows (M : matrix_t T) i j v : rows (elem_set M i j v) = rows M.
Proof. done. Qed.

Lemma elem_set_cols (M : matrix_t T) i j v : cols (elem_set M i j v) = cols M.
Proof. done. Qed.

Lemma elem_set_well_formed (M : matrix_t T) i j v :
  well_formed M → well_formed (elem_set M i j v).
Proof.
  unfold well_formed. simpl. rewrite length_store. done.
Qed.

Lemma elem_elem_set_eq (M : matrix_t T) i j v :
  well_formed M → 0 ≤ i < rows M → 0 ≤ j < cols M →
  elem indeterminate (elem_set M i j v) i j = v.
Proof.
  intros (_ & _ & _ & Hlen) Hi Hj. unfold elem, elem_set, elem_index.
  simpl. pose proof (cell_index_range _ _ _ _ Hi Hj).
  apply load_store_eq; lia.
Qed.

Lemma elem_elem_set_ne (M : matrix_t T) i j i' j' v :
  0 ≤ i < rows M → 0 ≤ j < cols M →
  0 ≤ i' < rows M → 0 ≤ j' < cols M →
  (i, j) ≠ (i', j') →
  elem indeterminate (elem_set M i j v) i' j' = elem indeterminate M i' j'.
Proof.
  intros Hi Hj Hi' Hj' Hne. unfold elem, elem_set, elem_index.
  simpl. pose proof (cell_index_range _ _ _ _ Hi Hj).
  pose proof (cell_index_range _ _ _ _ Hi' Hj').
  apply load_store_ne; [lia..|]. intros Heq.
  apply cell_index_inj in Heq as [-> ->]; [done|lia..].
Qed.

(** Two well-formed matrices of one shape with the same cells are the
    same matrix. *)
Lemma matrix_ext (M M' : matrix_t T) :
  well_formed M → well_formed M' →
  rows M = rows M' → cols M = cols M' →
  (∀ i j, 0 ≤ i < rows M → 0 ≤ j < cols M → elem indeterminate M i j = elem indeterminate M' i j) →
  M = M'.
Proof.
  destruct M as [r c d], M' as [r' c' d']. unfold well_formed. simpl.
  intros (Hr & Hc & _ & Hd) (_ & _ & _ & Hd') <- <- Hcells. f_equal.
  apply (list_eq_same_length _ _ (Z.to_nat (r * c))); [done..|].
  intros k x y Hk Hx Hy.
  assert (Hr' : 0 < r) by nia.
  specialize (Hcells (Z.of_nat k mod r) (Z.of_nat k / r)).
  unfold elem, elem_index in Hcells. simpl in Hcells.
  replace (Z.of_nat k / r * r + Z.of_nat k mod r) with (Z.of_nat k)
    in Hcells by (rewrite (Z.div_mod (Z.of_nat k) r) at 1; lia).
  rewrite (load_lookup d _ x), (load_lookup d' _ y) in Hcells;
    rewrite ?Nat2Z.id; try done; try lia.
  apply Hcells.
  - apply Z.mod_pos_bound. lia.
  - split; [apply Z.div_pos; lia|].
    apply Z.div_lt_upper_bound; [lia|]. lia.
Qed.

Lemma NoDup_row_major (r c : Z) : NoDup (row_major r c).
Proof.
  unfold row_major. apply NoDup_bind; [| |apply NoDup_seqZ].
  - intros i i' [a b] _ _ Hi Hi'.
    apply list_elem_of_fmap in Hi as (? & ? & _), Hi' as (? & ? & _).
    by simplify_eq.
  - intros i _. apply NoDup_fmap_2; [|apply NoDup_seqZ].
    intros ???. by simplify_eq.
Qed.
End Cells.

(** ** Termination of determinant and cofactor *)

Section Termination.
Context {T : Type} {PR : Precision T}.
Context (indeterminate : Z → T) (indeterminate_int : Z).

Lemma for_loop_invariant {St : Type} (P : St → Prop) lo hi
    (f : Z → St → St) (s : St) :
  P s → (∀ i s, P s → P (f i s)) → P (for_loop lo hi f s).
Proof.
  intros H0 Hstep. unfold for_loop.
  apply (foldl_ind (λ _, P)); [done|]. intros _ x s' Hs. by apply Hstep.
Qed.

Lemma foldlM_returns {St B : Type} (P : St → Prop)
    (f : St → B → outcome St) (s : St) (l : list B) :
  P s →
  (∀ s x, P s → ∃ s', f s x = Returns s' ∧ P s') →
  ∃ s', foldlM f s l = Returns s' ∧ P s'.
Proof.
  intros H0 Hstep. revert s H0.
  induction l as [|x l IH]; intros s H0; simpl; [by exists s|].
  destruct (Hstep s x H0) as (s' & -> & Hs'). simpl. by apply IH.
Qed.

Lemma determinant_fill_shape (M A : matrix_t T) (i j : Z) :
  same_shape (determinant_fill indeterminate M A i j).1 A.
Proof.
  unfold determinant_fill.
  match goal with |- context [for_loop ?lo ?hi ?f ?s] =>
    assert (Hs : same_shape (for_loop lo hi f s).1.1 A);
      [|by destruct (for_loop lo hi f s) as [[??]?]] end.
  apply (for_loop_invariant (λ s, same_shape s.1.1 A)); [done|].
  intros k [[A' i'] c'] HA. simpl in *.
  destruct (k =? j); [done|]. simpl.
  apply (for_loop_invariant (λ A'', same_shape A'' A)); [done|].
  by intros ? ? ?.
Qed.

Lemma cofactor_fill_shape (M A : matrix_t T) (i j : Z) :
  same_shape (cofactor_fill indeterminate M A i j) A.
Proof.
  unfold cofactor_fill.
  match goal with |- context [for_loop ?lo ?hi ?f ?s] =>
    assert (Hs : same_shape (for_loop lo hi f s).1 A);
      [|by destruct (for_loop lo hi f s) as [??]] end.
  apply (for_loop_invariant (λ s, same_shape s.1 A)); [done|].
  intros r [A' row] HA. simpl in *.
  destruct (i =? r); [done|].
  match goal with |- context [for_loop ?lo ?hi ?f ?s] =>
    assert (Hs : same_shape (for_loop lo hi f s).1 A);
      [|by destruct (for_loop lo hi f s) as [??]] end.
  apply (for_loop_invariant (λ s, same_shape s.1 A)); [done|].
  intros c [A'' col] HA'. simpl in *. by destruct (j =? c).
Qed.

(** One unit of fuel per order is enough: the recursion goes from order
    n to order n - 1. *)
Lemma m_determinant_fuel_sufficient (fuel : nat) (M : matrix_t T) :
  rows M = cols M → (Z.to_nat (rows M) < fuel)%nat →
  returned (m_determinant_rec indeterminate indeterminate_int fuel M).
Proof.
  revert M. induction fuel as [|fuel IH]; intros M Hsq Hfuel; [lia|].
  simpl. unfold assert. rewrite Hsq, Z.eqb_refl. simpl.
  destruct (cols M <? 1) eqn:H1; [by eexists|].
  destruct (cols M =? 1) eqn:H2; [by eexists|].
  destruct (cols M =? 2) eqn:H3; [by eexists|].
  apply Z.ltb_ge in H1. apply Z.eqb_neq in H2, H3.
  unfold for_loopM.
  match goal with |- context [foldlM ?f ?s0 ?l] =>
    destruct (foldlM_returns
      (λ st : T * matrix_t T * Z,
         rows st.1.2 = cols M - 1 ∧ cols st.1.2 = cols M - 1) f s0 l)
      as (s' & -> & _); [| |by destruct s' as [[??]?]; eexists] end.
  { done. }
  intros [[det A] i] j [HrA HcA]. simpl in *.
  pose proof (determinant_fill_shape M A i j) as [Hr Hc].
  destruct (determinant_fill indeterminate M A i j) as [A' i'].
  simpl in *.
  destruct (IH A') as [val ->]; [lia..|]. simpl.
  eexists. split; [done|]. simpl. lia.
Qed.

Lemma m_cofactor_fuel_sufficient (fuel : nat) (M : matrix_t T) :
  rows M = cols M → (Z.to_nat (rows M - 1) < fuel)%nat →
  returned (m_cofactor_rec indeterminate indeterminate_int fuel M).
Proof.
  intros Hsq Hfuel. unfold m_cofactor_rec, assert.
  rewrite Hsq, Z.eqb_refl. simpl.
  set (P := λ s : matrix_t T * matrix_t T,
              rows s.1 = cols M - 1 ∧ cols s.1 = cols M - 1).
  unfold for_loopM.
  match goal with |- context [foldlM ?f ?s0 ?l] =>
    destruct (foldlM_returns P f s0 l) as (s' & -> & _);
      [| |by destruct s' as [??]; eexists] end.
  { done. }
  intros s i Hs.
  apply (foldlM_returns P); [done|].
  intros [A R] j [HrA HcA]. simpl in *.
  pose proof (cofactor_fill_shape M A i j) as [Hr Hc].
  destruct (m_determinant_fuel_sufficient fuel
              (cofactor_fill indeterminate M A i j)) as [val ->];
    [lia..|].
  simpl. eexists. split; [done|]. unfold P. simpl. lia.
Qed.

End Termination.

(** ** The determinant of the identity, and the cofactors of the identity *)

Example m_determinant_identity_1 :
  m_determinant stale_heap 0 (m_identity 1) = Returns 1%float.
Proof. vm_compute. reflexivity. Qed.

Example m_determinant_identity_2 :
  m_determinant stale_heap 0 (m_identity 2) = Returns 1%float.
Proof. vm_compute. reflexivity. Qed.

(** C4, at the input on which the code departs from it: the determinant of
    the 3-by-3 identity comes out as -1, whatever [malloc]ed memory and the
    unset [i] hold, where cofactor expansion along the first row gives 1.
    After the loop [for (i = 1; i < M->rows; i++)] the variable [i] is
    [M->rows], and the sign is taken from [i % 2] instead of from row 0. *)
Theorem m_determinant_identity_3 :
  ∀ (heap : Z → float) (i : Z),
    m_determinant heap i (m_identity 3) = Returns (-1)%float ∧
    determinant_spec heap 3 (m_identity 3) = 1%float.
Proof. intros heap i. split; vm_compute; reflexivity. Qed.

Example m_determinant_identity_4 :
  m_determinant stale_heap 0 (m_identity 4) = Returns (-1)%float.
Proof. vm_compute. reflexivity. Qed.

Example m_determinant_identity_5 :
  m_determinant stale_heap 0 (m_identity 5) = Returns 1%float.
Proof. vm_compute. reflexivity. Qed.

Example m_determinant_zero_row :
  m_determinant stale_heap 0 (Matrix 3 3 [1; 0; 4; 2; 0; 5; 3; 0; 7]%float)
  = Returns 0%float.
Proof. vm_compute. reflexivity. Qed.

Example m_determinant_sample_3x3 :
  m_determinant stale_heap_Q 0 sample_3x3 = Returns (-25)%Q ∧
  determinant_spec stale_heap_Q 3 sample_3x3 = 25%Q.
Proof. split; vm_compute; reflexivity. Qed.

(** C6, at the input on which the code departs from it: for the 4-by-4
    identity the cell R(0,0) is -1, where the determinant of the minor
    without row 0 and column 0 (the 3-by-3 identity), signed by (-1)^(0+0),
    is 1.  The sign and the transposed store of [m_cofactor] are as the
    claim has them; the value comes from [m_determinant]. *)
Theorem m_cofactor_identity_4 :
  ∀ (heap : Z → float) (i : Z),
    (∃ R, m_cofactor heap i (m_identity 4) = Returns R ∧
          elem heap R 0 0 = (-1)%float) ∧
    signed_minor_spec heap (m_identity 4) 0 0 = 1%float.
Proof.
  intros heap i. split; [|vm_compute; reflexivity].
  eexists. split; [vm_compute; reflexivity|]. vm_compute. reflexivity.
Qed.

(** The cofactor matrix of a 1-by-1 matrix is taken from a determinant of
    order 0, for which [m_determinant] answers 0. *)
Example m_cofactor_order_1 :
  m_cofactor stale_heap 0 (Matrix 1 1 [7]%float)
  = Returns (Matrix 1 1 [0]%float).
Proof. vm_compute. reflexivity. Qed.

Example m_cofactor_2x2 :
  m_cofactor stale_heap 0 (Matrix 2 2 [1; 2; 3; 4]%float)
  = Returns (Matrix 2 2 [4; -2; -3; 1]%float).
Proof. vm_compute. reflexivity. Qed.

(** ** The scatter matrices on uninitialised memory *)

(** C3, at the input on which the code departs from it.  The class means
    are 1 and 3, their mean is 2 and S_b is 1*(1-2)^2 + 1*(3-2)^2 = 2.
    [m_scatter] adds the class means onto the block [u], which it takes
    from [m_initialize] ([malloc]) and never clears: with 5.0 left in that
    block the grand mean becomes (5+1+3)/2 = 4.5 and S_b becomes 14.5. *)
Theorem m_scatter_stale_heap :
  m_scatter stale_heap 0 two_classes 2 two_entries (m_zeros 1 1) (m_zeros 1 1)
  = Returns (Matrix 1 1 [14.5]%float, Matrix 1 1 [0]%float) ∧
  grand_mean_spec [ [[1]]; [[3]] ]%float = [2]%float ∧
  between_scatter_spec [ [[1]]; [[3]] ]%float = [[2]]%float.
Proof. repeat split; vm_compute; reflexivity. Qed.

(** On a block that happens to hold zeros the same call gives the S_b of
    the specification. *)
Example m_scatter_zeroed_heap :
  m_scatter zeroed_heap 0 two_classes 2 two_entries (m_zeros 1 1) (m_zeros 1 1)
  = Returns (Matrix 1 1 [2]%float, Matrix 1 1 [0]%float).
Proof. vm_compute. reflexivity. Qed.

(** ** Filling the cells of a matrix *)

Section Fill.
Context {T : Type} {PR : Precision T} (indeterminate : Z → T).

Lemma m_initialize_well_formed (r c : Z) :
  0 ≤ r → 0 ≤ c → r * c ≤ INT_MAX →
  well_formed (m_initialize indeterminate r c).
Proof.
  intros. unfold well_formed, m_initialize. simpl.
  by rewrite length_fmap, length_seqZ.
Qed.

(** A pass that writes each cell of [l] once, from what the cell holds. *)
Lemma foldl_elem_set_cells (g : Z → Z → T → T) (l : list (Z * Z))
    (M0 : matrix_t T) :
  well_formed M0 → NoDup l →
  (∀ ij, ij ∈ l → 0 ≤ ij.1 < rows M0 ∧ 0 ≤ ij.2 < cols M0) →
  let M' := foldl (λ M ij, elem_set M ij.1 ij.2
                             (g ij.1 ij.2 (elem indeterminate M ij.1 ij.2)))
                  M0 l in
  well_formed M' ∧ rows M' = rows M0 ∧ cols M' = cols M0 ∧
  ∀ i j, 0 ≤ i < rows M0 → 0 ≤ j < cols M0 →
    elem indeterminate M' i j
    = if decide ((i, j) ∈ l) then g i j (elem indeterminate M0 i j)
      else elem indeterminate M0 i j.
Proof.
  intros Hwf. induction l as [|[i0 j0] l IH] using rev_ind; intros Hnd Hin.
  { simpl. do 3 (split; [done|]). intros i j _ _.
    first [done | rewrite decide_False; [done|apply not_elem_of_nil]]. }
  apply NoDup_app in Hnd as (Hnd & Hfresh & _).
  destruct IH as (Hwf' & Hr & Hc & Hcells); [done| |].
  { intros ij Hij. apply Hin, elem_of_app. by left. }
  destruct (Hin (i0, j0)) as [Hi0 Hj0]; [apply elem_of_app; right; by left|].
  simpl in Hi0, Hj0. rewrite foldl_snoc. cbv zeta. simpl.
  set (M' := foldl _ M0 l) in *.
  split; [by apply elem_set_well_formed|]. do 2 (split; [done|]).
  intros i j Hi Hj.
  destruct (decide ((i, j) = (i0, j0))) as [Heq|Hne].
  - simplify_eq. rewrite elem_elem_set_eq by (rewrite ?Hr, ?Hc; done).
    rewrite decide_True by (apply elem_of_app; right; by left).
    rewrite Hcells by done. rewrite decide_False; [done|].
    intros Hl. by apply (Hfresh _ Hl); left.
  - rewrite elem_elem_set_ne by (rewrite ?Hr, ?Hc; done).
    rewrite Hcells by done.
    destruct (decide ((i, j) ∈ l)) as [Hl|Hl].
    + rewrite decide_True; [done|]. apply elem_of_app. by left.
    + rewrite decide_False; [done|]. rewrite elem_of_app.
      intros [?|Hx]; [done|]. by apply list_elem_of_singleton in Hx.
Qed.

(** The two nested loops over all the cells of a matrix. *)
Lemma for_loops_elem_set_fixed (g : Z → Z → T → T) (M0 : matrix_t T) :
  well_formed M0 →
  let M' := for_loop 0 (rows M0) (λ i M,
              for_loop 0 (cols M0) (λ j M,
                elem_set M i j (g i j (elem indeterminate M i j))) M) M0 in
  well_formed M' ∧ rows M' = rows M0 ∧ cols M' = cols M0 ∧
  ∀ i j, 0 ≤ i < rows M0 → 0 ≤ j < cols M0 →
    elem indeterminate M' i j = g i j (elem indeterminate M0 i j).
Proof.
  intros Hwf M'. unfold M'.
  rewrite (for_loop_nested (rows M0) (cols M0)
             (λ i j M, elem_set M i j (g i j (elem indeterminate M i j)))).
  destruct (foldl_elem_set_cells g (row_major (rows M0) (cols M0)) M0)
    as (Hwf' & Hr & Hc & Hcells); [done|apply NoDup_row_major| |].
  { intros [i j] Hij. by apply elem_of_row_major in Hij. }
  do 3 (split; [done|]). intros i j Hi Hj.
  rewrite Hcells by done. rewrite decide_True; [done|].
  by apply elem_of_row_major.
Qed.

Lemma for_loop_ext {St : Type} (P : St → Prop) lo hi (f g : Z → St → St)
    (s : St) :
  P s → (∀ i s, P s → f i s = g i s ∧ P (g i s)) →
  for_loop lo hi f s = for_loop lo hi g s ∧ P (for_loop lo hi g s).
Proof.
  intros H0 Hstep. unfold for_loop.
  induction (seqZ lo (hi - lo)) as [|i l IH] using rev_ind; [done|].
  rewrite !foldl_snoc. destruct IH as [-> HP].
  destruct (Hstep i _ HP) as [-> ?]. done.
Qed.

(** The same loops as the sources write them, with the inner bound read
    from the matrix that is being changed. *)
Lemma for_loops_elem_set (g : Z → Z → T → T) (M0 : matrix_t T) :
  well_formed M0 →
  let M' := for_loop 0 (rows M0) (λ i M,
              for_loop 0 (cols M) (λ j M,
                elem_set M i j (g i j (elem indeterminate M i j))) M) M0 in
  well_formed M' ∧ rows M' = rows M0 ∧ cols M' = cols M0 ∧
  ∀ i j, 0 ≤ i < rows M0 → 0 ≤ j < cols M0 →
    elem indeterminate M' i j = g i j (elem indeterminate M0 i j).
Proof.
  intros Hwf M'. unfold M'.
  destruct (for_loop_ext (λ M, cols M = cols M0) 0 (rows M0)
              (λ i M, for_loop 0 (cols M) (λ j M,
                 elem_set M i j (g i j (elem indeterminate M i j))) M)
              (λ i M, for_loop 0 (cols M0) (λ j M,
                 elem_set M i j (g i j (elem indeterminate M i j))) M) M0)
    as [-> _]; [done| |by apply for_loops_elem_set_fixed].
  intros i M Hc. rewrite Hc. split; [done|].
  by apply (for_loop_invariant (λ M, cols M = cols M0)).
Qed.
End Fill.

(** ** Elementwise operations on two matrices *)

Section Dot.
Context {T : Type} {PR : Precision T} (indeterminate : Z → T).

Implicit Types (h : gmap positive (matrix_t T)) (a b r : matrix_t T).

Lemma elem_at_run h P m i j :
  h !! P = Some m →
  elem_at indeterminate P i j h = Returns (elem indeterminate m i j, h).
Proof.
  intros Hm. unfold elem_at, deref, mbind, prog_bind. cbv beta.
  by rewrite Hm.
Qed.

Lemma elem_assign_run h P m i j v :
  h !! P = Some m →
  elem_assign P i j v h
  = Returns (tt, <[P := elem_set m i j v]> h).
Proof.
  intros Hm. unfold elem_assign, deref, assign, mbind, prog_bind. cbv beta.
  by rewrite Hm, Hm.
Qed.

Lemma prog_bind_run {A B : Type} (c : prog A) (k : A → prog B) h :
  (c ≫= k) h
  = match c h with
    | Returns (a, h') => k a h'
    | Exits s => Exits s
    | Aborts => Aborts
    | Undefined => Undefined
    | Unfinished => Unfinished
    end.
Proof. done. Qed.

Lemma for_each_app {B : Type} (l1 l2 : list B) (body : B → prog unit) h :
  for_each (l1 ++ l2) body h
  = (for_each l1 body;; for_each l2 body) h.
Proof.
  revert h. induction l1 as [|x l1 IH]; intros h; simpl; [done|].
  unfold mbind, prog_bind in *.
  destruct (body x h) as [[[] h']| | | |]; done.
Qed.

Lemma for_loopP_nested (rs cs : Z) (body : Z → Z → prog unit) h :
  for_loopP 0 rs (λ i, for_loopP 0 cs (λ j, body i j)) h
  = for_each (row_major rs cs) (λ ij, body ij.1 ij.2) h.
Proof.
  unfold for_loopP, row_major. rewrite !Z.sub_0_r.
  generalize (seqZ 0 rs) as l. intros l. revert h.
  induction l as [|i l IH]; intros h; [done|].
  rewrite bind_cons, for_each_app. simpl. rewrite !prog_bind_run.
  assert (Hrow : ∀ (k : list Z) h0,
            for_each k (λ j, body i j) h0
            = for_each ((λ j, (i, j)) <$> k) (λ ij, body ij.1 ij.2) h0).
  { induction k as [|j k IHk]; intros h0; [done|]. simpl.
    unfold mbind, prog_bind. by destruct (body i j h0) as [[[] ?]| | | |]. }
  rewrite Hrow.
  destruct (for_each _ _ h) as [[[] h']| | | |]; [apply IH|done..].
Qed.

(** The loops of an elementwise operation write the result into the new
    block [R] and nowhere else. *)
Lemma dot_loops_run (op : T → T → T) h A B R a b r0 (l : list (Z * Z)) :
  h !! A = Some a → h !! B = Some b → h !! R = None →
  for_each l (λ ij,
      x ← elem_at indeterminate A ij.1 ij.2;
      y ← elem_at indeterminate B ij.1 ij.2;
      elem_assign R ij.1 ij.2 (op x y)) (<[R := r0]> h)
  = Returns (tt,
      <[R := foldl (λ r ij,
                elem_set r ij.1 ij.2
                  (op (elem indeterminate a ij.1 ij.2)
                      (elem indeterminate b ij.1 ij.2))) r0 l]> h).
Proof.
  intros HA HB HR.
  assert (HAR : R ≠ A) by (intros ->; congruence).
  assert (HBR : R ≠ B) by (intros ->; congruence).
  revert r0. induction l as [|[i j] l IH]; intros r0; [done|]. simpl.
  unfold mbind at 1, prog_bind at 1. unfold mbind at 1, prog_bind at 1.
  rewrite (elem_at_run _ A a) by (by rewrite lookup_insert_ne).
  unfold mbind at 1, prog_bind at 1.
  rewrite (elem_at_run _ B b) by (by rewrite lookup_insert_ne).
  rewrite (elem_assign_run _ R r0) by (by rewrite lookup_insert_eq).
  rewrite insert_insert_eq. apply IH.
Qed.

Lemma m_dot_aborts (op : T → T → T) h A B a b :
  h !! A = Some a → h !! B = Some b → same_dimensions a b = false →
  m_dot indeterminate op A B h = Aborts.
Proof.
  intros HA HB Hdim. unfold m_dot, mbind, prog_bind, deref, lift, assert.
  rewrite HA, HB. unfold same_dimensions in Hdim. by rewrite Hdim.
Qed.

Lemma m_dot_returns (op : T → T → T) h A B a b :
  h !! A = Some a → h !! B = Some b → well_formed a →
  same_dimensions a b = true →
  ∃ R r, m_dot indeterminate op A B h = Returns (R, <[R := r]> h) ∧
    h !! R = None ∧
    rows r = rows a ∧ cols r = cols a ∧ well_formed r ∧
    ∀ i j, 0 ≤ i < rows a → 0 ≤ j < cols a →
      elem indeterminate r i j
      = op (elem indeterminate a i j) (elem indeterminate b i j).
Proof.
  intros HA HB Hwf Hdim.
  set (R := fresh (dom h)).
  assert (HR : h !! R = None) by (apply not_elem_of_dom, is_fresh).
  set (r0 := m_initialize indeterminate (rows a) (cols a)).
  destruct Hwf as (Hr & Hc & Hmax & Hlen).
  assert (Hwf0 : well_formed r0) by (by apply m_initialize_well_formed).
  destruct (for_loops_elem_set_fixed indeterminate
              (λ i j _, op (elem indeterminate a i j)
                           (elem indeterminate b i j)) r0 Hwf0)
    as (Hwf' & Hr' & Hc' & Hcells).
  rewrite (for_loop_nested (rows r0) (cols r0)
             (λ i j M, elem_set M i j (op (elem indeterminate a i j)
                                          (elem indeterminate b i j))))
    in Hwf', Hr', Hc', Hcells.
  eexists R, _. split; [|split; [done|split; [exact Hr'|split; [exact Hc'
    |split; [exact Hwf'|exact Hcells]]]]].
  unfold m_dot, mbind at 1, prog_bind at 1, deref. rewrite HA.
  unfold mbind at 1, prog_bind at 1. rewrite HB.
  unfold mbind at 1, prog_bind at 1, lift, assert.
  unfold same_dimensions in Hdim. rewrite Hdim. simpl.
  unfold mbind at 1, prog_bind at 1, m_initialize_at, malloc.
  unfold mbind at 1, prog_bind at 1.
  rewrite for_loopP_nested.
  fold R. fold r0.
  rewrite (dot_loops_run op h A B R a b r0) by done.
  done.
Qed.
(** C7, as the code has it.  Subtract, add and divide open with an
    [assert] on the two shapes: when the shapes differ the process is
    aborted, no error is reported to the caller.  When they agree,
    [m_dot_division] returns a block that was not allocated before, holding
    the quotients, and the heap is otherwise what it was: both operands are
    unchanged, also when they are one and the same matrix. *)
Theorem elementwise_binary_ops h A B a b :
  h !! A = Some a → h !! B = Some b → well_formed a →
  (same_dimensions a b = false →
     m_dot_subtract indeterminate A B h = Aborts ∧
     m_dot_add indeterminate A B h = Aborts ∧
     m_dot_division indeterminate A B h = Aborts) ∧
  (same_dimensions a b = true →
     ∃ R r,
       m_dot_division indeterminate A B h = Returns (R, <[R := r]> h) ∧
       h !! R = None ∧
       <[R := r]> h !! A = Some a ∧ <[R := r]> h !! B = Some b ∧
       rows r = rows a ∧ cols r = cols a ∧
       ∀ i j, 0 ≤ i < rows a → 0 ≤ j < cols a →
         elem indeterminate r i j
         = p_div (elem indeterminate a i j) (elem indeterminate b i j)).
Proof.
  intros HA HB Hwf. split; intros Hdim.
  - unfold m_dot_subtract, m_dot_add, m_dot_division.
    by rewrite !(m_dot_aborts _ h A B a b).
  - destruct (m_dot_returns p_div h A B a b HA HB Hwf Hdim)
      as (R & r & Hrun & HR & Hr & Hc & _ & Hcells).
    exists R, r. split; [exact Hrun|]. split; [exact HR|].
    assert (R ≠ A) by (intros ->; congruence).
    assert (R ≠ B) by (intros ->; congruence).
    rewrite !lookup_insert_ne by done. done.
Qed.
End Dot.

Lemma elementwise_binary_ops_witness :
  (m_dot_subtract stale_heap 1 2 mismatched_heap = Aborts ∧
   m_dot_add stale_heap 1 2 mismatched_heap = Aborts ∧
   m_dot_division stale_heap 1 2 mismatched_heap = Aborts) ∧
  (∃ R r,
     m_dot_division stale_heap 1 2 matched_heap
     = Returns (R, <[R := r]> matched_heap) ∧
     matched_heap !! R = None ∧
     <[R := r]> matched_heap !! 1%positive = Some (Matrix 1 1 [6]%float) ∧
     <[R := r]> matched_heap !! 2%positive = Some (Matrix 1 1 [3]%float) ∧
     rows r = 1 ∧ cols r = 1 ∧
     ∀ i j, 0 ≤ i < 1 → 0 ≤ j < 1 →
       elem stale_heap r i j
       = p_div (elem stale_heap (Matrix 1 1 [6]%float) i j)
               (elem stale_heap (Matrix 1 1 [3]%float) i j)).
Proof.
  split.
  - apply (elementwise_binary_ops stale_heap mismatched_heap 1 2
             (Matrix 1 1 [1]%float) (Matrix 1 2 [1; 2]%float)).
    + reflexivity.
    + reflexivity.
    + unfold well_formed, INT_MAX. simpl. lia.
    + reflexivity.
  - apply (elementwise_binary_ops stale_heap matched_heap 1 2
             (Matrix 1 1 [6]%float) (Matrix 1 1 [3]%float)).
    + reflexivity.
    + reflexivity.
    + unfold well_formed, INT_MAX. simpl. lia.
    + reflexivity.
Defined.

Example m_dot_division_matched :
  m_dot_division stale_heap 1 2 matched_heap
  = Returns (3%positive, <[3%positive := Matrix 1 1 [2]%float]> matched_heap).
Proof. vm_compute. reflexivity. Qed.

(** C7 as stated fails: on operands of different shapes [m_dot_add] does
    not come back to its caller with an error, the failed [assert] aborts
    the process. *)
Lemma m_dot_add_mismatch_aborts :
  m_dot_add stale_heap 1 2 mismatched_heap = Aborts ∧
  terminates_process (m_dot_add stale_heap 1 2 mismatched_heap) = true ∧
  ¬ returned (m_dot_add stale_heap 1 2 mismatched_heap).
Proof.
  assert (Hrun : m_dot_add stale_heap 1 2 mismatched_heap = Aborts)
    by (vm_compute; reflexivity).
  rewrite Hrun. split; [done|]. split; [done|]. by intros [? ?].
Qed.

(** ** Binary64 subtraction and division *)

(** The facts about [float] that the claim on [m_normalize] needs, derived
    from the algorithms of [SpecFloat] that the primitive operations are
    specified by: the order is that of the units, subtraction rounds the
    exact difference (monotonically), and the quotient of two numbers
    [0 ≤ a ≤ d], [0 < d] lies between 0 and 1. *)

(** [rne] on integers. *)
Lemma rne_bounds (t d : Z) : 0 < d → t / d ≤ rne t d ≤ t / d + 1.
Proof. intros Hd. unfold rne. destruct (_ || _); lia. Qed.

Lemma rne_exact (t d : Z) : 0 < d → t mod d = 0 → rne t d = t / d.
Proof.
  intros Hd Hr. unfold rne. rewrite Hr.
  replace (d <? 2 * 0) with false by (symmetry; apply Z.ltb_ge; lia).
  replace (d =? 2 * 0) with false by (symmetry; apply Z.eqb_neq; lia).
  done.
Qed.

Lemma rne_le (t d g : Z) : 0 < d → t ≤ d * g → rne t d ≤ g.
Proof.
  intros Hd Hle.
  destruct (decide (t / d < g)) as [Hlt|Hge].
  { pose proof (rne_bounds t d Hd). lia. }
  assert (Hq : t / d = g).
  { assert (t / d ≤ g); [|lia].
    apply Z.div_le_upper_bound; lia. }
  assert (Hr : t mod d = 0).
  { pose proof (Z.div_mod t d ltac:(lia)) as Hdm.
    pose proof (Z.mod_pos_bound t d Hd). rewrite Hq in Hdm. lia. }
  rewrite rne_exact by done. lia.
Qed.

Lemma rne_scale (t d c : Z) : 0 < d → 0 < c → rne (t * c) (d * c) = rne t d.
Proof.
  intros Hd Hc. unfold rne.
  rewrite Z.div_mul_cancel_r by lia.
  rewrite Z.mul_mod_distr_r by lia.
  replace (d * c <? 2 * (t mod d * c)) with (d <? 2 * (t mod d)).
  2:{ apply eq_true_iff_eq. rewrite !Z.ltb_lt. nia. }
  replace (d * c =? 2 * (t mod d * c)) with (d =? 2 * (t mod d)).
  2:{ apply eq_true_iff_eq. rewrite !Z.eqb_eq. nia. }
  done.
Qed.

Lemma rne_monotone (t1 t2 d : Z) : 0 < d → t1 ≤ t2 → rne t1 d ≤ rne t2 d.
Proof.
  intros Hd Hle.
  pose proof (rne_bounds t1 d Hd) as H1. pose proof (rne_bounds t2 d Hd) as H2.
  assert (Hq : t1 / d ≤ t2 / d) by (apply Z.div_le_mono; lia).
  destruct (decide (t1 / d = t2 / d)) as [Heq|Hne]; [|lia].
  pose proof (Z.div_mod t1 d ltac:(lia)) as Hdm1.
  pose proof (Z.div_mod t2 d ltac:(lia)) as Hdm2.
  assert (Hr : t1 mod d ≤ t2 mod d) by (rewrite Heq in Hdm1; lia).
  clear H1 H2. unfold rne. rewrite Heq.
  set (c1 := (d <? 2 * (t1 mod d)) || (d =? 2 * (t1 mod d)) && Z.odd (t2 / d)).
  set (c2 := (d <? 2 * (t2 mod d)) || (d =? 2 * (t2 mod d)) && Z.odd (t2 / d)).
  assert (Hc : c1 = true → c2 = true).
  { unfold c1, c2. rewrite !orb_true_iff, !andb_true_iff, !Z.ltb_lt, !Z.eqb_eq.
    intros [?|[? Hodd]]; [left; lia|].
    destruct (decide (t1 mod d = t2 mod d)) as [Hsame|?]; [|left; lia].
    right. split; [lia|done]. }
  destruct c1, c2; lia || by specialize (Hc eq_refl).
Qed.

Lemma digits_bounds (n : Z) : 0 < n → 2 ^ Z.log2 n ≤ n < 2 ^ (Z.log2 n + 1).
Proof. intros Hn. pose proof (Z.log2_spec n Hn). by rewrite <- Z.add_1_r in *. Qed.

(** Rounding to 53 bits is monotone: of two roundings at different
    scales the smaller stays below 2^(53+k1), the larger above 2^(52+k2). *)
Lemma round_units_monotone (n1 n2 : Z) :
  0 ≤ n1 → n1 ≤ n2 → round_units n1 ≤ round_units n2.
Proof.
  intros H0 Hle. unfold round_units.
  set (k1 := Z.max (Z.log2 n1 + 1 - 53) 0).
  set (k2 := Z.max (Z.log2 n2 + 1 - 53) 0).
  assert (Hlog : Z.log2 n1 ≤ Z.log2 n2) by (by apply Z.log2_le_mono).
  assert (Hk : 0 ≤ k1 ≤ k2) by lia.
  assert (Hp1 : 0 < 2 ^ k1) by (apply Z.pow_pos_nonneg; lia).
  assert (Hp2 : 0 < 2 ^ k2) by (apply Z.pow_pos_nonneg; lia).
  destruct (decide (k1 = k2)) as [Heq|Hne].
  { rewrite Heq. apply Z.mul_le_mono_nonneg_r; [lia|].
    apply rne_monotone; [lia|done]. }
  assert (Hk2 : k2 = Z.log2 n2 + 1 - 53) by lia.
  assert (Hn2 : 0 < n2).
  { destruct (decide (0 < n2)); [done|].
    assert (n2 = 0) by lia. subst n2. assert (n1 = 0) by lia. subst n1. lia. }
  (* the smaller one rounds to at most 2^(53+k1) *)
  assert (Hup : rne n1 (2 ^ k1) * 2 ^ k1 ≤ 2 ^ (53 + k1)).
  { rewrite Z.pow_add_r by lia. apply Z.mul_le_mono_nonneg_r; [lia|].
    apply rne_le; [done|].
    destruct (decide (n1 = 0)) as [->|Hn1].
    { assert (0 < 2 ^ 53) by (apply Z.pow_pos_nonneg; lia). nia. }
    pose proof (digits_bounds n1 ltac:(lia)) as [_ Hd].
    rewrite <- Z.pow_add_r by lia.
    assert (2 ^ (Z.log2 n1 + 1) ≤ 2 ^ (k1 + 53)); [|lia].
    apply Z.pow_le_mono_r; lia. }
  assert (Hlow : 2 ^ (52 + k2) ≤ rne n2 (2 ^ k2) * 2 ^ k2).
  { rewrite Z.pow_add_r by lia. apply Z.mul_le_mono_nonneg_r; [lia|].
    pose proof (rne_bounds n2 (2 ^ k2) Hp2) as [Hb _].
    assert (2 ^ 52 ≤ n2 / 2 ^ k2); [|lia].
    apply Z.div_le_lower_bound; [done|].
    rewrite <- Z.pow_add_r by lia.
    pose proof (digits_bounds n2 Hn2) as [Hd _].
    replace (k2 + 52) with (Z.log2 n2) by lia. done. }
  assert (2 ^ (53 + k1) ≤ 2 ^ (52 + k2)); [|lia].
  apply Z.pow_le_mono_r; lia.
Qed.

Lemma round_units_representable (m j : Z) :
  0 ≤ m < 2 ^ 53 → 0 ≤ j → round_units (m * 2 ^ j) = m * 2 ^ j.
Proof.
  intros Hm Hj. unfold round_units.
  set (n := m * 2 ^ j).
  set (k := Z.max (Z.log2 n + 1 - 53) 0).
  assert (Hpj : 0 < 2 ^ j) by (apply Z.pow_pos_nonneg; lia).
  assert (Hkj : 0 ≤ k ≤ j).
  { destruct (decide (m = 0)) as [->|Hm0].
    { unfold k, n. simpl. lia. }
    assert (Hn : 0 < n) by (unfold n; nia).
    assert (Z.log2 n < 53 + j); [|lia].
    apply Z.log2_lt_pow2; [done|]. rewrite Z.pow_add_r by lia. unfold n. nia. }
  assert (Hpk : 0 < 2 ^ k) by (apply Z.pow_pos_nonneg; lia).
  assert (Hn : n = m * 2 ^ (j - k) * 2 ^ k).
  { unfold n. rewrite <- Z.mul_assoc, <- Z.pow_add_r by lia. do 2 f_equal. lia. }
  rewrite rne_exact; [|done|].
  - rewrite Hn at 1. rewrite Z.div_mul by lia. lia.
  - rewrite Hn. apply Z.mod_mul. lia.
Qed.

(** One step of the right shift keeps [located], at twice the divisor. *)
Lemma shr_1_located (mrs : shr_record) (t d : Z) :
  located mrs t d → located (shr_1 mrs) t (2 * d).
Proof.
  destruct mrs as [m r s]. unfold located. simpl.
  intros (Hd & Hm & Hfloor & Hr & Hs).
  assert (Hrs : r || s = true ↔ m * d < t).
  { rewrite orb_true_iff. destruct r; simpl in *.
    - split; [intros _|by left]. assert ((2 * m + 1) * d ≤ 2 * t) by by apply Hr. nia.
    - rewrite <- Hs. split; [by intros [|]|by right]. }
  destruct m as [|[p|p|]|p]; simpl; try lia.
  - (* 0 *) split; [lia|]. split; [lia|]. split; [lia|]. split; [|done].
    split; [done|]. lia.
  - (* 2p+1 *) rewrite Pos2Z.inj_xI in *.
    split; [lia|]. split; [lia|]. split; [nia|]. split; [split; [nia|done]|].
    rewrite Hrs. nia.
  - rewrite Pos2Z.inj_xO in *.
    split; [lia|]. split; [lia|]. split; [nia|]. split; [split; [done|nia]|].
    rewrite Hrs. nia.
  - split; [lia|]. split; [lia|]. split; [nia|]. split; [split; [nia|done]|].
    rewrite Hrs. nia.
Qed.

Lemma iter_pos_nat {A : Type} (f : A → A) (p : positive) (x : A) :
  SpecFloat.iter_pos f p x = Nat.iter (Pos.to_nat p) f x.
Proof.
  revert x. induction p as [p IH|p IH|]; intros x; cbn [SpecFloat.iter_pos].
  - rewrite !IH, Pos2Nat.inj_xI, <- Nat.iter_add, <- Nat.iter_succ_r.
    f_equal. lia.
  - rewrite !IH, Pos2Nat.inj_xO, <- Nat.iter_add. f_equal. lia.
  - done.
Qed.

Lemma iter_shr_1_located (n : nat) (mrs : shr_record) (t d : Z) :
  located mrs t d → located (Nat.iter n shr_1 mrs) t (d * 2 ^ Z.of_nat n).
Proof.
  intros H. induction n as [|n IH].
  - simpl. by rewrite Z.mul_1_r.
  - rewrite Nat2Z.inj_succ, Z.pow_succ_r by lia. simpl.
    replace (d * (2 * 2 ^ Z.of_nat n)) with (2 * (d * 2 ^ Z.of_nat n)) by lia.
    by apply shr_1_located.
Qed.

Lemma located_floor (mrs : shr_record) (t d : Z) :
  located mrs t d → shr_m mrs = t / d.
Proof.
  intros (Hd & Hm & Hfloor & _).
  apply Z.div_unique with (r := t - shr_m mrs * d); lia.
Qed.

(** [round_nearest_even] on a located record is [rne]. *)
Lemma located_round (mrs : shr_record) (t d : Z) :
  located mrs t d →
  round_nearest_even (shr_m mrs) (loc_of_shr_record mrs) = rne t d.
Proof.
  intros Hloc. pose proof (located_floor _ _ _ Hloc) as Hq.
  destruct Hloc as (Hd & Hm & Hfloor & Hr & Hs).
  unfold rne. rewrite <- Hq.
  assert (Hmod : t mod d = t - shr_m mrs * d).
  { rewrite Z.mod_eq, <- Hq by lia. lia. }
  rewrite Hmod.
  destruct mrs as [m r s]. simpl in *.
  rewrite <- Z.negb_even.
  destruct r, s; simpl.
  - (* Gt *) replace (d <? 2 * (t - m * d)) with true; [done|].
    symmetry. apply Z.ltb_lt. assert ((2 * m + 1) * d < 2 * t) by by apply Hs. lia.
  - (* Eq *)
    assert ((2 * m + 1) * d ≤ 2 * t) by by apply Hr.
    assert (¬ (2 * m + 1) * d < 2 * t) by (intros ?%Hs; done).
    replace (d <? 2 * (t - m * d)) with false by (symmetry; apply Z.ltb_ge; lia).
    replace (d =? 2 * (t - m * d)) with true by (symmetry; apply Z.eqb_eq; lia).
    simpl. by destruct (Z.even m).
  - (* Lt *)
    assert (¬ (2 * m + 1) * d ≤ 2 * t) by (intros ?%Hr; done).
    replace (d <? 2 * (t - m * d)) with false by (symmetry; apply Z.ltb_ge; lia).
    replace (d =? 2 * (t - m * d)) with false by (symmetry; apply Z.eqb_neq; lia).
    done.
  - assert (¬ (2 * m + 1) * d ≤ 2 * t) by (intros ?%Hr; done).
    replace (d <? 2 * (t - m * d)) with false by (symmetry; apply Z.ltb_ge; lia).
    replace (d =? 2 * (t - m * d)) with false by (symmetry; apply Z.eqb_neq; lia).
    done.
Qed.

Lemma shr_fexp_located (m e : Z) (l : location) (t d : Z) :
  located (shr_record_of_loc m l) t d →
  let '(mrs, e') := shr_fexp prec emax m e l in
  e' = e + shift_of m e ∧ located mrs t (d * 2 ^ shift_of m e).
Proof.
  intros Hloc. unfold shr_fexp, shr, shift_of.
  destruct (fexp64 (Zdigits2 m + e) - e) as [|p|p] eqn:Hn.
  - simpl. rewrite Z.mul_1_r. split; [lia|done].
  - rewrite iter_pos_nat. split; [lia|].
    replace (Z.max (Z.pos p) 0) with (Z.of_nat (Pos.to_nat p)) by lia.
    by apply iter_shr_1_located.
  - simpl. rewrite Z.mul_1_r. split; [lia|done].
Qed.

(** [binary_round_aux], in closed form. *)
Lemma binary_round_aux_rounded (s : bool) (m e : Z) (l : location) (t d : Z) :
  located (shr_record_of_loc m l) t d →
  binary_round_aux prec emax s m e l = rounded s m e t d.
Proof.
  intros Hloc. unfold binary_round_aux, rounded.
  pose proof (shr_fexp_located m e l t d Hloc) as H1.
  destruct (shr_fexp prec emax m e l) as [mrs' e']. destruct H1 as [-> Hloc'].
  rewrite (located_round _ _ _ Hloc').
  set (mr := rne t (d * 2 ^ shift_of m e)).
  assert (Hmr : 0 ≤ mr).
  { pose proof (located_floor _ _ _ Hloc') as Hq.
    destruct Hloc' as (Hd & Hm & _). pose proof (rne_bounds t _ Hd) as [Hb _].
    fold mr in Hb. lia. }
  assert (Hexact : located (shr_record_of_loc mr loc_Exact) mr 1).
  { unfold located. simpl. split; [lia|]. split; [done|]. split; [lia|].
    split; [split; [done|lia]|]. split; [done|lia]. }
  pose proof (shr_fexp_located mr (e + shift_of m e) loc_Exact mr 1 Hexact) as H2.
  destruct (shr_fexp prec emax mr _ loc_Exact) as [mrs'' e'']. destruct H2 as [-> Hloc''].
  rewrite (located_floor _ _ _ Hloc''). by rewrite Z.mul_1_l.
Qed.

Lemma fexp64_eq (x : Z) : fexp64 x = Z.max (x - 53) (-1074).
Proof. reflexivity. Qed.

Lemma emin64_eq : emin64 = -1074.
Proof. reflexivity. Qed.

Lemma pow2_pos (k : Z) : 0 ≤ k → 0 < 2 ^ k.
Proof. intros. apply Z.pow_pos_nonneg; lia. Qed.

Lemma pow2_le (a b : Z) : 0 ≤ a ≤ b → 2 ^ a ≤ 2 ^ b.
Proof. intros. apply Z.pow_le_mono_r; lia. Qed.

Lemma pow2_lt (a b : Z) : 0 ≤ a < b → 2 ^ a < 2 ^ b.
Proof. intros. apply Z.pow_lt_mono_r; lia. Qed.

Lemma digits2_pos_size (p : positive) : digits2_pos p = Pos.size p.
Proof. induction p; simpl; congruence. Qed.

Lemma Zdigits2_log2 (z : Z) : 0 < z → Zdigits2 z = Z.log2 z + 1.
Proof.
  destruct z as [|p|p]; try lia. intros _. simpl. rewrite digits2_pos_size.
  destruct p; simpl; lia.
Qed.

Lemma Zdigits2_bounds (z : Z) :
  0 < z → 0 < Zdigits2 z ∧ 2 ^ (Zdigits2 z - 1) ≤ z < 2 ^ Zdigits2 z.
Proof.
  intros Hz. rewrite Zdigits2_log2 by done.
  pose proof (Z.log2_nonneg z). pose proof (Z.log2_spec z Hz) as Hs.
  replace (Z.log2 z + 1 - 1) with (Z.log2 z) by lia.
  rewrite <- Z.add_1_r in Hs. split; [lia|done].
Qed.

Lemma Zdigits2_le (z k : Z) : 0 ≤ z < 2 ^ k → 0 ≤ k → Zdigits2 z ≤ k.
Proof.
  intros Hz Hk. destruct (decide (z = 0)) as [->|Hz0]; [simpl; lia|].
  rewrite Zdigits2_log2 by lia.
  assert (Z.log2 z < k); [|lia]. apply Z.log2_lt_pow2; lia.
Qed.

Lemma Zdigits2_ge (z k : Z) : 2 ^ k ≤ z → 0 ≤ k → k + 1 ≤ Zdigits2 z.
Proof.
  intros Hz Hk. pose proof (pow2_pos k Hk).
  rewrite Zdigits2_log2 by lia.
  assert (k ≤ Z.log2 z); [|lia]. apply Z.log2_le_pow2; lia.
Qed.

(** What validity says of a finite binary64 number. *)
Lemma valid_finite (s : bool) (m : positive) (e : Z) :
  valid_binary (S754_finite s m e) = true →
  -1074 ≤ e ≤ 971 ∧ Z.pos m < 2 ^ 53 ∧ (e = -1074 ∨ 2 ^ 52 ≤ Z.pos m).
Proof.
  unfold SpecFloat.valid_binary, bounded, canonical_mantissa.
  rewrite andb_true_iff, Z.eqb_eq, Z.leb_le, fexp64_eq.
  change (emax - prec) with 971.
  change (Z.pos (digits2_pos m)) with (Zdigits2 (Z.pos m)).
  intros [Hc He].
  destruct (Zdigits2_bounds (Z.pos m) ltac:(lia)) as [Hd0 [Hlo Hhi]].
  split; [lia|]. split.
  - assert (2 ^ Zdigits2 (Z.pos m) ≤ 2 ^ 53); [apply pow2_le|]; lia.
  - destruct (decide (e = -1074)) as [?|Hne]; [by left|right].
    assert (Zdigits2 (Z.pos m) = 53) as Hd by lia.
    by rewrite Hd in Hlo.
Qed.

Lemma units_bound (f : spec_float) :
  valid_binary f = true → - 2 ^ 2098 < SF_units f < 2 ^ 2098.
Proof.
  assert (H0 : 0 < 2 ^ 2098) by (apply pow2_pos; lia).
  destruct f as [s|s| |s m e]; try (intros _; unfold SF_units; lia).
  intros (He & Hm & _)%valid_finite. unfold SF_units. rewrite emin64_eq.
  assert (0 < 2 ^ (e - -1074)) by (apply pow2_pos; lia).
  assert (2 ^ (e - -1074) ≤ 2 ^ 2045) by (apply pow2_le; lia).
  assert (H53 : 0 < 2 ^ 53) by (apply pow2_pos; lia).
  assert (Z.pos m * 2 ^ (e - -1074) < 2 ^ 53 * 2 ^ 2045) by nia.
  replace (2 ^ 2098) with (2 ^ 53 * 2 ^ 2045) in *
    by (rewrite <- Z.pow_add_r by lia; f_equal).
  destruct s; unfold cond_Zopp; lia.
Qed.

(** Within one sign, the exponent orders the valid numbers before the
    mantissa does. *)
Lemma units_exponent_lt (m1 m2 : positive) (e1 e2 : Z) (s1 s2 : bool) :
  valid_binary (S754_finite s1 m1 e1) = true →
  valid_binary (S754_finite s2 m2 e2) = true →
  e1 < e2 →
  Z.pos m1 * 2 ^ (e1 - emin64) < Z.pos m2 * 2 ^ (e2 - emin64).
Proof.
  intros (He1 & Hm1 & _)%valid_finite (He2 & Hm2 & Hn2)%valid_finite Hlt.
  rewrite emin64_eq.
  destruct Hn2 as [?|Hn2]; [lia|].
  assert (H1 : 0 < 2 ^ (e1 - -1074)) by (apply pow2_pos; lia).
  assert (H2 : 2 * 2 ^ (e1 - -1074) ≤ 2 ^ (e2 - -1074)).
  { rewrite <- Z.pow_succ_r by lia. apply pow2_le. lia. }
  nia.
Qed.

(** On valid finite numbers the comparison of IEEE 754 is the comparison
    of the units. *)
Lemma SFcompare_units (f1 f2 : spec_float) :
  valid_binary f1 = true → valid_binary f2 = true →
  SF_finite f1 = true → SF_finite f2 = true →
  SFcompare f1 f2 = Some (SF_units f1 ?= SF_units f2).
Proof.
  intros Hv1 Hv2 Hf1 Hf2.
  destruct f1 as [s1|s1| |s1 m1 e1], f2 as [s2|s2| |s2 m2 e2]; try done.
  - unfold SFcompare, SF_units. f_equal. symmetry.
    assert (0 < Z.pos m2 * 2 ^ (e2 - emin64)).
    { apply valid_finite in Hv2 as (? & _). rewrite emin64_eq.
      assert (0 < 2 ^ (e2 - -1074)) by (apply pow2_pos; lia). lia. }
    destruct s2; unfold cond_Zopp; [apply Z.compare_gt_iff|apply Z.compare_lt_iff]; lia.
  - unfold SFcompare, SF_units. f_equal. symmetry.
    assert (0 < Z.pos m1 * 2 ^ (e1 - emin64)).
    { apply valid_finite in Hv1 as (? & _). rewrite emin64_eq.
      assert (0 < 2 ^ (e1 - -1074)) by (apply pow2_pos; lia). lia. }
    destruct s1; unfold cond_Zopp; [apply Z.compare_lt_iff|apply Z.compare_gt_iff]; lia.
  - assert (H1 : 0 < Z.pos m1 * 2 ^ (e1 - emin64)).
    { apply valid_finite in Hv1 as (? & _). rewrite emin64_eq.
      assert (0 < 2 ^ (e1 - -1074)) by (apply pow2_pos; lia). lia. }
    assert (H2 : 0 < Z.pos m2 * 2 ^ (e2 - emin64)).
    { apply valid_finite in Hv2 as (? & _). rewrite emin64_eq.
      assert (0 < 2 ^ (e2 - -1074)) by (apply pow2_pos; lia). lia. }
    assert (Hsame :
      match e1 ?= e2 with
      | Lt => Lt | Gt => Gt | Eq => Pos.compare_cont Eq m1 m2
      end = (Z.pos m1 * 2 ^ (e1 - emin64) ?= Z.pos m2 * 2 ^ (e2 - emin64))).
    { destruct (Z.compare_spec e1 e2) as [->|Hlt|Hgt].
      - change (Pos.compare_cont Eq m1 m2) with (Z.pos m1 ?= Z.pos m2).
        assert (0 < 2 ^ (e2 - emin64)).
        { apply valid_finite in Hv2 as (? & _). rewrite emin64_eq.
          apply pow2_pos. lia. }
        symmetry.
        destruct (Z.compare_spec (Z.pos m1) (Z.pos m2)) as [Heq|?|?].
        * rewrite Heq. apply Z.compare_refl.
        * apply Z.compare_lt_iff. nia.
        * apply Z.compare_gt_iff. nia.
      - symmetry. apply Z.compare_lt_iff. by eapply units_exponent_lt.
      - symmetry. apply Z.compare_gt_iff. by eapply units_exponent_lt. }
    unfold SFcompare, SF_units. f_equal.
    destruct s1, s2; unfold cond_Zopp.
    + rewrite Z.compare_opp.
      rewrite (Z.compare_antisym (Z.pos m1 * 2 ^ (e1 - emin64))), <- Hsame.
      by destruct (e1 ?= e2).
    + symmetry. apply Z.compare_lt_iff. lia.
    + symmetry. apply Z.compare_gt_iff. lia.
    + exact Hsame.
Qed.

Lemma Pos_iter_xO (m d : positive) :
  Z.pos (Pos.iter xO m d) = Z.pos m * 2 ^ Z.pos d.
Proof.
  induction d as [|d IH] using Pos.peano_ind.
  - simpl. lia.
  - rewrite Pos.iter_succ, Pos2Z.inj_xO, IH, Pos2Z.inj_succ, Z.pow_succ_r; lia.
Qed.

Lemma shl_align_spec (mx : positive) (ex ex' : Z) :
  let '(mz, ez) := shl_align mx ex ex' in
  ez = Z.min ex ex' ∧ Z.pos mz = Z.pos mx * 2 ^ (ex - ez).
Proof.
  unfold shl_align. destruct (ex' - ex) as [|d|d] eqn:Hd.
  - rewrite Z.sub_diag. split; lia.
  - rewrite Z.sub_diag. split; lia.
  - rewrite Pos_iter_xO. split; [lia|]. do 2 f_equal. lia.
Qed.

Lemma shift_of_eq (m e : Z) :
  -1074 ≤ e → shift_of m e = Z.max (Zdigits2 m - 53) 0.
Proof. intros He. unfold shift_of. rewrite fexp64_eq. lia. Qed.

Lemma rne_one (t : Z) : rne t 1 = t.
Proof. rewrite rne_exact; [apply Z.div_1_r|lia|apply Z.mod_1_r]. Qed.

(** The second shift of [binary_round_aux]: a rounded mantissa of at most
    53 bits stays, 2^53 becomes 2^52 one exponent higher. *)
Lemma second_shift (mr e : Z) :
  0 < mr ≤ 2 ^ 53 → -1074 ≤ e →
  let n2 := shift_of mr e in
  0 ≤ n2 ∧ 0 < mr / 2 ^ n2 ∧ mr / 2 ^ n2 * 2 ^ n2 = mr ∧
  mr / 2 ^ n2 < 2 ^ 53 ∧
  (2 ^ 52 ≤ mr → 2 ^ 52 ≤ mr / 2 ^ n2).
Proof.
  intros Hmr He n2. unfold n2. rewrite shift_of_eq by done.
  destruct (decide (mr = 2 ^ 53)) as [->|Hne].
  - rewrite (Zdigits2_log2 (2 ^ 53)) by lia. rewrite Z.log2_pow2 by lia.
    change (Z.max (53 + 1 - 53) 0) with 1.
    replace (2 ^ 53 / 2 ^ 1) with (2 ^ 52) by (by vm_compute).
    split; [lia|]. split; [lia|]. split; [by vm_compute|]. lia.
  - assert (Hd : Zdigits2 mr ≤ 53) by (apply Zdigits2_le; lia).
    replace (Z.max (Zdigits2 mr - 53) 0) with 0 by lia.
    rewrite Z.pow_0_r, Z.div_1_r. lia.
Qed.

(** Rounding an exact mantissa [mz] at the exponent [ez]: the number with
    the units [round_units], or +infinity when those are beyond the
    largest number. *)
Lemma rounded_exact (mz ez : Z) :
  0 < mz → -1074 ≤ ez → (2 ^ 52 ≤ mz ∨ ez = -1074) →
  let N := mz * 2 ^ (ez + 1074) in
  let r := rounded false mz ez mz 1 in
  (r = S754_infinity false ∧ 2 ^ 2098 ≤ round_units N) ∨
  (∃ p e, r = S754_finite false p e ∧ -1074 ≤ e ∧
          Z.pos p * 2 ^ (e + 1074) = round_units N).
Proof.
  intros Hmz Hez Hcanon N r.
  destruct (Zdigits2_bounds mz Hmz) as (Hd0 & Hlo & Hhi).
  set (d := Zdigits2 mz) in *.
  set (n1 := shift_of mz ez).
  assert (Hn1 : n1 = Z.max (d - 53) 0) by (by apply shift_of_eq).
  assert (Hn1' : 0 ≤ n1 ≤ d - 1) by lia.
  set (mr := rne mz (2 ^ n1)).
  assert (Hp1 : 0 < 2 ^ n1) by (apply pow2_pos; lia).
  (* the rounded mantissa *)
  assert (Hmr_hi : mr ≤ 2 ^ 53).
  { apply rne_le; [done|]. rewrite <- Z.pow_add_r by lia.
    assert (2 ^ d ≤ 2 ^ (n1 + 53)) by (apply pow2_le; lia). lia. }
  assert (Hmr_lo : 2 ^ (d - 1 - n1) ≤ mr).
  { pose proof (rne_bounds mz (2 ^ n1) Hp1) as [Hb _]. fold mr in Hb.
    assert (2 ^ (d - 1 - n1) ≤ mz / 2 ^ n1); [|lia].
    apply Z.div_le_lower_bound; [done|].
    rewrite <- Z.pow_add_r by lia. by replace (n1 + (d - 1 - n1)) with (d - 1) by lia. }
  assert (Hmr_pos : 0 < mr).
  { assert (0 < 2 ^ (d - 1 - n1)) by (apply pow2_pos; lia). lia. }
  assert (Hbig : 2 ^ 52 ≤ mz → 2 ^ 52 ≤ mr).
  { intros Hb. assert (53 ≤ d).
    { pose proof (Zdigits2_ge mz 52 Hb ltac:(lia)). unfold d. lia. }
    by replace (d - 1 - n1) with 52 in Hmr_lo by lia. }
  (* the value *)
  assert (Hunits : round_units N = mr * 2 ^ (n1 + ez + 1074)).
  { unfold round_units.
    assert (HN : 0 < N).
    { unfold N. assert (0 < 2 ^ (ez + 1074)) by (apply pow2_pos; lia). nia. }
    assert (Hk : Z.max (Z.log2 N + 1 - 53) 0 = n1 + (ez + 1074)).
    { unfold N. rewrite Z.log2_mul_pow2 by lia.
      pose proof (Zdigits2_log2 mz Hmz) as Hd. fold d in Hd.
      destruct Hcanon as [Hb| ->].
      - assert (53 ≤ d).
        { pose proof (Zdigits2_ge mz 52 Hb ltac:(lia)). unfold d. lia. }
        lia.
      - lia. }
    rewrite Hk. rewrite (Z.pow_add_r 2 n1) by lia.
    unfold N. rewrite rne_scale by (try done; apply pow2_pos; lia).
    fold mr. rewrite <- Z.pow_add_r by lia. do 2 f_equal. lia. }
  unfold r, rounded. fold n1. rewrite Z.mul_1_l. fold mr.
  destruct (second_shift mr (ez + n1) ltac:(lia) ltac:(lia))
    as (Hn2 & Hm2 & Hm2' & Hm2'' & Hm2big).
  set (n2 := shift_of mr (ez + n1)) in *.
  destruct (mr / 2 ^ n2) as [|p|p] eqn:Hp; try lia.
  change (emax - prec) with 971.
  assert (Hval : Z.pos p * 2 ^ (ez + n1 + n2 + 1074) = round_units N).
  { rewrite Hunits, <- Hm2'.
    replace (ez + n1 + n2 + 1074) with (n2 + (n1 + ez + 1074)) by lia.
    rewrite Z.pow_add_r by lia. lia. }
  destruct (Z.leb_spec (ez + n1 + n2) 971) as [Hle|Hgt].
  - right. exists p, (ez + n1 + n2). split; [done|]. split; [lia|done].
  - left. split; [done|]. rewrite <- Hval.
    assert (Hb : 2 ^ 52 ≤ mz).
    { destruct Hcanon as [?| ->]; [done|].
      destruct (decide (2 ^ 52 ≤ mz)) as [?|Hsmall]; [done|exfalso].
      assert (d ≤ 52) by (apply Zdigits2_le; lia).
      assert (n1 = 0) by lia.
      assert (Hmr : mr = mz) by (unfold mr; replace n1 with 0; apply rne_one).
      assert (Zdigits2 mr ≤ 53) by (apply Zdigits2_le; lia).
      assert (n2 = 0) by (unfold n2; rewrite shift_of_eq by lia; lia).
      lia. }
    assert (2 ^ 52 ≤ Z.pos p) by auto.
    assert (2 ^ 2046 ≤ 2 ^ (ez + n1 + n2 + 1074)) by (apply pow2_le; lia).
    replace (2 ^ 2098) with (2 ^ 52 * 2 ^ 2046)
      by (rewrite <- Z.pow_add_r by lia; f_equal).
    assert (0 < 2 ^ 2046) by (apply pow2_pos; lia).
    nia.
Qed.

Lemma located_exact (m : Z) :
  0 ≤ m → located (shr_record_of_loc m loc_Exact) m 1.
Proof.
  intros Hm. unfold located. simpl. split; [lia|]. split; [done|].
  split; [lia|]. split; [split; [done|lia]|]. split; [done|lia].
Qed.

Lemma binary_round_units (M : positive) (ez : Z) :
  -1074 ≤ ez →
  let N := Z.pos M * 2 ^ (ez + 1074) in
  let r := binary_round prec emax false M ez in
  (r = S754_infinity false ∧ 2 ^ 2098 ≤ round_units N) ∨
  (∃ p e, r = S754_finite false p e ∧ -1074 ≤ e ∧
          Z.pos p * 2 ^ (e + 1074) = round_units N).
Proof.
  intros Hez N r. unfold r, binary_round.
  pose proof (shl_align_spec M ez (fexp64 (Z.pos (digits2_pos M) + ez))) as Hal.
  destruct (shl_align _ _ _) as [mz ez'].
  destruct Hal as [Hez' Hmz].
  rewrite (binary_round_aux_rounded false (Z.pos mz) ez' loc_Exact (Z.pos mz) 1)
    by (apply located_exact; lia).
  change (Z.pos (digits2_pos M)) with (Zdigits2 (Z.pos M)) in Hez'.
  rewrite fexp64_eq in Hez'.
  destruct (Zdigits2_bounds (Z.pos M) ltac:(lia)) as (Hd0 & Hlo & Hhi).
  set (d := Zdigits2 (Z.pos M)) in *.
  assert (HN : N = Z.pos mz * 2 ^ (ez' + 1074)).
  { unfold N. rewrite Hmz, <- Z.mul_assoc, <- Z.pow_add_r by lia.
    do 2 f_equal. lia. }
  rewrite HN. apply rounded_exact; [lia|lia|].
  destruct (decide (ez' = -1074)) as [?|Hne]; [by right|left].
  rewrite Hmz.
  assert (0 < 2 ^ (ez - ez')) by (apply pow2_pos; lia).
  assert (2 ^ 52 ≤ 2 ^ (d - 1) * 2 ^ (ez - ez')); [|nia].
  rewrite <- Z.pow_add_r by lia. apply pow2_le. lia.
Qed.

Lemma finite_units_pos (s : bool) (m : positive) (e : Z) :
  valid_binary (S754_finite s m e) = true →
  0 < Z.pos m * 2 ^ (e - emin64).
Proof.
  intros (He & _)%valid_finite. rewrite emin64_eq.
  assert (0 < 2 ^ (e - -1074)) by (apply pow2_pos; lia). lia.
Qed.

Lemma round_units_finite (s : bool) (m : positive) (e : Z) :
  valid_binary (S754_finite s m e) = true →
  round_units (Z.pos m * 2 ^ (e - emin64)) = Z.pos m * 2 ^ (e - emin64).
Proof.
  intros (He & Hm & _)%valid_finite. rewrite emin64_eq.
  apply round_units_representable; lia.
Qed.

(** Subtraction of finite numbers [f2 ≤ f1]: the difference of the units,
    rounded; or +infinity when that is beyond the largest number. *)
Lemma SFsub_units (f1 f2 : spec_float) :
  valid_binary f1 = true → valid_binary f2 = true →
  SF_finite f1 = true → SF_finite f2 = true →
  SF_units f2 ≤ SF_units f1 →
  let r := SFsub prec emax f1 f2 in
  let N := round_units (SF_units f1 - SF_units f2) in
  (r = S754_infinity false ∧ 2 ^ 2098 ≤ N) ∨
  (SF_finite r = true ∧ SF_units r = N).
Proof.
  intros Hv1 Hv2 Hf1 Hf2 Hle r N.
  destruct f1 as [s1|s1| |s1 m1 e1], f2 as [s2|s2| |s2 m2 e2]; try done.
  - right. unfold r, N. simpl. by destruct s1, s2.
  - right. unfold r, N. pose proof (finite_units_pos _ _ _ Hv2).
    pose proof (round_units_finite _ _ _ Hv2) as Hr.
    unfold SF_units in *. destruct s2; unfold cond_Zopp in *; [|lia].
    unfold SFsub. split; [done|]. unfold SF_units, cond_Zopp, negb.
    rewrite Z.sub_0_l, Z.opp_involutive. by rewrite Hr.
  - right. unfold r, N. pose proof (finite_units_pos _ _ _ Hv1).
    pose proof (round_units_finite _ _ _ Hv1) as Hr.
    unfold SF_units in *. destruct s1; unfold cond_Zopp in *; [lia|].
    unfold SFsub. split; [done|]. unfold SF_units, cond_Zopp.
    rewrite Z.sub_0_r. by rewrite Hr.
  - pose proof (valid_finite _ _ _ Hv1) as (He1 & _).
    pose proof (valid_finite _ _ _ Hv2) as (He2 & _).
    unfold r, SFsub.
    pose proof (shl_align_spec m1 e1 (Z.min e1 e2)) as Ha1.
    pose proof (shl_align_spec m2 e2 (Z.min e1 e2)) as Ha2.
    destruct (shl_align m1 e1 _) as [a1 ea1], (shl_align m2 e2 _) as [a2 ea2].
    destruct Ha1 as [Hea1 Ha1], Ha2 as [Hea2 Ha2]. cbn [fst].
    assert (ea1 = Z.min e1 e2) as -> by lia.
    assert (ea2 = Z.min e1 e2) as -> by lia.
    assert (Hez : -1074 ≤ Z.min e1 e2 ∧ Z.min e1 e2 ≤ e1 ∧ Z.min e1 e2 ≤ e2) by lia.
    clear Hea1 Hea2.
    set (ez := Z.min e1 e2) in *.
    set (M := cond_Zopp s1 (Z.pos a1) - cond_Zopp s2 (Z.pos a2)).
    assert (Hpz : 0 < 2 ^ (ez + 1074)) by (apply pow2_pos; lia).
    assert (HM : M * 2 ^ (ez + 1074)
                 = SF_units (S754_finite s1 m1 e1) - SF_units (S754_finite s2 m2 e2)).
    { unfold M, SF_units. rewrite emin64_eq, Ha1, Ha2.
      replace (e1 - -1074) with ((e1 - ez) + (ez + 1074)) by lia.
      replace (e2 - -1074) with ((e2 - ez) + (ez + 1074)) by lia.
      rewrite (Z.pow_add_r 2 (e1 - ez)), (Z.pow_add_r 2 (e2 - ez)) by lia.
      destruct s1, s2; unfold cond_Zopp; lia. }
    unfold N. rewrite <- HM.
    assert (HM0 : 0 ≤ M) by nia.
    destruct M as [|p|p]; [| |lia].
    + right. by simpl.
    + unfold binary_normalize.
      destruct (binary_round_units p ez ltac:(lia)) as [[Hr HN]|(q & e & Hr & He & HN)].
      * left. by split.
      * right. rewrite Hr. split; [done|]. unfold SF_units, cond_Zopp.
        rewrite emin64_eq. by replace (e - -1074) with (e + 1074) by lia.
Qed.

Lemma new_location_located (q r d t : Z) :
  0 < d → 0 ≤ q → t = d * q + r → 0 ≤ r < d →
  located (shr_record_of_loc q (new_location d r)) t d.
Proof.
  intros Hd Hq -> Hr. unfold new_location.
  destruct (Z.even d) eqn:Heven;
    unfold new_location_even, new_location_odd;
    (destruct (Z.eqb_spec r 0) as [->|Hr0]; [located_arith|]).
  - destruct (Z.compare_spec (2 * r) d) as [Heq|Hlt|Hgt]; located_arith.
  - assert (Hodd : 2 * r ≠ d).
    { intros <-. rewrite Z.even_mul in Heven. done. }
    destruct (Z.compare_spec (2 * r + 1) d) as [Heq|Hlt|Hgt]; located_arith.
Qed.

Lemma pow2_lt_inv (a b : Z) : 0 ≤ a → 0 ≤ b → 2 ^ a < 2 ^ b → a < b.
Proof.
  intros Ha Hb Hlt. destruct (decide (a < b)) as [?|Hge]; [done|].
  assert (2 ^ b ≤ 2 ^ a) by (apply pow2_le; lia). lia.
Qed.

(** The quotient of two positive numbers [f1 ≤ f2] is a number in [0,1]. *)
Lemma SFdiv_le_one (m1 m2 : positive) (e1 e2 : Z) :
  valid_binary (S754_finite false m1 e1) = true →
  valid_binary (S754_finite false m2 e2) = true →
  SF_units (S754_finite false m1 e1) ≤ SF_units (S754_finite false m2 e2) →
  let r := SFdiv prec emax (S754_finite false m1 e1) (S754_finite false m2 e2) in
  SF_finite r = true ∧ 0 ≤ SF_units r ≤ 2 ^ 1074.
Proof.
  intros Hv1 Hv2 Hle r.
  pose proof (valid_finite _ _ _ Hv1) as (He1 & Hm1 & _).
  pose proof (valid_finite _ _ _ Hv2) as (He2 & Hm2 & _).
  unfold SF_units, cond_Zopp in Hle. rewrite emin64_eq in Hle.
  replace (e1 - -1074) with (e1 + 1074) in Hle by lia.
  replace (e2 - -1074) with (e2 + 1074) in Hle by lia.
  assert (Hp1 : 0 < 2 ^ (e1 + 1074)) by (apply pow2_pos; lia).
  assert (Hp2 : 0 < 2 ^ (e2 + 1074)) by (apply pow2_pos; lia).
  unfold r, SFdiv, SFdiv_core_binary.
  destruct (Zdigits2_bounds (Z.pos m1) ltac:(lia)) as (Hd1 & Hlo1 & Hhi1).
  destruct (Zdigits2_bounds (Z.pos m2) ltac:(lia)) as (Hd2 & Hlo2 & Hhi2).
  set (d1 := Zdigits2 (Z.pos m1)) in *. set (d2 := Zdigits2 (Z.pos m2)) in *.
  rewrite fexp64_eq.
  (* the magnitudes *)
  assert (Hmag : d1 + e1 ≤ d2 + e2).
  { assert (2 ^ (d1 - 1 + (e1 + 1074)) < 2 ^ (d2 + (e2 + 1074))).
    { rewrite (Z.pow_add_r 2 (d1 - 1)), (Z.pow_add_r 2 d2) by lia. nia. }
    apply pow2_lt_inv in H; lia. }
  set (e' := Z.min (Z.max (d1 + e1 - (d2 + e2) - 53) (-1074)) (e1 - e2)).
  assert (He' : e' ≤ -53 ∧ e' ≤ e1 - e2) by lia.
  set (s := e1 - e2 - e').
  set (m' := match s with Z.pos _ => Z.shiftl (Z.pos m1) s | 0 => Z.pos m1
             | Z.neg _ => 0 end).
  assert (Hm' : m' = Z.pos m1 * 2 ^ s).
  { unfold m'. assert (0 ≤ s) by (unfold s; lia).
    destruct s as [|p|p] eqn:Hs; [lia| |lia].
    by rewrite Z.shiftl_mul_pow2 by lia. }
  assert (Hs0 : 0 ≤ s) by (unfold s; lia).
  assert (Hps : 0 < 2 ^ s) by (by apply pow2_pos).
  assert (Hpe : 0 < 2 ^ (- e')) by (apply pow2_pos; lia).
  (* the quotient is at most 2^-e' *)
  assert (Hquot : m' ≤ Z.pos m2 * 2 ^ (- e')).
  { assert (m' * 2 ^ (e2 + 1074) ≤ Z.pos m2 * 2 ^ (- e') * 2 ^ (e2 + 1074)); [|nia].
    rewrite Hm', <- Z.mul_assoc, <- Z.pow_add_r by lia.
    replace (s + (e2 + 1074)) with ((e1 + 1074) + - e') by (unfold s; lia).
    rewrite Z.pow_add_r by lia. nia. }
  pose proof (Z_div_mod m' (Z.pos m2) ltac:(lia)) as Hdm.
  unfold Z.div, Z.modulo in *.
  destruct (Z.div_eucl m' (Z.pos m2)) as [q rm]. destruct Hdm as [Hdm Hrm].
  assert (Hq : 0 ≤ q ≤ 2 ^ (- e')) by nia.
  rewrite (binary_round_aux_rounded _ q e' _ m' (Z.pos m2))
    by (apply new_location_located; lia).
  unfold rounded.
  set (n1 := shift_of q e').
  assert (Hn1 : 0 ≤ n1) by (unfold n1, shift_of; lia).
  assert (Hdq : Zdigits2 q ≤ - e' + 1).
  { apply Zdigits2_le; [|lia]. rewrite Z.pow_add_r, Z.pow_1_r by lia. lia. }
  assert (He1' : -1074 ≤ e' + n1 ≤ -52).
  { unfold n1, shift_of. rewrite fexp64_eq. lia. }
  assert (Hpn1 : 0 < 2 ^ n1) by (by apply pow2_pos).
  set (mr := rne m' (Z.pos m2 * 2 ^ n1)).
  assert (Hmr : 0 ≤ mr ≤ 2 ^ (- (e' + n1))).
  { split.
    - pose proof (rne_bounds m' (Z.pos m2 * 2 ^ n1) ltac:(lia)) as [Hb _].
      fold mr in Hb. assert (0 ≤ m' / (Z.pos m2 * 2 ^ n1)); [|lia].
      apply Z.div_pos; lia.
    - apply rne_le; [lia|].
      rewrite <- Z.mul_assoc, <- Z.pow_add_r by lia.
      by replace (n1 + - (e' + n1)) with (- e') by lia. }
  set (n2 := shift_of mr (e' + n1)).
  assert (Hn2 : 0 ≤ n2) by (unfold n2, shift_of; lia).
  assert (Hdmr : Zdigits2 mr ≤ - (e' + n1) + 1).
  { apply Zdigits2_le; [|lia]. rewrite Z.pow_add_r, Z.pow_1_r by lia.
    assert (0 < 2 ^ (- (e' + n1))) by (apply pow2_pos; lia). lia. }
  assert (He2' : -1074 ≤ e' + n1 + n2 ≤ -52).
  { unfold n2, shift_of. rewrite fexp64_eq. lia. }
  assert (Hpn2 : 0 < 2 ^ n2) by (by apply pow2_pos).
  assert (Hm2' : 0 ≤ mr / 2 ^ n2 ≤ 2 ^ (- (e' + n1 + n2))).
  { split; [apply Z.div_pos; lia|].
    apply Z.div_le_upper_bound; [done|].
    rewrite <- Z.pow_add_r by lia.
    replace (n2 + - (e' + n1 + n2)) with (- (e' + n1)) by lia. lia. }
  destruct (mr / 2 ^ n2) as [|p|p]; [| |lia].
  - split; [done|]. simpl. assert (0 < 2 ^ 1074) by (by apply pow2_pos). lia.
  - change (emax - prec) with 971.
    replace (e' + n1 + n2 <=? 971) with true by (symmetry; apply Z.leb_le; lia).
    split; [done|]. unfold xorb, SF_units, cond_Zopp. rewrite emin64_eq.
    assert (0 < 2 ^ (e' + n1 + n2 - -1074)) by (apply pow2_pos; lia).
    split; [lia|].
    replace (2 ^ 1074)
      with (2 ^ (- (e' + n1 + n2)) * 2 ^ (e' + n1 + n2 - -1074)).
    2:{ rewrite <- Z.pow_add_r by lia. f_equal. lia. }
    nia.
Qed.

Lemma SFdiv_zero (s : bool) (m2 : positive) (e2 : Z) :
  SFdiv prec emax (S754_zero s) (S754_finite false m2 e2) = S754_zero s.
Proof. by destruct s. Qed.

Lemma SFdiv_self (m : positive) (e : Z) :
  SFdiv prec emax (S754_finite false m e) (S754_finite false m e)
  = S754_finite false 4503599627370496 (-52).
Proof.
  unfold SFdiv, SFdiv_core_binary.
  replace (Zdigits2 (Z.pos m) + e - (Zdigits2 (Z.pos m) + e)) with 0 by lia.
  rewrite Z.sub_diag. change (Z.min (fexp64 0) 0) with (-53).
  change (0 - -53) with 53. cbv iota.
  rewrite Z.shiftl_mul_pow2 by lia.
  assert (Hq : Z.pos m * 2 ^ 53 / Z.pos m = 2 ^ 53).
  { rewrite Z.mul_comm. apply Z.div_mul. lia. }
  assert (Hrm : (Z.pos m * 2 ^ 53) mod Z.pos m = 0).
  { rewrite Z.mul_comm. apply Z.mod_mul. lia. }
  unfold Z.div, Z.modulo in Hq, Hrm.
  destruct (Z.div_eucl (Z.pos m * 2 ^ 53) (Z.pos m)) as [q rm].
  subst q rm.
  rewrite (binary_round_aux_rounded _ _ _ _ (Z.pos m * 2 ^ 53) (Z.pos m))
    by (apply new_location_located; lia).
  unfold rounded.
  change (shift_of (2 ^ 53) (-53)) with 1.
  replace (rne (Z.pos m * 2 ^ 53) (Z.pos m * 2 ^ 1))
    with (rne (2 ^ 52 * (Z.pos m * 2)) (1 * (Z.pos m * 2))).
  2:{ change (2 ^ 53) with (2 ^ 52 * 2). f_equal; lia. }
  rewrite rne_scale by lia. rewrite rne_one. reflexivity.
Qed.

Lemma SFcompare_key (f1 f2 : spec_float) :
  valid_binary f1 = true → valid_binary f2 = true →
  SF_number f1 = true → SF_number f2 = true →
  SFcompare f1 f2 = Some (SF_key f1 ?= SF_key f2).
Proof.
  intros Hv1 Hv2 Hn1 Hn2.
  pose proof (units_bound f1 Hv1) as Hb1. pose proof (units_bound f2 Hv2) as Hb2.
  assert (H0 : 0 < 2 ^ 2098) by (apply pow2_pos; lia).
  destruct (SF_finite f1) eqn:Hf1, (SF_finite f2) eqn:Hf2.
  - rewrite SFcompare_units by done.
    by destruct f1, f2.
  - destruct f2 as [| s2 | |]; try done.
    destruct f1 as [s1| | |s1 m1 e1]; try done; unfold SFcompare, SF_key;
      f_equal; symmetry;
      (destruct s2; unfold cond_Zopp;
       [apply Z.compare_gt_iff|apply Z.compare_lt_iff]; lia).
  - destruct f1 as [| s1 | |]; try done.
    destruct f2 as [s2| | |s2 m2 e2]; try done; unfold SFcompare, SF_key;
      f_equal; symmetry;
      (destruct s1; unfold cond_Zopp;
       [apply Z.compare_lt_iff|apply Z.compare_gt_iff]; lia).
  - destruct f1 as [| s1 | |], f2 as [| s2 | |]; try done.
    unfold SFcompare, SF_key. f_equal. symmetry.
    destruct s1, s2; unfold cond_Zopp;
      [apply Z.compare_refl|apply Z.compare_lt_iff; lia
      |apply Z.compare_gt_iff; lia|apply Z.compare_refl].
Qed.

Lemma SFcompare_nan (f1 f2 : spec_float) :
  (SF_number f1 && SF_number f2) = false → SFcompare f1 f2 = None.
Proof. by destruct f1, f2. Qed.

Lemma is_nan_number (x : float) : is_nan x = negb (SF_number (Prim2SF x)).
Proof.
  unfold is_nan. rewrite FloatAxioms.eqb_spec. unfold SFeqb.
  destruct (SF_number (Prim2SF x)) eqn:Hn.
  - rewrite SFcompare_key by (done || apply Prim2SF_valid).
    by rewrite Z.compare_refl.
  - rewrite SFcompare_nan; [done|]. by rewrite Hn.
Qed.

Lemma ltb_key (x y : float) :
  is_nan x = false → is_nan y = false →
  (x <? y)%float = (F_key x <? F_key y).
Proof.
  rewrite !is_nan_number, !negb_false_iff. intros Hx Hy.
  rewrite FloatAxioms.ltb_spec. unfold SFltb.
  rewrite SFcompare_key by (done || apply Prim2SF_valid).
  unfold Z.ltb, F_key. by destruct (_ ?= _).
Qed.

Lemma leb_key (x y : float) :
  is_nan x = false → is_nan y = false →
  (x <=? y)%float = (F_key x <=? F_key y).
Proof.
  rewrite !is_nan_number, !negb_false_iff. intros Hx Hy.
  rewrite FloatAxioms.leb_spec. unfold SFleb.
  rewrite SFcompare_key by (done || apply Prim2SF_valid).
  unfold Z.leb, F_key. by destruct (_ ?= _).
Qed.

Lemma eqb_key (x y : float) :
  is_nan x = false → is_nan y = false →
  (x =? y)%float = (F_key x =? F_key y).
Proof.
  rewrite !is_nan_number, !negb_false_iff. intros Hx Hy.
  rewrite FloatAxioms.eqb_spec. unfold SFeqb.
  rewrite SFcompare_key by (done || apply Prim2SF_valid).
  unfold F_key. rewrite Z.eqb_compare. by destruct (_ ?= _).
Qed.


Lemma is_finite_SF (x : float) : is_finite x = SF_finite (Prim2SF x).
Proof.
  unfold is_finite, is_infinity. rewrite is_nan_number, FloatAxioms.eqb_spec, abs_spec.
  change (Prim2SF infinity) with (S754_infinity false).
  by destruct (Prim2SF x) as [s|[|]| |s m e].
Qed.

Lemma finite_key (x : float) :
  is_finite x = true → is_nan x = false ∧ F_key x = F_units x.
Proof.
  rewrite is_finite_SF, is_nan_number. unfold F_key, F_units.
  by destruct (Prim2SF x).
Qed.

Lemma round_units_nonneg (n : Z) : 0 ≤ n → 0 ≤ round_units n.
Proof.
  intros Hn. change 0 with (round_units 0) at 1.
  by apply round_units_monotone.
Qed.

Lemma round_units_pos (n : Z) : 0 < n → 0 < round_units n.
Proof.
  intros Hn. assert (round_units 1 ≤ round_units n)
    by (apply round_units_monotone; lia).
  change (round_units 1) with 1 in *. lia.
Qed.

(** [x - y] for finite [y ≤ x]. *)
Lemma sub_units (x y : float) :
  is_finite x = true → is_finite y = true → F_units y ≤ F_units x →
  let N := round_units (F_units x - F_units y) in
  (is_finite (x - y) = false ∧ 2 ^ 2098 ≤ N) ∨
  (is_finite (x - y) = true ∧ F_units (x - y) = N).
Proof.
  rewrite !is_finite_SF. unfold F_units. rewrite sub_spec. unfold SF64sub.
  intros Hx Hy Hle.
  destruct (SFsub_units (Prim2SF x) (Prim2SF y)) as [[-> HN]|[Hf HN]];
    try done; try apply Prim2SF_valid.
  - by left.
  - by right.
Qed.

Lemma units_inj (f1 f2 : spec_float) :
  valid_binary f1 = true → valid_binary f2 = true →
  SF_finite f1 = true → SF_finite f2 = true →
  0 < SF_units f1 → SF_units f1 = SF_units f2 → f1 = f2.
Proof.
  intros Hv1 Hv2 Hf1 Hf2 Hpos Heq.
  pose proof (SFcompare_units f1 f2 Hv1 Hv2 Hf1 Hf2) as Hc.
  rewrite Heq, Z.compare_refl in Hc.
  destruct f1 as [s1|s1| |s1 m1 e1], f2 as [s2|s2| |s2 m2 e2]; try done;
    try (unfold SF_units in Heq, Hpos; lia).
  - pose proof (finite_units_pos _ _ _ Hv1). pose proof (finite_units_pos _ _ _ Hv2).
    unfold SF_units in Heq, Hpos.
    destruct s1, s2; unfold cond_Zopp in *; try lia.
    unfold SFcompare in Hc.
    destruct (Z.compare_spec e1 e2) as [->|?|?]; try done.
    injection Hc as Hc. apply Pos.compare_eq in Hc. by subst.
Qed.

(** [a / d] for finite [0 ≤ a ≤ d], [0 < d]. *)
Lemma div_units (a d : float) :
  is_finite a = true → is_finite d = true →
  0 ≤ F_units a ≤ F_units d → 0 < F_units d →
  is_finite (a / d) = true ∧
  0 ≤ F_units (a / d) ≤ 2 ^ 1074 ∧
  (F_units a = 0 → F_units (a / d) = 0) ∧
  (F_units a = F_units d → F_units (a / d) = 2 ^ 1074).
Proof.
  rewrite !is_finite_SF. unfold F_units. rewrite div_spec. unfold SF64div.
  pose proof (Prim2SF_valid a) as Hva. pose proof (Prim2SF_valid d) as Hvd.
  intros Hfa Hfd Hle Hpos.
  assert (H1074 : 0 < 2 ^ 1074) by (apply pow2_pos; lia).
  destruct (Prim2SF d) as [sd|sd| |sd md ed] eqn:Hd; try done.
  destruct sd.
  { pose proof (finite_units_pos _ _ _ Hvd). simpl in Hpos. lia. }
  destruct (Prim2SF a) as [sa|sa| |sa ma ea] eqn:Ha; try done.
  - rewrite SFdiv_zero. simpl. split; [done|]. split; [lia|]. split; [done|].
    simpl in Hpos. lia.
  - destruct sa.
    { pose proof (finite_units_pos _ _ _ Hva). simpl in Hle. lia. }
    destruct (SFdiv_le_one ma md ea ed Hva Hvd ltac:(lia)) as [Hf Hb].
    split; [done|]. split; [done|]. split.
    + pose proof (finite_units_pos _ _ _ Hva). simpl. simpl in H. lia.
    + intros Heq.
      rewrite (units_inj _ _ Hva Hvd eq_refl eq_refl ltac:(lia) Heq).
      rewrite SFdiv_self. reflexivity.
Qed.

(** The quotient that [m_normalize] forms for an element [x] between a
    smallest element [mn] and a largest element [mx]. *)
Lemma normalized_units (x mn mx : float) :
  is_finite x = true → is_finite mn = true → is_finite mx = true →
  F_units mn ≤ F_units x ≤ F_units mx → F_units mn < F_units mx →
  is_finite (mx - mn) = true →
  let y := ((x - mn) / (mx - mn))%float in
  is_finite y = true ∧ 0 ≤ F_units y ≤ 2 ^ 1074 ∧
  (F_units x = F_units mn → F_units y = 0) ∧
  (F_units x = F_units mx → F_units y = 2 ^ 1074).
Proof.
  intros Hx Hmn Hmx [Hlo Hhi] Hlt Hd y.
  destruct (sub_units mx mn Hmx Hmn ltac:(lia)) as [[Hinf _]|[_ Hud]];
    [congruence|].
  assert (Hdb : F_units (mx - mn) < 2 ^ 2098).
  { unfold F_units. apply units_bound, Prim2SF_valid. }
  assert (Hmono : round_units (F_units x - F_units mn)
                  ≤ round_units (F_units mx - F_units mn))
    by (apply round_units_monotone; lia).
  destruct (sub_units x mn Hx Hmn Hlo) as [[_ Hbig]|[Ha Hua]]; [lia|].
  assert (Hdpos : 0 < F_units (mx - mn)).
  { rewrite Hud. apply round_units_pos. lia. }
  assert (Hapos : 0 ≤ F_units (x - mn)).
  { rewrite Hua. apply round_units_nonneg. lia. }
  destruct (div_units (x - mn) (mx - mn) Ha Hd ltac:(lia) Hdpos)
    as (Hfy & Hby & Hzero & Hone).
  split; [done|]. split; [done|]. split.
  - intros Heq. apply Hzero. rewrite Hua, Heq, Z.sub_diag. reflexivity.
  - intros Heq. apply Hone. by rewrite Hua, Hud, Heq.
Qed.

(** ** Min-max normalization *)

Section Normalize.
Context (indeterminate : Z → Q).

Local Open Scope Q_scope.

Lemma Q_lt_true (a b : Q) : p_lt a b = true ↔ a < b.
Proof.
  simpl. rewrite negb_true_iff. split.
  - intros Hb. apply Qnot_le_lt. intros Hle%Qle_bool_iff. congruence.
  - intros Hlt. apply not_true_is_false. intros Hle%Qle_bool_iff.
    by apply Qlt_not_le in Hlt.
Qed.

Lemma Q_lt_false (a b : Q) : p_lt a b = false ↔ b <= a.
Proof.
  simpl. rewrite negb_false_iff. apply Qle_bool_iff.
Qed.

(** The first pass of [m_normalize] over the values [vs], from [v0]. *)
Lemma min_max_scan (v0 : Q) (vs : list Q) :
  let st := foldl (λ (st : Q * Q) val,
                     let '(min, max) := st in
                     (if p_lt val min then val else min,
                      if p_lt max val then val else max)) (v0, v0) vs in
  (st.1 ∈ v0 :: vs ∧ st.2 ∈ v0 :: vs) ∧
  ∀ x, x ∈ v0 :: vs → st.1 <= x ∧ x <= st.2.
Proof.
  induction vs as [|v vs IH] using rev_ind.
  { simpl. split; [split; by left|]. intros x Hx.
    apply list_elem_of_singleton in Hx as ->. split; apply Qle_refl. }
  cbv zeta in *. rewrite foldl_snoc.
  destruct (foldl _ (v0, v0) vs) as [mn mx]. simpl in *.
  destruct IH as ([Hmn Hmx] & Hle).
  assert (Hsub : ∀ y, y ∈ v0 :: vs → y ∈ v0 :: vs ++ [v]).
  { intros y Hy. rewrite app_comm_cons. apply elem_of_app. by left. }
  assert (Hv : v ∈ v0 :: vs ++ [v]).
  { rewrite app_comm_cons. apply elem_of_app. right. by left. }
  destruct (Hle v0) as [Hmn0 Hmx0]; [by left|].
  split.
  - split.
    + destruct (negb (Qle_bool mn v)); [done|by apply Hsub].
    + destruct (negb (Qle_bool v mx)); [done|by apply Hsub].
  - intros x Hx. rewrite app_comm_cons in Hx.
    apply elem_of_app in Hx as [Hx|Hx].
    + destruct (Hle x Hx) as [H1 H2]. split.
      * destruct (negb (Qle_bool mn v)) eqn:Hc; [|done].
        apply (Q_lt_true v mn) in Hc. lra.
      * destruct (negb (Qle_bool v mx)) eqn:Hc; [|done].
        apply (Q_lt_true mx v) in Hc. lra.
    + apply list_elem_of_singleton in Hx as ->. split.
      * destruct (negb (Qle_bool mn v)) eqn:Hc; [apply Qle_refl|].
        by apply (Q_lt_false v mn) in Hc.
      * destruct (negb (Qle_bool v mx)) eqn:Hc; [apply Qle_refl|].
        by apply (Q_lt_false mx v) in Hc.
Qed.

Lemma normalized_value (x mn mx : Q) :
  mn <= x → x <= mx → mn < mx →
  let y := p_div (p_sub x mn) (p_sub mx mn) in
  (0 <= y ∧ y <= 1) ∧ (x == mn → y == 0) ∧ (x == mx → y == 1).
Proof.
  intros H1 H2 H3 y.
  assert (Hy : y == (x - mn) / (mx - mn)).
  { unfold y. simpl. by rewrite !Qred_correct. }
  assert (Hpos : 0 < mx - mn) by lra.
  split; [split|split].
  - rewrite Hy. apply Qle_shift_div_l; [done|]. lra.
  - rewrite Hy. apply Qle_shift_div_r; [done|]. lra.
  - intros Hx. rewrite Hy. assert (Hz : x - mn == 0) by lra. rewrite Hz.
    unfold Qdiv. ring.
  - intros Hx. rewrite Hy. assert (Hz : x - mn == mx - mn) by lra. rewrite Hz.
    unfold Qdiv. apply Qmult_inv_r. lra.
Qed.
Lemma m_normalize_passes (M : matrix_t Q) :
  m_normalize indeterminate M
  = let st := foldl (λ (st : Q * Q) val,
                       let '(min, max) := st in
                       (if p_lt val min then val else min,
                        if p_lt max val then val else max))
                    (elem indeterminate M 0 0, elem indeterminate M 0 0)
                    ((λ ij : Z * Z, elem indeterminate M ij.1 ij.2)
                       <$> row_major (rows M) (cols M)) in
    for_loop 0 (rows M) (λ i M,
      for_loop 0 (cols M) (λ j M,
        elem_set M i j
          (p_div (p_sub (elem indeterminate M i j) st.1)
                 (p_sub st.2 st.1))) M) M.
Proof.
  unfold m_normalize.
  rewrite (for_loop_nested (rows M) (cols M)
             (λ i j '(min, max),
                let val := elem indeterminate M i j in
                let min := if p_lt val min then val else min in
                let max := if p_lt max val then val else max in
                (min, max))).
  rewrite foldl_fmap. cbv zeta.
  match goal with |- (let '(_, _) := ?s in _) = ?rhs =>
    match rhs with context [foldl ?f ?x ?l] =>
      change (foldl f x l) with s end;
    generalize s end.
  by intros [mn mx].
Qed.

(** In exact arithmetic: [m_normalize] overwrites the cells of its
    receiver, whose shape stays; when the elements are not all equal every
    element ends up in [0,1], a smallest element at 0 and a largest
    at 1. *)
Lemma m_normalize_range_exact (M : matrix_t Q) :
  well_formed M →
  (∃ i j i' j',
     (0 ≤ i < rows M)%Z ∧ (0 ≤ j < cols M)%Z ∧
     (0 ≤ i' < rows M)%Z ∧ (0 ≤ j' < cols M)%Z ∧
     elem indeterminate M i j < elem indeterminate M i' j') →
  let M' := m_normalize indeterminate M in
  well_formed M' ∧ rows M' = rows M ∧ cols M' = cols M ∧
  ∀ i j, (0 ≤ i < rows M)%Z → (0 ≤ j < cols M)%Z →
    (0 <= elem indeterminate M' i j ∧ elem indeterminate M' i j <= 1) ∧
    ((∀ i' j', (0 ≤ i' < rows M)%Z → (0 ≤ j' < cols M)%Z →
        elem indeterminate M i j <= elem indeterminate M i' j') →
     elem indeterminate M' i j == 0) ∧
    ((∀ i' j', (0 ≤ i' < rows M)%Z → (0 ≤ j' < cols M)%Z →
        elem indeterminate M i' j' <= elem indeterminate M i j) →
     elem indeterminate M' i j == 1).
Proof.
  intros Hwf (i1 & j1 & i2 & j2 & Hi1 & Hj1 & Hi2 & Hj2 & Hlt) M'.
  unfold M'. rewrite m_normalize_passes.
  set (vals := (λ ij : Z * Z, elem indeterminate M ij.1 ij.2)
                 <$> row_major (rows M) (cols M)).
  assert (Hval : ∀ x, x ∈ elem indeterminate M 0 0 :: vals ↔
            ∃ i j, (0 ≤ i < rows M)%Z ∧ (0 ≤ j < cols M)%Z ∧
                   x = elem indeterminate M i j).
  { intros x. split.
    - intros [->|Hx]%elem_of_cons.
      + exists 0%Z, 0%Z. split; [lia|]. split; [lia|done].
      + apply list_elem_of_fmap in Hx as ([i j] & -> & Hij).
        apply elem_of_row_major in Hij as [Hi Hj]. exists i, j. auto.
    - intros (i & j & Hi & Hj & ->). right.
      apply list_elem_of_fmap. exists (i, j). split; [done|].
      by apply elem_of_row_major. }
  pose proof (min_max_scan (elem indeterminate M 0 0) vals) as Hscan.
  cbv zeta in Hscan |- *.
  destruct (foldl _ _ vals) as [mn mx]. cbn [fst snd] in Hscan |- *.
  destruct Hscan as ([Hmn Hmx] & Hbounds).
  assert (Hcell : ∀ i j, (0 ≤ i < rows M)%Z → (0 ≤ j < cols M)%Z →
            mn <= elem indeterminate M i j ∧ elem indeterminate M i j <= mx).
  { intros i j Hi Hj. apply Hbounds, Hval. exists i, j. auto. }
  assert (Hrange : mn < mx).
  { destruct (Hcell i1 j1 Hi1 Hj1), (Hcell i2 j2 Hi2 Hj2). lra. }
  destruct (for_loops_elem_set indeterminate
              (λ _ _ x, p_div (p_sub x mn) (p_sub mx mn)) M Hwf)
    as (Hwf' & Hr & Hc & Hcells).
  do 3 (split; [done|]). intros i j Hi Hj.
  rewrite Hcells by done.
  destruct (Hcell i j Hi Hj) as [Hlo Hhi].
  destruct (normalized_value (elem indeterminate M i j) mn mx Hlo Hhi Hrange)
    as (Hin & Hzero & Hone).
  split; [exact Hin|]. split.
  - intros Hleast. apply Hzero.
    apply Hval in Hmn as (i' & j' & Hi' & Hj' & ->).
    apply Qle_antisym; [by apply Hleast|exact Hlo].
  - intros Hmost. apply Hone.
    apply Hval in Hmx as (i' & j' & Hi' & Hj' & ->).
    apply Qle_antisym; [exact Hhi|by apply Hmost].
Qed.
End Normalize.

Example m_normalize_sample :
  m_normalize stale_heap_Q sample_2x2_Q = Matrix 2 2 [1; 0; 1 # 2; 1 # 4]%Q.
Proof. vm_compute. reflexivity. Qed.

(** *** In binary64 *)

Section NormalizePasses.
Context {T : Type} {PR : Precision T} (indeterminate : Z → T).

Lemma m_normalize_two_passes (M : matrix_t T) :
  m_normalize indeterminate M
  = let st := foldl (λ (st : T * T) val,
                       let '(min, max) := st in
                       (if p_lt val min then val else min,
                        if p_lt max val then val else max))
                    (elem indeterminate M 0 0, elem indeterminate M 0 0)
                    ((λ ij : Z * Z, elem indeterminate M ij.1 ij.2)
                       <$> row_major (rows M) (cols M)) in
    for_loop 0 (rows M) (λ i M,
      for_loop 0 (cols M) (λ j M,
        elem_set M i j
          (p_div (p_sub (elem indeterminate M i j) st.1)
                 (p_sub st.2 st.1))) M) M.
Proof.
  unfold m_normalize.
  rewrite (for_loop_nested (rows M) (cols M)
             (λ i j '(min, max),
                let val := elem indeterminate M i j in
                let min := if p_lt val min then val else min in
                let max := if p_lt max val then val else max in
                (min, max))).
  rewrite foldl_fmap. cbv zeta.
  match goal with |- (let '(_, _) := ?s in _) = ?rhs =>
    match rhs with context [foldl ?f ?x ?l] =>
      change (foldl f x l) with s end;
    generalize s end.
  by intros [mn mx].
Qed.
End NormalizePasses.

Section NormalizeBinary64.
Context (indeterminate : Z → float).

Lemma ltb_units (x y : float) :
  is_finite x = true → is_finite y = true →
  (x <? y)%float = (F_units x <? F_units y).
Proof.
  intros [Hx Hkx]%finite_key [Hy Hky]%finite_key.
  by rewrite ltb_key, Hkx, Hky.
Qed.

Lemma leb_units (x y : float) :
  is_finite x = true → is_finite y = true →
  (x <=? y)%float = (F_units x <=? F_units y).
Proof.
  intros [Hx Hkx]%finite_key [Hy Hky]%finite_key.
  by rewrite leb_key, Hkx, Hky.
Qed.

Lemma eqb_units (x y : float) :
  is_finite x = true → is_finite y = true →
  (x =? y)%float = (F_units x =? F_units y).
Proof.
  intros [Hx Hkx]%finite_key [Hy Hky]%finite_key.
  by rewrite eqb_key, Hkx, Hky.
Qed.

(** The first pass of [m_normalize] over the finite values [vs], from
    [v0]. *)
Lemma min_max_scan_units (v0 : float) (vs : list float) :
  (∀ x, x ∈ v0 :: vs → is_finite x = true) →
  let st := foldl (λ (st : float * float) val,
                     let '(min, max) := st in
                     (if p_lt val min then val else min,
                      if p_lt max val then val else max)) (v0, v0) vs in
  (st.1 ∈ v0 :: vs ∧ st.2 ∈ v0 :: vs) ∧
  ∀ x, x ∈ v0 :: vs → F_units st.1 ≤ F_units x ≤ F_units st.2.
Proof.
  induction vs as [|v vs IH] using rev_ind; intros Hfin.
  { simpl. split; [split; by left|]. intros x Hx.
    apply list_elem_of_singleton in Hx as ->. lia. }
  cbv zeta in *. rewrite foldl_snoc.
  assert (Hsub : ∀ y, y ∈ v0 :: vs → y ∈ v0 :: vs ++ [v]).
  { intros y Hy. rewrite app_comm_cons. apply elem_of_app. by left. }
  assert (Hv : v ∈ v0 :: vs ++ [v]).
  { rewrite app_comm_cons. apply elem_of_app. right. by left. }
  specialize (IH (λ x Hx, Hfin x (Hsub x Hx))).
  destruct (foldl _ (v0, v0) vs) as [mn mx]. simpl in *.
  destruct IH as ([Hmn Hmx] & Hle).
  rewrite (ltb_units v mn), (ltb_units mx v) by auto.
  split.
  - split.
    + destruct (F_units v <? F_units mn); [done|by apply Hsub].
    + destruct (F_units mx <? F_units v); [done|by apply Hsub].
  - intros x Hx. rewrite app_comm_cons in Hx.
    apply elem_of_app in Hx as [Hx|Hx].
    + destruct (Hle x Hx) as [H1 H2].
      destruct (Z.ltb_spec (F_units v) (F_units mn)),
               (Z.ltb_spec (F_units mx) (F_units v)); lia.
    + apply list_elem_of_singleton in Hx as ->.
      destruct (Z.ltb_spec (F_units v) (F_units mn)),
               (Z.ltb_spec (F_units mx) (F_units v)); lia.
Qed.

(** C8, as the code has it.  [m_normalize] overwrites the cells of its
    receiver, whose shape stays.  In binary64, when the elements are
    finite numbers that are not all equal and the largest minus the
    smallest does not overflow, every element ends up in [0,1], a smallest
    element at 0 and a largest at 1. *)
Theorem m_normalize_range (M : matrix_t float) :
  well_formed M →
  (∀ i j, 0 ≤ i < rows M → 0 ≤ j < cols M →
     is_finite (elem indeterminate M i j) = true) →
  (∃ i j i' j',
     0 ≤ i < rows M ∧ 0 ≤ j < cols M ∧
     0 ≤ i' < rows M ∧ 0 ≤ j' < cols M ∧
     (elem indeterminate M i j <? elem indeterminate M i' j')%float = true) →
  (∀ i j i' j',
     0 ≤ i < rows M → 0 ≤ j < cols M →
     0 ≤ i' < rows M → 0 ≤ j' < cols M →
     (∀ k l, 0 ≤ k < rows M → 0 ≤ l < cols M →
        (elem indeterminate M i j <=? elem indeterminate M k l)%float = true) →
     (∀ k l, 0 ≤ k < rows M → 0 ≤ l < cols M →
        (elem indeterminate M k l <=? elem indeterminate M i' j')%float = true) →
     is_finite (elem indeterminate M i' j' - elem indeterminate M i j) = true) →
  let M' := m_normalize indeterminate M in
  well_formed M' ∧ rows M' = rows M ∧ cols M' = cols M ∧
  ∀ i j, 0 ≤ i < rows M → 0 ≤ j < cols M →
    ((0 <=? elem indeterminate M' i j)%float = true ∧
     (elem indeterminate M' i j <=? 1)%float = true) ∧
    ((∀ k l, 0 ≤ k < rows M → 0 ≤ l < cols M →
        (elem indeterminate M i j <=? elem indeterminate M k l)%float = true) →
     (elem indeterminate M' i j =? 0)%float = true) ∧
    ((∀ k l, 0 ≤ k < rows M → 0 ≤ l < cols M →
        (elem indeterminate M k l <=? elem indeterminate M i j)%float = true) →
     (elem indeterminate M' i j =? 1)%float = true).
Proof.
  intros Hwf Hfin (i1 & j1 & i2 & j2 & Hi1 & Hj1 & Hi2 & Hj2 & Hlt) Hwide M'.
  unfold M'. rewrite m_normalize_two_passes.
  set (vals := (λ ij : Z * Z, elem indeterminate M ij.1 ij.2)
                 <$> row_major (rows M) (cols M)).
  assert (Hval : ∀ x, x ∈ elem indeterminate M 0 0 :: vals ↔
            ∃ i j, 0 ≤ i < rows M ∧ 0 ≤ j < cols M ∧
                   x = elem indeterminate M i j).
  { intros x. split.
    - intros [->|Hx]%elem_of_cons.
      + exists 0, 0. split; [lia|]. split; [lia|done].
      + apply list_elem_of_fmap in Hx as ([i j] & -> & Hij).
        apply elem_of_row_major in Hij as [Hi Hj]. exists i, j. auto.
    - intros (i & j & Hi & Hj & ->). right.
      apply list_elem_of_fmap. exists (i, j). split; [done|].
      by apply elem_of_row_major. }
  assert (Hfin' : ∀ x, x ∈ elem indeterminate M 0 0 :: vals →
            is_finite x = true).
  { intros x (i & j & Hi & Hj & ->)%Hval. by apply Hfin. }
  pose proof (min_max_scan_units (elem indeterminate M 0 0) vals Hfin')
    as Hscan.
  cbv zeta in Hscan |- *.
  destruct (foldl _ _ vals) as [mn mx]. cbn [fst snd] in Hscan |- *.
  destruct Hscan as ([Hmn Hmx] & Hbounds).
  assert (Hcell : ∀ i j, 0 ≤ i < rows M → 0 ≤ j < cols M →
            F_units mn ≤ F_units (elem indeterminate M i j) ≤ F_units mx).
  { intros i j Hi Hj. apply Hbounds, Hval. exists i, j. auto. }
  assert (Hrange : F_units mn < F_units mx).
  { rewrite ltb_units in Hlt by auto. apply Z.ltb_lt in Hlt.
    destruct (Hcell i1 j1 Hi1 Hj1), (Hcell i2 j2 Hi2 Hj2). lia. }
  pose proof (Hfin' mn Hmn) as Hfmn. pose proof (Hfin' mx Hmx) as Hfmx.
  assert (Hdiff : is_finite (mx - mn) = true).
  { apply Hval in Hmn as (i & j & Hi & Hj & ->).
    apply Hval in Hmx as (i' & j' & Hi' & Hj' & ->).
    apply Hwide; try done.
    - intros k l Hk Hl. rewrite leb_units by auto. apply Z.leb_le.
      by apply Hcell.
    - intros k l Hk Hl. rewrite leb_units by auto. apply Z.leb_le.
      by apply Hcell. }
  destruct (for_loops_elem_set indeterminate
              (λ _ _ x, p_div (p_sub x mn) (p_sub mx mn)) M Hwf)
    as (Hwf' & Hr & Hc & Hcells).
  do 3 (split; [done|]). intros i j Hi Hj.
  rewrite Hcells by done.
  destruct (normalized_units (elem indeterminate M i j) mn mx
              (Hfin i j Hi Hj) Hfmn Hfmx (Hcell i j Hi Hj) Hrange Hdiff)
    as (Hfy & Hby & Hzero & Hone).
  cbv zeta in Hfy, Hby, Hzero, Hone. simpl p_div. simpl p_sub.
  set (y := ((elem indeterminate M i j - mn) / (mx - mn))%float) in *.
  assert (Hf0 : is_finite 0 = true) by done.
  assert (Hf1 : is_finite 1 = true) by done.
  assert (Hu1 : F_units 1 = 2 ^ 1074) by (vm_compute; reflexivity).
  rewrite !leb_units, !eqb_units by done.
  change (F_units 0) with 0. rewrite Hu1.
  split; [split; apply Z.leb_le; lia|]. split.
  - intros Hleast. apply Z.eqb_eq, Hzero.
    apply Hval in Hmn as (i' & j' & Hi' & Hj' & ->).
    specialize (Hleast i' j' Hi' Hj').
    rewrite leb_units in Hleast by auto. apply Z.leb_le in Hleast.
    destruct (Hcell i j Hi Hj). lia.
  - intros Hmost. apply Z.eqb_eq, Hone.
    apply Hval in Hmx as (i' & j' & Hi' & Hj' & ->).
    specialize (Hmost i' j' Hi' Hj').
    rewrite leb_units in Hmost by auto. apply Z.leb_le in Hmost.
    destruct (Hcell i j Hi Hj). lia.
Qed.
End NormalizeBinary64.

Lemma m_normalize_range_witness :
  let M' := m_normalize stale_heap sample_2x2 in
  well_formed M' ∧ rows M' = 2 ∧ cols M' = 2 ∧
  ∀ i j, 0 ≤ i < 2 → 0 ≤ j < 2 →
    ((0 <=? elem stale_heap M' i j)%float = true ∧
     (elem stale_heap M' i j <=? 1)%float = true) ∧
    ((∀ k l, 0 ≤ k < 2 → 0 ≤ l < 2 →
        (elem stale_heap sample_2x2 i j
         <=? elem stale_heap sample_2x2 k l)%float = true) →
     (elem stale_heap M' i j =? 0)%float = true) ∧
    ((∀ k l, 0 ≤ k < 2 → 0 ≤ l < 2 →
        (elem stale_heap sample_2x2 k l
         <=? elem stale_heap sample_2x2 i j)%float = true) →
     (elem stale_heap M' i j =? 1)%float = true).
Proof.
  apply (m_normalize_range stale_heap sample_2x2).
  - unfold well_formed, INT_MAX. simpl. lia.
  - intros i j Hi Hj. simpl in Hi, Hj.
    assert (Hi' : i = 0 ∨ i = 1) by lia.
    assert (Hj' : j = 0 ∨ j = 1) by lia.
    destruct Hi' as [-> | ->], Hj' as [-> | ->]; vm_compute; reflexivity.
  - exists 1, 0, 0, 0. simpl. repeat split; try lia.
  - intros i j i' j' Hi Hj Hi' Hj' _ _. simpl in Hi, Hj, Hi', Hj'.
    assert (Hi1 : i = 0 ∨ i = 1) by lia.
    assert (Hj1 : j = 0 ∨ j = 1) by lia.
    assert (Hi2 : i' = 0 ∨ i' = 1) by lia.
    assert (Hj2 : j' = 0 ∨ j' = 1) by lia.
    destruct Hi1 as [-> | ->], Hj1 as [-> | ->],
             Hi2 as [-> | ->], Hj2 as [-> | ->]; vm_compute; reflexivity.
Defined.

Example m_normalize_sample_binary64 :
  m_normalize stale_heap sample_2x2 = Matrix 2 2 [1; 0; 0.5; 0.25]%float.
Proof. vm_compute. reflexivity. Qed.

(** C8 as stated fails.  When all the elements are equal, max - min is 0
    and every element becomes 0.0 / 0.0, which is NaN: it is neither at
    least 0 nor at most 1.  When max - min overflows, or an element is an
    infinity, the largest element becomes infinity / infinity, NaN
    again.  An element that is NaN stays NaN. *)
Lemma m_normalize_not_in_range :
  (let M' := m_normalize stale_heap constant_2x2 in
   M' = Matrix 2 2 [nan; nan; nan; nan]%float ∧
   PrimFloat.leb 0 (elem stale_heap M' 0 0) = false ∧
   PrimFloat.leb (elem stale_heap M' 0 0) 1 = false) ∧
  (let M' := m_normalize stale_heap wide_1x2 in
   is_finite (elem stale_heap wide_1x2 0 0) = true ∧
   is_finite (elem stale_heap wide_1x2 0 1) = true ∧
   is_finite (elem stale_heap wide_1x2 0 1 - elem stale_heap wide_1x2 0 0)
   = false ∧
   M' = Matrix 1 2 [0; nan]%float ∧
   PrimFloat.leb (elem stale_heap M' 0 1) 1 = false) ∧
  (let M' := m_normalize stale_heap infinite_1x2 in
   is_finite (elem stale_heap infinite_1x2 0 1) = false ∧
   M' = Matrix 1 2 [0; nan]%float ∧
   PrimFloat.leb (elem stale_heap M' 0 1) 1 = false) ∧
  (let M' := m_normalize stale_heap not_a_number_1x3 in
   is_finite (elem stale_heap not_a_number_1x3 0 1) = false ∧
   M' = Matrix 1 3 [0; nan; 1]%float ∧
   PrimFloat.leb (elem stale_heap M' 0 1) 1 = false).
Proof. repeat split; vm_compute; reflexivity. Qed.

(** ** Serialization *)

Section Serialization.
Context {T : Type} {PR : Precision T} {text : Type} {IO : Stdio T text}.
Context (indeterminate : Z → T) (indeterminate_int : Z).

Lemma memcpy_whole (d : list T) (n : Z) :
  length d = Z.to_nat n → memcpy indeterminate d 0 n = d.
Proof.
  intros Hlen. unfold memcpy. apply list_eq. intros k.
  rewrite list_lookup_fmap.
  destruct (decide (k < length d)%nat) as [Hk|Hk].
  - rewrite lookup_seqZ_lt by lia. simpl.
    destruct (lookup_lt_is_Some_2 d k Hk) as [x Hx]. rewrite Hx. f_equal.
    apply load_lookup; [lia|]. rewrite <- Hx. f_equal. lia.
  - rewrite lookup_seqZ_ge by lia. simpl. symmetry.
    apply lookup_ge_None. lia.
Qed.

Lemma fread_elems_all (xs pre spare : list T) (rest : list (object T)) :
  length spare = length xs →
  fread_elems (pre ++ spare) (Z.of_nat (length pre)) (length xs)
              ((obj_elem <$> xs) ++ rest)
  = (pre ++ xs, rest).
Proof.
  revert pre spare. induction xs as [|x xs IH]; intros pre spare Hlen.
  { destruct spare; [|done]. by destruct rest. }
  destruct spare as [|y spare]; [done|]. simpl in *.
  unfold store. rewrite (proj2 (Z.ltb_ge _ _)) by lia. rewrite Nat2Z.id.
  replace (length pre) with (length pre + 0)%nat at 1 by lia.
  rewrite insert_app_r. simpl.
  replace (Z.of_nat (length pre) + 1) with (Z.of_nat (length (pre ++ [x])))
    by (rewrite length_app; simpl; lia).
  rewrite (cons_middle x pre spare), app_assoc.
  rewrite IH by lia. by rewrite <- app_assoc.
Qed.

Lemma m_fread_m_fwrite (M : matrix_t T) (rest : list (object T)) :
  well_formed M →
  m_fread indeterminate indeterminate_int (m_fwrite indeterminate [] M ++ rest)
  = (M, rest).
Proof.
  intros (Hr & Hc & Hmax & Hlen). destruct M as [r c d]. simpl in *.
  unfold m_fwrite, fwrite_int, fwrite_elems, m_fread. simpl.
  rewrite memcpy_whole by done.
  rewrite <- (app_nil_l (_ <$> seqZ _ _)).
  rewrite <- Hlen.
  rewrite (fread_elems_all d [] (indeterminate <$> seqZ 0 (r * c)) rest); [done|].
  rewrite length_fmap, length_seqZ. lia.
Qed.

Lemma foldl_snoc_fmap {A B : Type} (f : A → B) (l : list A) (s0 : list B) :
  foldl (λ s x, s ++ [f x]) s0 l = s0 ++ (f <$> l).
Proof.
  revert s0. induction l as [|x l IH]; intros s0; simpl.
  - by rewrite app_nil_r.
  - rewrite IH. by rewrite <- app_assoc.
Qed.

Lemma m_fprint_fields (M : matrix_t T) :
  m_fprint indeterminate [] M
  = [printf_d (rows M); printf_d (cols M)]
    ++ ((λ ij : Z * Z, printf_lg (elem indeterminate M ij.1 ij.2))
          <$> row_major (rows M) (cols M)).
Proof.
  unfold m_fprint.
  rewrite (for_loop_nested (rows M) (cols M)
             (λ i j stream, stream ++ [printf_lg (elem indeterminate M i j)])).
  by rewrite (foldl_snoc_fmap
                (λ ij : Z * Z, printf_lg (elem indeterminate M ij.1 ij.2))).
Qed.

End Serialization.

Section TextRoundTrip.
Context {T : Type} {PR : Precision T} {text : Type} {IO : Stdio T text}.
Context (indeterminate : Z → T) (indeterminate_int : Z).

(** What <stdio.h> promises of the two conversions: "%d" reads back the
    [int] that "%d" printed, and "%lf" can read every field that "%lg"
    printed. *)
Hypothesis scanf_printf_d : ∀ n : Z, scanf_d (printf_d n) = Some n.
Hypothesis scanf_printf_lg : ∀ x : T, is_Some (scanf_lf (printf_lg x)).

Lemma scanf_printf_reread (x : T) :
  scanf_lf (printf_lg x) = Some (reread x).
Proof. unfold reread. by destruct (scanf_printf_lg x) as [y ->]. Qed.

(** Reading the fields of the cells [l] back into any matrix. *)
Lemma fscan_cells (M M1 : matrix_t T) (l : list (Z * Z)) (rest : list text) :
  foldl (λ (st : matrix_t T * list text) ij,
           let '(M', stream) := st in
           match fscanf_lf stream with
           | (Some x, stream) => (elem_set M' ij.1 ij.2 x, stream)
           | (None, stream) => (M', stream)
           end)
        (M1, ((λ ij : Z * Z, printf_lg (elem indeterminate M ij.1 ij.2)) <$> l)
               ++ rest) l
  = (foldl (λ M' ij,
              elem_set M' ij.1 ij.2 (reread (elem indeterminate M ij.1 ij.2)))
           M1 l, rest).
Proof.
  revert M1. induction l as [|[i j] l IH]; intros M1; [done|].
  simpl. rewrite scanf_printf_reread. simpl. apply IH.
Qed.

(** C2, as the code has it.  The binary format reads back every matrix
    exactly.  The text format reads back the shape, and each element as
    the number that the field printed for it by "%lg" spells: the matrix
    is read back exactly if and only if every one of its elements is
    spelled exactly by its field. *)
Theorem serialization_round_trip (M : matrix_t T)
    (rest_b : list (object T)) (rest_t : list text) :
  well_formed M →
  m_fread indeterminate indeterminate_int
    (m_fwrite indeterminate [] M ++ rest_b) = (M, rest_b) ∧
  ∃ M',
    m_fscan indeterminate indeterminate_int
      (m_fprint indeterminate [] M ++ rest_t) = (M', rest_t) ∧
    well_formed M' ∧ rows M' = rows M ∧ cols M' = cols M ∧
    (∀ i j, 0 ≤ i < rows M → 0 ≤ j < cols M →
       elem indeterminate M' i j = reread (elem indeterminate M i j)) ∧
    (M' = M ↔
     ∀ i j, 0 ≤ i < rows M → 0 ≤ j < cols M →
       reread (elem indeterminate M i j) = elem indeterminate M i j).
Proof.
  intros Hwf. split; [by apply m_fread_m_fwrite|].
  rewrite m_fprint_fields. unfold m_fscan, fscanf_d_d, fscanf_d. simpl.
  rewrite !scanf_printf_d.
  rewrite (for_loop_nested (rows M) (cols M)
             (λ i j (st : matrix_t T * list text),
                let '(M', stream) := st in
                match fscanf_lf stream with
                | (Some x, stream) => (elem_set M' i j x, stream)
                | (None, stream) => (M', stream)
                end)).
  cbv beta.
  rewrite (fscan_cells M).
  pose proof Hwf as (Hr & Hc & Hmax & Hlen).
  destruct (foldl_elem_set_cells indeterminate
              (λ i j _, reread (elem indeterminate M i j))
              (row_major (rows M) (cols M))
              (m_initialize indeterminate (rows M) (cols M)))
    as (Hwf' & Hr' & Hc' & Hcells).
  { by apply m_initialize_well_formed. }
  { apply NoDup_row_major. }
  { intros [i j] Hij. by apply elem_of_row_major in Hij. }
  simpl in Hr', Hc'.
  assert (Hcell : ∀ i j, 0 ≤ i < rows M → 0 ≤ j < cols M →
            elem indeterminate
              (foldl (λ M' ij, elem_set M' ij.1 ij.2
                                 (reread (elem indeterminate M ij.1 ij.2)))
                     (m_initialize indeterminate (rows M) (cols M))
                     (row_major (rows M) (cols M))) i j
            = reread (elem indeterminate M i j)).
  { intros i j Hi Hj. rewrite Hcells by done. rewrite decide_True; [done|].
    by apply elem_of_row_major. }
  eexists. split; [reflexivity|].
  do 3 (split; [done|]). split; [exact Hcell|]. split.
  - intros Heq i j Hi Hj. rewrite <- Hcell by done. by rewrite Heq.
  - intros Hsame.
    apply (matrix_ext indeterminate); [exact Hwf'|done|exact Hr'|exact Hc'|].
    intros i j Hi Hj. rewrite Hr' in Hi. rewrite Hc' in Hj.
    rewrite Hcell by done. by apply Hsame.
Qed.
End TextRoundTrip.

Lemma serialization_round_trip_witness :
  m_fread stale_heap_Q 0 (m_fwrite stale_heap_Q [] seven_digits ++ [])
  = (seven_digits, []) ∧
  ∃ M',
    m_fscan stale_heap_Q 0 (m_fprint stale_heap_Q [] seven_digits ++ [])
    = (M', []) ∧
    well_formed M' ∧ rows M' = 1 ∧ cols M' = 1 ∧
    (∀ i j, 0 ≤ i < 1 → 0 ≤ j < 1 →
       elem stale_heap_Q M' i j = reread (elem stale_heap_Q seven_digits i j)) ∧
    (M' = seven_digits ↔
     ∀ i j, 0 ≤ i < 1 → 0 ≤ j < 1 →
       reread (elem stale_heap_Q seven_digits i j)
       = elem stale_heap_Q seven_digits i j).
Proof.
  apply (serialization_round_trip stale_heap_Q 0).
  - intros n. reflexivity.
  - intros x. simpl. by eexists.
  - unfold well_formed, INT_MAX. simpl. lia.
Defined.

(** On the rationals every field is readable, and what is read is the
    number that the field spells. *)
Lemma reread_text_value (q : Q) : reread q = text_value (lg_text q).
Proof. reflexivity. Qed.

Example text_round_trip_sample :
  m_fscan stale_heap_Q 0 (m_fprint stale_heap_Q [] sample_2x2_Q)
  = (sample_2x2_Q, []).
Proof. vm_compute. reflexivity. Qed.

(** C2 as stated fails for the text format: "%lg" prints six significant
    digits, so the element 1234567 is written as 1.23457e+06 and read back
    as 1234570. *)
Lemma text_round_trip_seven_digits :
  printf_lg (1234567 : Q) = {| mantissa := 123457; exponent := 1 |} ∧
  m_fscan stale_heap_Q 0 (m_fprint stale_heap_Q [] seven_digits)
  = (Matrix 1 1 [1234570]%Q, []) ∧
  ¬ (elem stale_heap_Q
       (m_fscan stale_heap_Q 0 (m_fprint stale_heap_Q [] seven_digits)).1 0 0
     == elem stale_heap_Q seven_digits 0 0)%Q.
Proof.
  split; [vm_compute; reflexivity|]. split; [vm_compute; reflexivity|].
  vm_compute. discriminate.
Qed.

(** ** Nearest neighbour in Recognition.m *)

Section Nearest.
Context {T : Type} {PR : Precision T} {NO : NumberOrder T}.




Lemma not_lt_nan (a b : T) : Matlab.isnan a = true → p_lt b a = false.
Proof.
  intros Ha. destruct (p_lt b a) eqn:Hlt; [|done].
  apply lt_number in Hlt as [_ Hb]. congruence.
Qed.


Variable norm : list T → T.

End Nearest.

Lemma Q_number (a : Q) : Matlab.isnan a = false.
Proof.
  unfold Matlab.isnan. simpl. apply negb_false_iff, Qeq_bool_iff, Qeq_refl.
Qed.

Lemma Q_number_order : NumberOrder Q.
Proof.
  split.
  - intros a b _. split; apply Q_number.
  - intros a. apply Q_lt_false, Qle_refl.
  - intros a b c Hab%Q_lt_true Hbc%Q_lt_true. apply Q_lt_true. lra.
  - intros a b c _ Hac%Q_lt_true.
    destruct (Qlt_le_dec a b) as [Hab|Hba].
    + left. by apply Q_lt_true.
    + right. apply Q_lt_true. lra.
Qed.



(** The projected test image is 2; the training columns project to 4, 1
    and 1, at squared distances 4, 1 and 1: the second column is reported,
    not the third. *)
Example Recognition_tie :
  Matlab.Recognition norm_of_scalar [3; 1]%Q [1; 1]%Q
    training_images one_eigenface = Some 2.
Proof. vm_compute. reflexivity. Qed.

(** A column whose value is NaN is passed over, also when it comes
    first. *)
Example Recognition_skips_nan :
  Matlab.Recognition norm_of_scalar_float [3; 1]%float [1; 1]%float
    [[infinity; 0]; [1; 0]; [nan; 0]]%float [[0; 1]]%float = Some 2.
Proof. vm_compute. reflexivity. Qed.


Lemma m_findNonZeros_spec_witness :
  let cells := nonzero_cells stale_heap sample_2x3 in
  let k := length cells in
  (k ≤ Z.to_nat (rows sample_2x3 * cols sample_2x3))%nat ∧
  m_findNonZeros stale_heap sample_2x3
  = Matrix (rows sample_2x3 * cols sample_2x3) 1
      (((λ ij : Z * Z, p_of_int (ij.1 + 1)) <$> cells)
       ++ replicate (Z.to_nat (rows sample_2x3 * cols sample_2x3) - k) zero).
Proof.
  apply (m_findNonZeros_spec stale_heap sample_2x3).
  unfold well_formed, INT_MAX. simpl. lia.
Defined.

(** The matrix [5 0 1; 0 2 1] has its non-zero elements in the rows 1, 1,
    2, 2 of the row-major scan. *)
Example m_findNonZeros_sample :
  m_findNonZeros stale_heap sample_2x3
  = Matrix 6 1 [1; 1; 2; 2; 0; 0]%float.
Proof. vm_compute. reflexivity. Qed.

(** ** Inversion of a singular matrix *)

Section Inversion.
Context {T : Type} {PR : Precision T} {LA : Lapack T}.
Context (indeterminate : Z → T) (indeterminate_int : Z).

Lemma m_inverseMatrix_singular (M : matrix_t T) :
  (LAPACKE_dgetrf LAPACK_ROW_MAJOR (cols M) (rows M) (data M) (rows M)).1.1 ≠ 0 →
  m_inverseMatrix M = Exits 1.
Proof.
  intros Hinfo. unfold m_inverseMatrix.
  destruct (LAPACKE_dgetrf _ _ _ _ _) as [[info a] ipiv]. simpl in Hinfo.
  apply Z.eqb_neq in Hinfo. by rewrite Hinfo.
Qed.

Lemma m_inverse_singular (M : matrix_t T) :
  (LAPACKE_dgetrf LAPACK_COL_MAJOR (rows M) (cols M)
     (data (m_copy indeterminate M)) (rows M)).1.1 ≠ 0 →
  m_inverse indeterminate M = Exits 1.
Proof.
  intros Hinfo. unfold m_inverse.
  destruct (LAPACKE_dgetrf _ _ _ _ _) as [[info a] ipiv]. simpl in Hinfo.
  apply Z.eqb_neq in Hinfo. by rewrite Hinfo.
Qed.

(** C1, as the code has it.  When the LU factorization reports a
    singular matrix, [m_inverseMatrix] ends the process with [exit(1)]:
    nothing comes back to the caller.  LDA inverts the within-class scatter
    S_w with [m_inverse], of which the specification says the same, so a
    singular S_w ends the whole run. *)
Theorem singular_inversion_exits (M W_pca_tr P_pca : matrix_t T) (c : Z)
    (entries : list database_entry_t) (S_b S_w : matrix_t T) :
  (LAPACKE_dgetrf LAPACK_ROW_MAJOR (cols M) (rows M) (data M) (rows M)).1.1 ≠ 0 →
  m_scatter indeterminate indeterminate_int P_pca c entries
    (m_zeros (rows P_pca) (rows P_pca)) (m_zeros (rows P_pca) (rows P_pca))
  = Returns (S_b, S_w) →
  (LAPACKE_dgetrf LAPACK_COL_MAJOR (rows S_w) (cols S_w)
     (data (m_copy indeterminate S_w)) (rows S_w)).1.1 ≠ 0 →
  m_inverseMatrix M = Exits 1 ∧
  m_inverse indeterminate S_w = Exits 1 ∧
  LDA indeterminate indeterminate_int W_pca_tr P_pca c entries = Exits 1.
Proof.
  intros HM Hscatter HSw. split; [by apply m_inverseMatrix_singular|].
  split; [by apply m_inverse_singular|].
  unfold LDA. rewrite Hscatter. simpl.
  by rewrite (m_inverse_singular S_w).
Qed.
End Inversion.

Lemma singular_inversion_exits_witness :
  m_inverseMatrix (LA := lapack_getrf_only) singular_2x2 = Exits 1 ∧
  m_inverse (LA := lapack_getrf_only) stale_heap_Q singular_2x2 = Exits 1 ∧
  LDA (LA := lapack_getrf_only) stale_heap_Q 0 identity_basis
    identical_images 2 four_entries = Exits 1.
Proof.
  apply (singular_inversion_exits (LA := lapack_getrf_only) stale_heap_Q 0
           singular_2x2 identity_basis identical_images 2 four_entries
           (Matrix 2 2 [29; 31; 31; 34]%Q) singular_2x2).
  - vm_compute. discriminate.
  - vm_compute. reflexivity.
  - vm_compute. discriminate.
Defined.

(** C1 as stated fails.  Two classes of two identical images each have the
    zero matrix as their within-class scatter; the factorization reports
    its first pivot as zero, and both [m_inverseMatrix] on the zero matrix
    and the LDA run end the process instead of returning to their
    caller. *)
Lemma singular_inversion_ends_process :
  (LAPACKE_dgetrf (Lapack := lapack_getrf_only) LAPACK_ROW_MAJOR 2 2
     (data singular_2x2) 2).1.1 = 1 ∧
  terminates_process (m_inverseMatrix (LA := lapack_getrf_only) singular_2x2)
  = true ∧
  ¬ returned (m_inverseMatrix (LA := lapack_getrf_only) singular_2x2) ∧
  (∃ S_b, m_scatter stale_heap_Q 0 identical_images 2 four_entries
            (m_zeros 2 2) (m_zeros 2 2) = Returns (S_b, singular_2x2)) ∧
  terminates_process
    (LDA (LA := lapack_getrf_only) stale_heap_Q 0 identity_basis
       identical_images 2 four_entries) = true ∧
  ¬ returned (LDA (LA := lapack_getrf_only) stale_heap_Q 0 identity_basis
                identical_images 2 four_entries).
Proof.
  assert (HM : m_inverseMatrix (LA := lapack_getrf_only) singular_2x2
               = Exits 1) by (vm_compute; reflexivity).
  assert (HL : LDA (LA := lapack_getrf_only) stale_heap_Q 0 identity_basis
                 identical_images 2 four_entries = Exits 1)
    by (vm_compute; reflexivity).
  rewrite HM, HL. split; [vm_compute; reflexivity|]. split; [done|].
  split; [by intros [? ?]|]. split; [|split; [done|by intros [? ?]]].
  eexists. vm_compute. reflexivity.
Qed.

(** ** The cells of the cofactor matrix *)

Section Cofactor.
Context {T : Type} {PR : Precision T}.
Context (indeterminate : Z → T) (indeterminate_int : Z).

Lemma minor_well_formed (M : matrix_t T) (i j : Z) :
  well_formed M → 1 ≤ rows M → 1 ≤ cols M →
  well_formed (minor indeterminate M i j).
Proof.
  intros (Hr & Hc & Hmax & _) Hr1 Hc1. unfold well_formed, minor. simpl.
  rewrite length_fmap, length_seqZ.
  assert ((rows M - 1) * (cols M - 1) ≤ rows M * cols M) by nia.
  repeat split; try lia.
Qed.

Lemma elem_minor (M : matrix_t T) (i j r c : Z) :
  0 ≤ r < rows M - 1 → 0 ≤ c < cols M - 1 →
  elem indeterminate (minor indeterminate M i j) r c
  = elem indeterminate M (skip i r) (skip j c).
Proof.
  intros Hr Hc. unfold elem at 1, elem_index, minor. simpl.
  pose proof (cell_index_range _ _ _ _ Hr Hc) as Hk.
  apply load_lookup; [lia|].
  rewrite list_lookup_fmap, lookup_seqZ_lt by lia. simpl.
  rewrite Z2Nat.id by lia.
  replace (0 + (c * (rows M - 1) + r)) with (r + c * (rows M - 1)) by lia.
  rewrite Z.rem_mod_nonneg, Z.quot_div_nonneg by lia.
  rewrite Z.mod_add, Z.div_add by lia.
  rewrite Z.mod_small, Z.div_small by lia. by rewrite Z.add_0_l.
Qed.

Lemma skip_below (k n : Z) : n < k → skip k n = n.
Proof. intros. unfold skip. by rewrite (proj2 (Z.ltb_lt _ _)). Qed.

Lemma skip_above (k n : Z) : k ≤ n → skip k n = n + 1.
Proof. intros. unfold skip. by rewrite (proj2 (Z.ltb_ge _ _)). Qed.

(** The inner loop of the fill writes row [row] of [A] from row [r0] of
    [M] without column [j], and leaves the other rows alone. *)
Lemma cofactor_fill_row (M A : matrix_t T) (j r0 row : Z) :
  well_formed A → cols A = cols M - 1 →
  0 ≤ row < rows A → 0 ≤ j < cols M →
  let st := for_loop 0 (cols M) (λ c '(A, col),
              if j =? c then (A, col)
              else (elem_set A row col (elem indeterminate M r0 c), col + 1))
            (A, 0) in
  well_formed st.1 ∧ same_shape st.1 A ∧
  (∀ r c, 0 ≤ r < rows A → 0 ≤ c < cols A → r ≠ row →
     elem indeterminate st.1 r c = elem indeterminate A r c) ∧
  (∀ c, 0 ≤ c < cols M - 1 →
     elem indeterminate st.1 row c = elem indeterminate M r0 (skip j c)).
Proof.
  intros Hwf Hcols Hrow Hj st.
  assert (Hinv :
    well_formed st.1 ∧ same_shape st.1 A ∧
    st.2 = (if cols M <=? j then cols M else cols M - 1) ∧
    (∀ r c, 0 ≤ r < rows A → 0 ≤ c < cols A → r ≠ row →
       elem indeterminate st.1 r c = elem indeterminate A r c) ∧
    (∀ c, 0 ≤ c < st.2 →
       elem indeterminate st.1 row c = elem indeterminate M r0 (skip j c))).
  { unfold st.
    apply (for_loop_ind
      (λ c (s : matrix_t T * Z),
         well_formed s.1 ∧ same_shape s.1 A ∧
         s.2 = (if c <=? j then c else c - 1) ∧
         (∀ r c', 0 ≤ r < rows A → 0 ≤ c' < cols A → r ≠ row →
            elem indeterminate s.1 r c' = elem indeterminate A r c') ∧
         (∀ c', 0 ≤ c' < s.2 →
            elem indeterminate s.1 row c'
            = elem indeterminate M r0 (skip j c')))); [lia| |].
    - simpl. split; [done|]. split; [done|].
      rewrite (proj2 (Z.leb_le _ _)) by lia.
      split; [done|]. split; [done|]. intros; lia.
    - intros c [A' col] Hc (Hwf' & [Hr' Hc'] & Hcol & Hothers & Hdone).
      simpl in *. destruct (Z.eqb_spec j c) as [->|Hne].
      + simpl. rewrite (proj2 (Z.leb_le _ _)) in Hcol by lia.
        rewrite (proj2 (Z.leb_gt _ _)) by lia.
        do 2 (split; [done|]). split; [lia|]. done.
      + simpl.
        assert (Hcol' : 0 ≤ col < cols A' ∧
                        col + 1 = (if c + 1 <=? j then c + 1 else c + 1 - 1) ∧
                        skip j col = c).
        { destruct (Z.leb_spec c j), (Z.leb_spec (c + 1) j); try lia.
          - rewrite skip_below by lia. lia.
          - rewrite skip_above by lia. lia. }
        destruct Hcol' as (Hcolr & Hnext & Hskip).
        split; [by apply elem_set_well_formed|]. split; [done|].
        split; [exact Hnext|]. split.
        * intros r c' Hr Hc'' Hrne.
          rewrite elem_elem_set_ne; [by apply Hothers|lia..|].
          intros Heq. simplify_eq.
        * intros c' Hc''. destruct (decide (c' = col)) as [->|Hc'ne].
          -- rewrite elem_elem_set_eq by (done || lia). by rewrite Hskip.
          -- rewrite elem_elem_set_ne; [apply Hdone; lia|lia..|].
             intros Heq. simplify_eq. }
  destruct Hinv as (H1 & H2 & Hcol & H3 & H4).
  rewrite (proj2 (Z.leb_gt _ _)) in Hcol by lia.
  do 3 (split; [done|]). intros c Hc. apply H4. lia.
Qed.

(** The two loops of the fill make [A] the minor without row [i] and
    column [j]. *)
Lemma cofactor_fill_minor (M A : matrix_t T) (i j : Z) :
  well_formed M → well_formed A →
  rows A = rows M - 1 → cols A = cols M - 1 →
  0 ≤ i < rows M → 0 ≤ j < cols M →
  cofactor_fill indeterminate M A i j = minor indeterminate M i j.
Proof.
  intros HwfM HwfA HrA HcA Hi Hj.
  set (loop := for_loop 0 (rows M) (λ r '(A, row),
        if i =? r then (A, row)
        else
          let '(A, col) :=
            for_loop 0 (cols M) (λ c '(A, col),
              if j =? c then (A, col)
              else (elem_set A row col (elem indeterminate M r c), col + 1))
              (A, 0) in
          (A, row + 1)) (A, 0)).
  assert (Hinv :
    well_formed loop.1 ∧ same_shape loop.1 A ∧
    ∀ r c, 0 ≤ r < rows M - 1 → 0 ≤ c < cols M - 1 →
      elem indeterminate loop.1 r c
      = elem indeterminate M (skip i r) (skip j c)).
  { assert (Hloop :
      well_formed loop.1 ∧ same_shape loop.1 A ∧
      loop.2 = (if rows M <=? i then rows M else rows M - 1) ∧
      ∀ r c, 0 ≤ r < loop.2 → 0 ≤ c < cols M - 1 →
        elem indeterminate loop.1 r c
        = elem indeterminate M (skip i r) (skip j c)).
    { unfold loop.
      apply (for_loop_ind
        (λ r (s : matrix_t T * Z),
           well_formed s.1 ∧ same_shape s.1 A ∧
           s.2 = (if r <=? i then r else r - 1) ∧
           ∀ r' c, 0 ≤ r' < s.2 → 0 ≤ c < cols M - 1 →
             elem indeterminate s.1 r' c
             = elem indeterminate M (skip i r') (skip j c))); [lia| |].
      - simpl. do 2 (split; [done|]).
        rewrite (proj2 (Z.leb_le _ _)) by lia. split; [done|]. intros; lia.
      - intros r [A' row] Hr (Hwf' & [Hr' Hc'] & Hrow & Hdone).
        simpl in *. destruct (Z.eqb_spec i r) as [->|Hne].
        + simpl. rewrite (proj2 (Z.leb_le _ _)) in Hrow by lia.
          rewrite (proj2 (Z.leb_gt _ _)) by lia.
          do 2 (split; [done|]). split; [lia|]. done.
        + assert (Hrow' : 0 ≤ row < rows A' ∧
                          row + 1 = (if r + 1 <=? i then r + 1 else r + 1 - 1) ∧
                          skip i row = r).
          { destruct (Z.leb_spec r i), (Z.leb_spec (r + 1) i); try lia.
            - rewrite skip_below by lia. lia.
            - rewrite skip_above by lia. lia. }
          destruct Hrow' as (Hrowr & Hnext & Hskip).
          pose proof (cofactor_fill_row M A' j r row Hwf') as Hfill.
          cbv zeta in Hfill.
          destruct (for_loop 0 (cols M) _ (A', 0)) as [A'' col].
          simpl in Hfill |- *.
          destruct Hfill as (Hwf'' & [Hr'' Hc''] & Hothers & Hnew);
            [lia|done|done|].
          split; [done|]. split; [split; congruence|].
          split; [exact Hnext|].
          intros r' c Hr'0 Hc0. destruct (decide (r' = row)) as [->|Hr'ne].
          * rewrite Hnew by done. by rewrite Hskip.
          * rewrite Hothers by lia. apply Hdone; lia. }
    destruct Hloop as (H1 & H2 & Hrow & H3).
    rewrite (proj2 (Z.leb_gt _ _)) in Hrow by lia.
    do 2 (split; [done|]). intros r c Hr Hc. apply H3; lia. }
  unfold cofactor_fill. fold loop.
  destruct loop as [A' row]. simpl in Hinv.
  destruct Hinv as (Hwf' & [Hr' Hc'] & Hcells).
  apply (matrix_ext indeterminate); [done| |simpl; lia..|].
  { destruct HwfM as (? & ? & ? & ?). apply minor_well_formed; [done|lia..]. }
  intros r c Hr Hc. rewrite Hr', HrA in Hr. rewrite Hc', HcA in Hc.
  rewrite elem_minor by done. by apply Hcells.
Qed.
Lemma cofactor_sign (i j : Z) :
  0 ≤ i → 0 ≤ j →
  1 - 2 * Z.lxor (i `rem` 2) (j `rem` 2) = if Z.even (i + j) then 1 else -1.
Proof.
  intros Hi Hj. rewrite !Z.rem_mod_nonneg by lia.
  rewrite !Zmod_even, Z.even_add.
  by destruct (Z.even i), (Z.even j).
Qed.

Lemma foldlM_app {St B : Type} (f : St → B → outcome St) (s : St)
    (l1 l2 : list B) :
  foldlM f s (l1 ++ l2) = (s' ← foldlM f s l1; foldlM f s' l2).
Proof.
  revert s. induction l1 as [|x l1 IH]; intros s; [done|]. simpl.
  destruct (f s x) as [s'| | | |]; simpl; [apply IH|done..].
Qed.

Lemma for_loopM_nested {St : Type} (rs cs : Z)
    (f : Z → Z → St → outcome St) (s : St) :
  for_loopM 0 rs (λ i s, for_loopM 0 cs (λ j s, f i j s) s) s
  = foldlM (λ s ij, f ij.1 ij.2 s) s (row_major rs cs).
Proof.
  unfold for_loopM, row_major. rewrite !Z.sub_0_r.
  generalize (seqZ 0 rs) as l. intros l. revert s.
  induction l as [|i l IH]; intros s; [done|].
  rewrite bind_cons, foldlM_app. simpl.
  assert (Hrow : ∀ (k : list Z) s0,
            foldlM (λ s j, f i j s) s0 k
            = foldlM (λ s ij, f ij.1 ij.2 s) s0 ((λ j, (i, j)) <$> k)).
  { induction k as [|j k IHk]; intros s0; [done|]. simpl.
    destruct (f i j s0); simpl; [apply IHk|done..]. }
  rewrite Hrow.
  destruct (foldlM _ s _) as [s'| | | |]; simpl; [apply IH|done..].
Qed.

(** A loop invariant that speaks of the cells already visited. *)
Lemma foldlM_visited {St B : Type} (P : list B → St → Prop)
    (f : St → B → outcome St) (s : St) (l : list B) :
  P [] s →
  (∀ l1 x s, x ∈ l → P l1 s → ∃ s', f s x = Returns s' ∧ P (l1 ++ [x]) s') →
  ∃ s', foldlM f s l = Returns s' ∧ P l s'.
Proof.
  intros H0 Hstep.
  assert (Hgen : ∀ l2 l1 s, (∀ x, x ∈ l2 → x ∈ l) → P l1 s →
            ∃ s', foldlM f s l2 = Returns s' ∧ P (l1 ++ l2) s').
  { induction l2 as [|x l2 IH]; intros l1 s1 Hsub Hs1.
    - exists s1. by rewrite app_nil_r.
    - destruct (Hstep l1 x s1) as (s2 & Hf & Hs2); [apply Hsub; by left|done|].
      simpl. rewrite Hf. simpl.
      destruct (IH (l1 ++ [x]) s2) as (s3 & Hrun & Hs3);
        [intros y Hy; apply Hsub; by right|done|].
      exists s3. split; [done|]. by rewrite <- app_assoc in Hs3. }
  by apply (Hgen l [] s).
Qed.

(** What [m_cofactor] stores: the cell R(j,i) is the value that
    [m_determinant] returns for the minor without row i and column j,
    times the sign (-1)^(i+j). *)
Lemma m_cofactor_cells (M : matrix_t T) (fuel : nat) :
  well_formed M → rows M = cols M → 1 ≤ rows M →
  (Z.to_nat (rows M - 1) < fuel)%nat →
  ∃ R, m_cofactor_rec indeterminate indeterminate_int fuel M = Returns R ∧
    well_formed R ∧ same_shape R M ∧
    ∀ i j, 0 ≤ i < rows M → 0 ≤ j < cols M →
      ∃ val,
        m_determinant_rec indeterminate indeterminate_int fuel
          (minor indeterminate M i j) = Returns val ∧
        elem indeterminate R j i
        = p_mul val (p_of_int (if Z.even (i + j) then 1 else -1)).
Proof.
  intros HwfM Hsq Hn Hfuel.
  pose proof HwfM as (Hr & Hc & Hmax & _).
  unfold m_cofactor_rec, assert. rewrite Hsq, Z.eqb_refl. simpl.
  rewrite <- Hsq.
  rewrite (for_loopM_nested (rows M) (rows M)
             (λ i j (st : matrix_t T * matrix_t T),
                let '(A, R) := st in
                let A := cofactor_fill indeterminate M A i j in
                val ← m_determinant_rec indeterminate indeterminate_int fuel A;
                let sign := 1 - 2 * Z.lxor (i `rem` 2) (j `rem` 2) in
                let val := p_mul val (p_of_int sign) in
                mret (A, elem_set R j i val))).
  set (P := λ (l : list (Z * Z)) (st : matrix_t T * matrix_t T),
    well_formed st.1 ∧ rows st.1 = rows M - 1 ∧ cols st.1 = cols M - 1 ∧
    well_formed st.2 ∧ same_shape st.2 M ∧
    ∀ i j, (i, j) ∈ l →
      (0 ≤ i < rows M ∧ 0 ≤ j < cols M) ∧
      ∃ val,
        m_determinant_rec indeterminate indeterminate_int fuel
          (minor indeterminate M i j) = Returns val ∧
        elem indeterminate st.2 j i
        = p_mul val (p_of_int (if Z.even (i + j) then 1 else -1))).
  match goal with |- context [foldlM ?f ?s0 ?l] =>
    destruct (foldlM_visited P f s0 l) as ([A R] & -> & HP) end.
  - unfold P. simpl.
    assert ((rows M - 1) * (rows M - 1) ≤ rows M * rows M) by nia.
    split; [apply m_initialize_well_formed; lia|]. do 2 (split; [lia|]).
    split; [apply m_initialize_well_formed; lia|]. split; [by split|].
    intros i j Hij. by apply not_elem_of_nil in Hij.
  - intros l1 [i j] [A R] [Hi Hj]%elem_of_row_major
      (HwfA & HrA & HcA & HwfR & [HrR HcR] & Hcells).
    simpl in *.
    rewrite (cofactor_fill_minor M A i j) by (done || lia).
    destruct (m_determinant_fuel_sufficient indeterminate indeterminate_int
                fuel (minor indeterminate M i j)) as [val Hval];
      [simpl; lia..|].
    rewrite Hval. simpl. eexists. split; [done|]. unfold P. simpl.
    split; [apply minor_well_formed; (done || lia)|]. do 2 (split; [done|]).
    split; [by apply elem_set_well_formed|]. split; [by split|].
    intros i' j' Hij'.
    assert (Hrange : 0 ≤ i' < rows M ∧ 0 ≤ j' < cols M).
    { apply elem_of_app in Hij' as [Hold|Hnew].
      - by apply Hcells.
      - apply list_elem_of_singleton in Hnew. simplify_eq. lia. }
    split; [exact Hrange|].
    destruct (decide ((i', j') = (i, j))) as [Heq|Hne].
    + simplify_eq. exists val. split; [done|].
      rewrite elem_elem_set_eq by (done || lia).
      by rewrite cofactor_sign by lia.
    + apply elem_of_app in Hij' as [Hold|Hnew].
      * destruct (Hcells i' j' Hold) as (_ & val' & Hval' & Helem).
        exists val'. split; [done|].
        rewrite elem_elem_set_ne; [done|lia..|]. intros Heq. simplify_eq.
      * apply list_elem_of_singleton in Hnew. by simplify_eq.
  - simpl. exists R. split; [done|].
    destruct HP as (_ & _ & _ & HwfR & Hshape & Hcells). simpl in *.
    do 2 (split; [done|]). intros i j Hi Hj.
    apply Hcells, elem_of_row_major. lia.
Qed.
(** The inner loop of "Fill matrix" writes column [c] of [A] from the
    rows 1.. of column [k] of [M]. *)
Lemma determinant_fill_column (M A : matrix_t T) (k c : Z) :
  well_formed A → rows A = rows M - 1 → 0 ≤ c < cols A → 1 ≤ rows M →
  let A' := for_loop 1 (rows M) (λ i A,
              elem_set A (i - 1) c (elem indeterminate M i k)) A in
  well_formed A' ∧ same_shape A' A ∧
  (∀ r c', 0 ≤ r < rows A → 0 ≤ c' < cols A → c' ≠ c →
     elem indeterminate A' r c' = elem indeterminate A r c') ∧
  (∀ r, 0 ≤ r < rows M - 1 →
     elem indeterminate A' r c = elem indeterminate M (r + 1) k).
Proof.
  intros Hwf Hrows Hc Hn A'.
  assert (Hinv :
    well_formed A' ∧ same_shape A' A ∧
    (∀ r c', 0 ≤ r < rows A → 0 ≤ c' < cols A → c' ≠ c →
       elem indeterminate A' r c' = elem indeterminate A r c') ∧
    (∀ r, 0 ≤ r < rows M - 1 →
       elem indeterminate A' r c = elem indeterminate M (r + 1) k)).
  { unfold A'.
    apply (for_loop_ind
      (λ i (A1 : matrix_t T),
         well_formed A1 ∧ same_shape A1 A ∧
         (∀ r c', 0 ≤ r < rows A → 0 ≤ c' < cols A → c' ≠ c →
            elem indeterminate A1 r c' = elem indeterminate A r c') ∧
         (∀ r, 0 ≤ r < i - 1 →
            elem indeterminate A1 r c = elem indeterminate M (r + 1) k)));
      [lia| |].
    - do 3 (split; [done|]). intros; lia.
    - intros i A1 Hi (Hwf1 & [Hr1 Hc1] & Hothers & Hdone). cbv zeta.
      split; [by apply elem_set_well_formed|]. split; [done|]. split.
      + intros r c' Hr Hc' Hne.
        rewrite elem_elem_set_ne; [by apply Hothers|lia..|].
        intros Heq. simplify_eq.
      + intros r Hr. destruct (decide (r = i - 1)) as [->|Hne].
        * rewrite elem_elem_set_eq by (done || lia). f_equal. lia.
        * rewrite elem_elem_set_ne; [apply Hdone; lia|lia..|].
          intros Heq. simplify_eq. }
  exact Hinv.
Qed.

(** The loops of "Fill matrix" make [A] the minor without row 0 and
    column [j], and leave [i] at [M->rows]. *)
Lemma determinant_fill_minor (M A : matrix_t T) (i j : Z) :
  well_formed M → well_formed A →
  rows A = rows M - 1 → cols A = cols M - 1 →
  1 ≤ rows M → 2 ≤ cols M → 0 ≤ j < cols M →
  determinant_fill indeterminate M A i j
  = (minor indeterminate M 0 j, rows M).
Proof.
  intros HwfM HwfA HrA HcA Hn Hm Hj.
  set (loop := for_loop 0 (cols M) (λ k '(A, i, c),
        if k =? j then (A, i, c)
        else
          let A := for_loop 1 (rows M) (λ i A,
                     let r := i - 1 in
                     elem_set A r c (elem indeterminate M i k)) A in
          let i := for_end 1 (rows M) in
          (A, i, c + 1)) (A, i, 0)).
  assert (Hloop :
    well_formed loop.1.1 ∧ same_shape loop.1.1 A ∧
    loop.2 = (if cols M <=? j then cols M else cols M - 1) ∧
    (0 < loop.2 → loop.1.2 = rows M) ∧
    ∀ r c, 0 ≤ r < rows M - 1 → 0 ≤ c < loop.2 →
      elem indeterminate loop.1.1 r c
      = elem indeterminate M (skip 0 r) (skip j c)).
  { unfold loop.
    apply (for_loop_ind
      (λ k (s : matrix_t T * Z * Z),
         well_formed s.1.1 ∧ same_shape s.1.1 A ∧
         s.2 = (if k <=? j then k else k - 1) ∧
         (0 < s.2 → s.1.2 = rows M) ∧
         ∀ r c, 0 ≤ r < rows M - 1 → 0 ≤ c < s.2 →
           elem indeterminate s.1.1 r c
           = elem indeterminate M (skip 0 r) (skip j c))); [lia| |].
    - simpl. do 2 (split; [done|]).
      rewrite (proj2 (Z.leb_le _ _)) by lia.
      split; [done|]. split; intros; lia.
    - intros k [[A' i'] c] Hk (Hwf' & [Hr' Hc'] & Hcol & Hi' & Hdone).
      simpl in *. destruct (Z.eqb_spec k j) as [->|Hne].
      + simpl. rewrite (proj2 (Z.leb_le _ _)) in Hcol by lia.
        rewrite (proj2 (Z.leb_gt _ _)) by lia.
        do 2 (split; [done|]). split; [lia|]. done.
      + assert (Hc0 : 0 ≤ c < cols A' ∧
                      c + 1 = (if k + 1 <=? j then k + 1 else k + 1 - 1) ∧
                      skip j c = k).
        { destruct (Z.leb_spec k j), (Z.leb_spec (k + 1) j); try lia.
          - rewrite skip_below by lia. lia.
          - rewrite skip_above by lia. lia. }
        destruct Hc0 as (Hcr & Hnext & Hskip).
        destruct (determinant_fill_column M A' k c)
          as (Hwf'' & [Hr'' Hc''] & Hothers & Hnew); [done|lia|done|done|].
        simpl. split; [done|]. split; [split; congruence|].
        split; [exact Hnext|]. split; [unfold for_end; lia|].
        intros r c' Hr Hc'0. destruct (decide (c' = c)) as [->|Hc'ne].
        * rewrite Hnew by done. rewrite Hskip. by rewrite skip_above by lia.
        * rewrite Hothers by lia. apply Hdone; lia. }
  unfold determinant_fill. fold loop.
  destruct loop as [[A' i'] c]. simpl in Hloop.
  destruct Hloop as (Hwf' & [Hr' Hc'] & Hcol & Hi' & Hcells).
  rewrite (proj2 (Z.leb_gt _ _)) in Hcol by lia.
  f_equal; [|apply Hi'; lia].
  apply (matrix_ext indeterminate); [done| |simpl; lia..|].
  { apply minor_well_formed; [done|lia..]. }
  intros r c0 Hr Hc0. rewrite Hr', HrA in Hr. rewrite Hc', HcA in Hc0.
  rewrite elem_minor by done. apply Hcells; lia.
Qed.
(** C9. The recursive determinant terminates on every square matrix of
    order n >= 1: the matrix handed to each recursive call is the minor
    without row 0 and one column, of order n - 1, so order + 1 units of
    fuel let the recursion reach its end; the cofactor matrix, which calls
    the determinant on minors of order n - 1 only, terminates as well. *)
Theorem m_determinant_terminates (M : matrix_t T) :
  well_formed M → rows M = cols M → 1 ≤ rows M →
  (3 ≤ rows M →
   ∀ A i j, well_formed A →
     same_shape A (m_initialize indeterminate (rows M - 1) (cols M - 1)) →
     0 ≤ j < cols M →
     determinant_fill indeterminate M A i j
     = (minor indeterminate M 0 j, rows M)) ∧
  (∀ A i j, well_formed A →
     same_shape A (m_initialize indeterminate (rows M - 1) (cols M - 1)) →
     0 ≤ i < rows M → 0 ≤ j < cols M →
     cofactor_fill indeterminate M A i j = minor indeterminate M i j) ∧
  (∀ i j, rows (minor indeterminate M i j) = rows M - 1 ∧
          cols (minor indeterminate M i j) = rows M - 1) ∧
  (∀ fuel, (Z.to_nat (rows M) < fuel)%nat →
     returned (m_determinant_rec indeterminate indeterminate_int fuel M) ∧
     returned (m_cofactor_rec indeterminate indeterminate_int fuel M)) ∧
  returned (m_determinant indeterminate indeterminate_int M) ∧
  returned (m_cofactor indeterminate indeterminate_int M).
Proof.
  intros Hwf Hsq Hn. split; [|split; [|split; [|split; [|split]]]].
  - intros Hn3 A i j HA [Hr Hc] Hj. simpl in Hr, Hc.
    apply determinant_fill_minor; (done || lia).
  - intros A i j HA [Hr Hc] Hi Hj. simpl in Hr, Hc.
    by apply cofactor_fill_minor.
  - intros i j. simpl. lia.
  - intros fuel Hfuel. split.
    + by apply m_determinant_fuel_sufficient.
    + apply m_cofactor_fuel_sufficient; [done|lia].
  - apply m_determinant_fuel_sufficient; [done|]. unfold enough_fuel. lia.
  - apply m_cofactor_fuel_sufficient; [done|]. unfold enough_fuel. lia.
Qed.
End Cofactor.

Lemma m_determinant_terminates_witness :
  returned (m_determinant stale_heap_Q 0 sample_3x3) ∧
  returned (m_cofactor stale_heap_Q 0 sample_3x3).
Proof.
  destruct (m_determinant_terminates stale_heap_Q 0 sample_3x3)
    as (_ & _ & _ & _ & Hdet & Hcof).
  - unfold well_formed, INT_MAX. simpl. lia.
  - reflexivity.
  - simpl. lia.
  - split; [exact Hdet|exact Hcof].
Defined.

Example m_cofactor_sample_3x3 :
  m_cofactor stale_heap_Q 0 sample_3x3
  = Returns (Matrix 3 3 [12; 1; -3; -4; 8; 1; 1; -2; 6]%Q).
Proof. vm_compute. reflexivity. Qed.

(** ** The cells of the identity *)

Section Identity.
Context {T : Type} {PR : Precision T}.
Context (indeterminate : Z → T).

Lemma m_identity_cells (n : Z) :
  0 ≤ n → n * n ≤ INT_MAX →
  well_formed (m_identity n) ∧ rows (m_identity n) = n ∧
  cols (m_identity n) = n ∧
  ∀ i j, 0 ≤ i < n → 0 ≤ j < n →
    elem indeterminate (m_identity n) i j = if i =? j then one else zero.
Proof.
  intros Hn Hmax. unfold m_identity.
  set (Z0 := Matrix n n (replicate (Z.to_nat (n * n)) zero)).
  pose (P := λ k (M : matrix_t T),
            well_formed M ∧ rows M = n ∧ cols M = n ∧
            ∀ i j, 0 ≤ i < n → 0 ≤ j < n →
              elem indeterminate M i j
              = if (i =? j) && (i <? k) then one else zero).
  assert (Hgen : P n (for_loop 0 n (λ i M, elem_set M i i one) Z0)).
  { apply (for_loop_ind P); [done| |]; unfold P.
    - split; [|split; [done|split; [done|]]].
      { unfold well_formed, Z0. simpl. rewrite length_replicate. lia. }
      intros i j Hi Hj. rewrite (proj2 (Z.ltb_ge i 0)) by lia.
      rewrite andb_false_r. unfold elem, elem_index, Z0. simpl.
      pose proof (cell_index_range n n i j Hi Hj).
      apply load_lookup; [lia|]. apply lookup_replicate_2. lia.
    - intros k M Hk (Hwf & Hr & Hc & Hcells).
      split; [by apply elem_set_well_formed|]. split; [done|].
      split; [done|]. intros i j Hi Hj.
      destruct (decide (i = k ∧ j = k)) as [[-> ->]|Hne].
      + rewrite elem_elem_set_eq by (done || lia).
        rewrite Z.eqb_refl, (proj2 (Z.ltb_lt k (k + 1))) by lia. done.
      + rewrite elem_elem_set_ne by (lia || (intros [= ??]; lia)).
        rewrite Hcells by done.
        destruct (i =? j) eqn:Hij; [|done]. apply Z.eqb_eq in Hij. simpl.
        destruct (i <? k) eqn:H1, (i <? k + 1) eqn:H2; try done;
          [apply Z.ltb_lt in H1; apply Z.ltb_ge in H2; lia
          |apply Z.ltb_ge in H1; apply Z.ltb_lt in H2; lia]. }
  destruct Hgen as (Hwf & Hr & Hc & Hcells).
  do 3 (split; [done|]). intros i j Hi Hj. rewrite Hcells by done.
  by rewrite (proj2 (Z.ltb_lt i n)), andb_true_r by lia.
Qed.

(** Without its first row and first column the identity is the identity
    of the order below. *)
Lemma minor_identity (n : Z) :
  1 ≤ n → n * n ≤ INT_MAX →
  minor indeterminate (m_identity n) 0 0 = m_identity (n - 1).
Proof.
  intros Hn Hmax.
  destruct (m_identity_cells n) as (Hwf & Hr & Hc & Hcells); [lia|done|].
  destruct (m_identity_cells (n - 1)) as (Hwf' & Hr' & Hc' & Hcells');
    [lia|nia|].
  apply (matrix_ext indeterminate).
  - apply minor_well_formed; (done || lia).
  - done.
  - simpl. lia.
  - simpl. lia.
  - simpl. rewrite Hr, Hc. intros i j Hi Hj.
    rewrite elem_minor by lia. rewrite !skip_above by lia.
    rewrite Hcells, Hcells' by lia.
    destruct (i =? j) eqn:H1, (i + 1 =? j + 1) eqn:H2; try done;
      [apply Z.eqb_eq in H1; apply Z.eqb_neq in H2; lia
      |apply Z.eqb_neq in H1; apply Z.eqb_eq in H2; lia].
Qed.
End Identity.

(** ** What [m_determinant] computes, in exact arithmetic *)

Section DeterminantSign.
Context (indeterminate : Z → Q) (indeterminate_int : Z).

Local Open Scope Q_scope.

Lemma determinant_spec_expansion (n : nat) (M : matrix_t Q) :
  (3 ≤ n)%nat →
  determinant_spec indeterminate n M
  = for_loop 0 (cols M) (λ j det,
      let sign := if Z.even j then 1%Z else (-1)%Z in
      p_add det (p_mul (p_mul (p_of_int sign) (elem indeterminate M 0 j))
                       (determinant_spec indeterminate (n - 1)
                          (minor indeterminate M 0 j)))) zero.
Proof.
  intros Hn. destruct n as [|[|[|n]]]; [lia..|].
  by replace (S (S (S n)) - 1)%nat with (S (S n)) by lia.
Qed.

Lemma sign_defect_step (n : nat) :
  (3 ≤ n)%nat →
  sign_defect n
  = ((if Z.even (Z.of_nat n) then 1 else -1) * sign_defect (n - 1))%Z.
Proof.
  intros Hn. destruct n as [|[|[|n]]]; [lia..|].
  by replace (S (S (S n)) - 1)%nat with (S (S n)) by lia.
Qed.

(** One term of the expansion, as the code and as the specification add
    it. *)
Lemma determinant_term (n : Z) (j : Z) (c' det spec x val spec_val : Q) :
  (0 ≤ n)%Z → (0 ≤ j)%Z →
  let e := inject_Z (if Z.even n then 1 else -1) in
  det == e * c' * spec → val == c' * spec_val →
  p_add det (p_mul (p_mul (p_of_int
                      (1 - 2 * Z.lxor (n `rem` 2) (j `rem` 2))%Z) x) val)
  == e * c' *
     p_add spec (p_mul (p_mul (p_of_int (if Z.even j then 1 else -1)%Z) x)
                       spec_val).
Proof.
  intros Hn Hj e Hdet Hval. simpl. rewrite !Qred_correct.
  rewrite cofactor_sign by done. rewrite Z.even_add. rewrite Hdet, Hval.
  unfold e. destruct (Z.even n), (Z.even j); simpl; ring.
Qed.

(** By induction on the order: the result of [m_determinant_rec] is the
    first-row expansion up to [sign_defect]. *)
Lemma m_determinant_rec_sign (n : nat) :
  ∀ (fuel : nat) (M : matrix_t Q),
    well_formed M → rows M = Z.of_nat n → cols M = Z.of_nat n →
    (1 ≤ n)%nat → (n < fuel)%nat →
    ∃ v, m_determinant_rec indeterminate indeterminate_int fuel M = Returns v
         ∧ v == inject_Z (sign_defect n) * determinant_spec indeterminate n M.
Proof.
  induction n as [|n IH]; intros fuel M Hwf Hr Hc Hn Hfuel; [lia|].
  destruct fuel as [|fuel]; [lia|].
  destruct (decide (n = 0%nat)) as [->|Hn1].
  { eexists. simpl. unfold assert. rewrite Hr, Hc. simpl.
    split; [done|]. ring. }
  destruct (decide (n = 1%nat)) as [->|Hn2].
  { eexists. simpl. unfold assert. rewrite Hr, Hc. simpl.
    split; [done|]. rewrite !Qred_correct. ring. }
  assert (3 ≤ S n)%nat as Hn3 by lia.
  rewrite (determinant_spec_expansion (S n) M Hn3), (sign_defect_step _ Hn3).
  replace (S n - 1)%nat with n by lia.
  remember (Z.of_nat (S n)) as N eqn:HN.
  cbn [m_determinant_rec]. unfold assert.
  rewrite Hr, Hc, Z.eqb_refl. cbn [mbind outcome_bind].
  destruct (N <? 1)%Z eqn:H1; [apply Z.ltb_lt in H1; lia|].
  destruct (N =? 1)%Z eqn:H2; [apply Z.eqb_eq in H2; lia|].
  destruct (N =? 2)%Z eqn:H3; [apply Z.eqb_eq in H3; lia|].
  unfold for_loopM, for_loop.
  set (c' := inject_Z (sign_defect n)).
  set (e := inject_Z (if Z.even N then 1 else -1)).
  match goal with |- context [foldl ?g zero ?l] =>
    match goal with |- context [foldlM ?f ?s0 l] =>
      destruct (foldlM_visited
        (λ (js : list Z) (st : Q * matrix_t Q * Z),
           well_formed st.1.2 ∧ rows st.1.2 = (rows M - 1)%Z
           ∧ cols st.1.2 = (cols M - 1)%Z
           ∧ st.1.1 == e * c' * foldl g zero js) f s0 l)
        as ([[det A] i] & -> & _ & _ & _ & Hdet)
    end
  end.
  - simpl. split; [|split; [lia|split; [lia|ring]]].
    destruct Hwf as (_ & _ & Hmax & _). rewrite Hr, Hc in Hmax.
    apply m_initialize_well_formed; [lia|lia|nia].
  - intros js j [[det A] i] Hj (HwfA & HrA & HcA & Hdet). simpl in *.
    apply elem_of_seqZ in Hj.
    rewrite (determinant_fill_minor indeterminate M A i j)
      by (done || lia).
    destruct (IH fuel (minor indeterminate M 0 j)) as (val & -> & Hval);
      [apply minor_well_formed; (done || lia)|simpl; lia|simpl; lia|lia|lia|].
    simpl mbind. eexists. split; [done|]. simpl fst. simpl snd.
    split; [apply minor_well_formed; (done || lia)|].
    split; [done|]. split; [done|].
    rewrite foldl_snoc. rewrite Hr.
    apply (determinant_term N j c'); [lia|lia|done|done].
  - eexists. split; [done|]. cbn [fst snd] in Hdet. rewrite Hdet.
    unfold e, c'. rewrite inject_Z_mult. reflexivity.
Qed.

(** The first-row expansion of the identity is 1. *)
Lemma determinant_spec_identity (n : nat) :
  (1 ≤ n)%nat → (Z.of_nat n * Z.of_nat n ≤ INT_MAX)%Z →
  determinant_spec indeterminate n (m_identity (Z.of_nat n)) == 1.
Proof.
  induction n as [|n IH]; intros Hn Hmax; [lia|].
  destruct (m_identity_cells indeterminate (Z.of_nat (S n)))
    as (Hwf & Hr & Hc & Hcells); [lia|done|].
  destruct (decide (n = 0%nat)) as [->|Hn1].
  { simpl determinant_spec. by rewrite Hcells by lia. }
  destruct (decide (n = 1%nat)) as [->|Hn2].
  { simpl determinant_spec. by rewrite !Hcells by lia. }
  rewrite determinant_spec_expansion by lia.
  replace (S n - 1)%nat with n by lia. rewrite Hc.
  pose (P := λ (j : Z) (det : Q), det == if (j =? 0)%Z then 0 else 1).
  assert (Hloop : ∀ g, (∀ j det, (0 ≤ j < Z.of_nat (S n))%Z →
              P j det → P (j + 1)%Z (g j det)) →
            P (Z.of_nat (S n)) (for_loop 0 (Z.of_nat (S n)) g zero)).
  { intros g Hg. apply (for_loop_ind P); [lia|done|done]. }
  match goal with |- for_loop _ _ ?g _ == _ =>
    pose proof (Hloop g) as Hend end.
  unfold P in Hend. rewrite Hend.
  { by rewrite (proj2 (Z.eqb_neq _ 0)) by lia. }
  intros j det Hj Hdet. rewrite (proj2 (Z.eqb_neq (j + 1) 0)) by lia.
  cbn [p_add p_mul p_of_int Q_precision]. rewrite !Qred_correct, Hdet.
  rewrite Hcells by lia.
  destruct (decide (j = 0%Z)) as [->|Hj0].
  - rewrite minor_identity by (done || lia).
    replace (Z.of_nat (S n) - 1)%Z with (Z.of_nat n) by lia.
    rewrite IH by (lia || nia). simpl. ring.
  - rewrite (proj2 (Z.eqb_neq j 0)) by done.
    rewrite (proj2 (Z.eqb_neq 0 j)) by lia. unfold zero. simpl. ring.
Qed.

(** The first-row expansion of a matrix with a row of zeros is 0. *)
Lemma determinant_spec_zero_row (n : nat) :
  ∀ (M : matrix_t Q) (r : Z),
    well_formed M → rows M = Z.of_nat n → cols M = Z.of_nat n →
    (0 ≤ r < Z.of_nat n)%Z →
    (∀ c, (0 ≤ c < Z.of_nat n)%Z → elem indeterminate M r c == 0) →
    determinant_spec indeterminate n M == 0.
Proof.
  induction n as [|n IH]; intros M r Hwf Hr Hc Hrow Hzero; [lia|].
  destruct (decide (n = 0%nat)) as [->|Hn1].
  { simpl determinant_spec. assert (r = 0%Z) as -> by lia.
    apply Hzero. lia. }
  destruct (decide (n = 1%nat)) as [->|Hn2].
  { simpl determinant_spec. rewrite !Qred_correct.
    destruct (decide (r = 0%Z)) as [->|Hr0].
    - rewrite (Hzero 0%Z), (Hzero 1%Z) by lia. ring.
    - assert (r = 1%Z) as -> by lia.
      rewrite (Hzero 0%Z), (Hzero 1%Z) by lia. ring. }
  rewrite determinant_spec_expansion by lia.
  replace (S n - 1)%nat with n by lia. rewrite Hc.
  apply (for_loop_ind (λ _ (det : Q), det == 0)); [lia|done|].
  intros j det Hj Hdet.
  cbn [p_add p_mul p_of_int Q_precision]. rewrite !Qred_correct, Hdet.
  destruct (decide (r = 0%Z)) as [->|Hr0].
  - rewrite (Hzero j) by lia. ring.
  - rewrite (IH (minor indeterminate M 0 j) (r - 1)%Z); [ring| | | | |].
    + apply minor_well_formed; (done || lia).
    + simpl. lia.
    + simpl. lia.
    + lia.
    + intros c Hcr. rewrite elem_minor by lia.
      rewrite (skip_above 0) by lia.
      replace (r - 1 + 1)%Z with r by lia.
      apply Hzero. unfold skip. destruct (c <? j)%Z; lia.
Qed.

(** The code on the identity of any order: 1 up to [sign_defect]. *)
Lemma m_determinant_identity_exact (n : nat) :
  (1 ≤ n)%nat → (Z.of_nat n * Z.of_nat n ≤ INT_MAX)%Z →
  ∃ v, m_determinant indeterminate indeterminate_int
         (m_identity (Z.of_nat n)) = Returns v
       ∧ v == inject_Z (sign_defect n).
Proof.
  intros Hn Hmax.
  destruct (m_identity_cells indeterminate (Z.of_nat n))
    as (Hwf & Hr & Hc & _); [lia|done|].
  destruct (m_determinant_rec_sign n
              (enough_fuel (m_identity (Z.of_nat n)))
              (m_identity (Z.of_nat n))) as (v & Hv & Heq);
    [done..|unfold enough_fuel; rewrite Hr; lia|].
  exists v. split; [done|].
  rewrite Heq, determinant_spec_identity by done. ring.
Qed.

(** X19. In exact arithmetic [m_determinant] returns 0 for a square
    matrix of any order that has a row of zeros. *)
Lemma m_determinant_zero_row_exact (n : nat) (M : matrix_t Q) (r : Z) :
  well_formed M → rows M = Z.of_nat n → cols M = Z.of_nat n →
  (0 ≤ r < Z.of_nat n)%Z →
  (∀ c, (0 ≤ c < Z.of_nat n)%Z → elem indeterminate M r c == 0) →
  ∃ v, m_determinant indeterminate indeterminate_int M = Returns v ∧ v == 0.
Proof.
  intros Hwf Hr Hc Hrow Hzero.
  destruct (m_determinant_rec_sign n (enough_fuel M) M) as (v & Hv & Heq);
    [done|done|done|lia|unfold enough_fuel; rewrite Hr; lia|].
  exists v. split; [done|].
  rewrite Heq, (determinant_spec_zero_row n M r) by done. ring.
Qed.

(** [sign_defect] in closed form: -1 at the orders 3, 4, 7, 8, 11, 12,
    ... *)
Lemma sign_defect_closed (n : nat) :
  sign_defect n
  = if (3 <=? Z.of_nat n)%Z
       && ((Z.of_nat n mod 4 =? 3)%Z || (Z.of_nat n mod 4 =? 0)%Z)
    then (-1)%Z else 1%Z.
Proof.
  induction n as [|n IH]; [done|].
  destruct (decide (n < 2)%nat) as [Hlt|Hge].
  { destruct n as [|[|n]]; [done|done|lia]. }
  rewrite sign_defect_step by lia.
  replace (S n - 1)%nat with n by lia. rewrite IH.
  rewrite (proj2 (Z.leb_le 3 (Z.of_nat (S n)))) by lia.
  rewrite Nat2Z.inj_succ, <- Z.add_1_r.
  set (z := Z.of_nat n). assert (2 ≤ z)%Z as Hz by lia.
  pose proof (Z.mod_pos_bound z 4 eq_refl) as Hbound.
  pose proof (Z.div_mod z 4) as Hdiv.
  assert (Heven : Z.even (z + 1) = negb (Z.even (z mod 4))).
  { rewrite Hdiv at 1 by lia.
    rewrite !Z.even_add, Z.even_mul. simpl. by destruct (Z.even (z mod 4)). }
  rewrite Heven, (Z.add_mod z 1 4) by lia.
  assert (z mod 4 = 0 ∨ z mod 4 = 1 ∨ z mod 4 = 2 ∨ z mod 4 = 3)%Z
    as [Hm|[Hm|[Hm|Hm]]] by lia; rewrite Hm; simpl;
    destruct (3 <=? z)%Z eqn:H3; try done; apply Z.leb_gt in H3; lia.
Qed.

(** X20. The code of the cofactor matrix in exact arithmetic, at every
    order n >= 2: the cell R(j,i) is the signed minor of row i and
    column j up to the [sign_defect] of order n - 1, so it is right for
    n <= 3 and negated for n = 4 and n = 5. *)
Lemma m_cofactor_exact (n : nat) (M : matrix_t Q) :
  well_formed M → rows M = Z.of_nat n → cols M = Z.of_nat n →
  (2 ≤ n)%nat →
  ∃ R, m_cofactor indeterminate indeterminate_int M = Returns R ∧
    ∀ i j, (0 ≤ i < rows M)%Z → (0 ≤ j < cols M)%Z →
      elem indeterminate R j i
      == inject_Z (sign_defect (n - 1))
         * signed_minor_spec indeterminate M i j.
Proof.
  intros Hwf Hr Hc Hn.
  destruct (m_cofactor_cells indeterminate indeterminate_int M
              (enough_fuel M)) as (R & HR & _ & _ & Hcells);
    [done|lia|lia|unfold enough_fuel; lia|].
  exists R. split; [done|]. intros i j Hi Hj.
  destruct (Hcells i j Hi Hj) as (val & Hval & ->).
  destruct (m_determinant_rec_sign (n - 1) (enough_fuel M)
              (minor indeterminate M i j)) as (v & Hv & Heq);
    [apply minor_well_formed; (done || lia)|simpl; lia|simpl; lia|lia
    |unfold enough_fuel; lia|].
  rewrite Hval in Hv. injection Hv as ->.
  unfold signed_minor_spec.
  replace (Z.to_nat (rows M - 1)) with (n - 1)%nat by lia.
  cbn [p_mul Q_precision]. rewrite !Qred_correct, Heq. ring.
Qed.
End DeterminantSign.

(** * The rest of matrix.c *)

(** ** Elementwise operations with a scalar *)

Section Scalar.
Context {T : Type} {PR : Precision T} {CV : Conversion T}.
Context (indeterminate : Z → T).

Lemma elementwise_loops (op : T → T) (M : matrix_t T) :
  well_formed M →
  elementwise indeterminate op M
    (for_loop 0 (rows M) (λ i M,
       for_loop 0 (cols M) (λ j M,
         elem_set M i j (op (elem indeterminate M i j))) M) M).
Proof.
  intros Hwf.
  destruct (for_loops_elem_set indeterminate (λ _ _ v, op v) M Hwf)
    as (Hwf' & Hr & Hc & Hcells).
  done.
Qed.

(** X1. The five scalar operations change every cell of [M] once, from
    what that cell held, and nothing else: the result has the shape of
    [M], and cell (i,j) is [- M(i,j)], [M(i,j) * x], [M(i,j) / x],
    [x / M(i,j)] and [M(i,j) + x] respectively. *)
Theorem scalar_operations (M : matrix_t T) (x : T) :
  well_formed M →
  elementwise indeterminate p_neg M (m_elem_negate indeterminate M) ∧
  elementwise indeterminate (λ v, p_mul v x) M (m_elem_mult indeterminate M x) ∧
  elementwise indeterminate (λ v, p_div v x) M
    (m_elem_divideByConst indeterminate M x) ∧
  elementwise indeterminate (λ v, p_div x v) M
    (m_elem_divideByMatrix indeterminate M x) ∧
  elementwise indeterminate (λ v, p_add v x) M (m_elem_add indeterminate M x).
Proof.
  intros Hwf. repeat split_and; by apply elementwise_loops.
Qed.
End Scalar.

Section ScalarExact.
Context (indeterminate : Z → Q).

Local Open Scope Q_scope.

(** Two elementwise passes in a row. *)
Lemma elementwise_twice (f g : Q → Q) (M M1 M2 : matrix_t Q) (i j : Z) :
  elementwise indeterminate f M M1 → elementwise indeterminate g M1 M2 →
  (0 ≤ i < rows M)%Z → (0 ≤ j < cols M)%Z →
  elem indeterminate M2 i j = g (f (elem indeterminate M i j)).
Proof.
  intros (_ & [Hr Hc] & H1) (_ & _ & H2) Hi Hj.
  rewrite H2, H1 by (rewrite ?Hr, ?Hc; done). done.
Qed.

(** X2. In exact arithmetic the scalar operations undo each other cell
    by cell: dividing by [x] after multiplying by [x], adding [-x] after
    adding [x], negating twice, and dividing [x] by the quotients of [x]
    give back the elements of [M] ([x] and, for the last one, the element
    being non-zero). *)
Theorem scalar_round_trips (M : matrix_t Q) (x : Q) (i j : Z) :
  well_formed M → ¬ x == 0 →
  (0 ≤ i < rows M)%Z → (0 ≤ j < cols M)%Z →
  elem indeterminate
    (m_elem_divideByConst indeterminate (m_elem_mult indeterminate M x) x) i j
  == elem indeterminate M i j ∧
  elem indeterminate
    (m_elem_add indeterminate (m_elem_add indeterminate M x) (p_neg x)) i j
  == elem indeterminate M i j ∧
  elem indeterminate
    (m_elem_negate indeterminate (m_elem_negate indeterminate M)) i j
  == elem indeterminate M i j ∧
  (¬ elem indeterminate M i j == 0 →
   elem indeterminate
     (m_elem_divideByMatrix indeterminate
        (m_elem_divideByMatrix indeterminate M x) x) i j
   == elem indeterminate M i j).
Proof.
  intros Hwf Hx Hi Hj.
  pose proof (elementwise_loops indeterminate (λ v, p_mul v x) M Hwf) as Hmul.
  pose proof (elementwise_loops indeterminate (λ v, p_add v x) M Hwf) as Hadd.
  pose proof (elementwise_loops indeterminate p_neg M Hwf) as Hneg.
  pose proof (elementwise_loops indeterminate (λ v, p_div x v) M Hwf) as Hdiv.
  pose proof (elementwise_loops indeterminate (λ v, p_div v x) _ (proj1 Hmul))
    as Hmul'.
  pose proof (elementwise_loops indeterminate (λ v, p_add v (p_neg x)) _
                (proj1 Hadd)) as Hadd'.
  pose proof (elementwise_loops indeterminate p_neg _ (proj1 Hneg)) as Hneg'.
  pose proof (elementwise_loops indeterminate (λ v, p_div x v) _ (proj1 Hdiv))
    as Hdiv'.
  repeat split_and.
  - unfold m_elem_divideByConst, m_elem_mult.
    rewrite (elementwise_twice _ _ M _ _ i j Hmul Hmul') by done.
    simpl. rewrite !Qred_correct. by field.
  - unfold m_elem_add.
    rewrite (elementwise_twice _ _ M _ _ i j Hadd Hadd') by done.
    simpl. rewrite !Qred_correct. ring.
  - unfold m_elem_negate.
    rewrite (elementwise_twice _ _ M _ _ i j Hneg Hneg') by done.
    simpl. rewrite !Qred_correct. ring.
  - intros Hne. unfold m_elem_divideByMatrix.
    rewrite (elementwise_twice _ _ M _ _ i j Hdiv Hdiv') by done.
    simpl. rewrite !Qred_correct. by field.
Qed.
End ScalarExact.

(** ** Truncation *)

Section Truncate.
Context {T : Type} {PR : Precision T} {CV : Conversion T}.
Context (indeterminate : Z → T).

Lemma foldlM_ext {St B : Type} (P : St → Prop) (f g : St → B → outcome St)
    (s : St) (l : list B) :
  P s →
  (∀ s x, P s → f s x = g s x ∧ ∀ s', g s x = Returns s' → P s') →
  foldlM f s l = foldlM g s l.
Proof.
  intros H0 Hstep. revert s H0.
  induction l as [|x l IH]; intros s H0; [done|]. simpl.
  destruct (Hstep s x H0) as [-> HP].
  destruct (g s x) as [s'| | | |]; simpl; [|done..]. by apply IH, HP.
Qed.

Lemma foldlM_invariant {St B : Type} (P : St → Prop)
    (f : St → B → outcome St) (l : list B) :
  (∀ s x s', P s → f s x = Returns s' → P s') →
  ∀ s s', P s → foldlM f s l = Returns s' → P s'.
Proof.
  intros Hstep. induction l as [|x l IH]; intros s s' H0 Hrun.
  { simpl in Hrun. by simplify_eq. }
  simpl in Hrun. destruct (f s x) as [s1| | | |] eqn:Hf; try done.
  simpl in Hrun. apply (IH s1); [|done]. by apply (Hstep s x).
Qed.

(** A pass over the cells [l] whose body may fail on what a cell holds:
    it fails if it does on some cell of [M0], and otherwise it is the
    pass that does not fail. *)
Lemma foldlM_fill (g : Z → Z → T → option T)
    (f : matrix_t T → Z * Z → outcome (matrix_t T)) (l : list (Z * Z)) :
  (∀ M ij, f M ij = match g ij.1 ij.2 (elem indeterminate M ij.1 ij.2) with
                    | Some v => Returns (elem_set M ij.1 ij.2 v)
                    | None => Undefined
                    end) →
  ∀ M0 : matrix_t T,
    NoDup l →
    (∀ ij, ij ∈ l → 0 ≤ ij.1 < rows M0 ∧ 0 ≤ ij.2 < cols M0) →
    ((∃ ij, ij ∈ l ∧ g ij.1 ij.2 (elem indeterminate M0 ij.1 ij.2) = None) →
     foldlM f M0 l = Undefined) ∧
    ((∀ ij, ij ∈ l →
        is_Some (g ij.1 ij.2 (elem indeterminate M0 ij.1 ij.2))) →
     foldlM f M0 l
     = Returns (foldl (λ M ij,
           elem_set M ij.1 ij.2
             (let v := elem indeterminate M ij.1 ij.2 in
              default v (g ij.1 ij.2 v))) M0 l)).
Proof.
  intros Hf. induction l as [|[i j] l IH]; intros M0 Hnd Hin.
  { split; [|done]. intros (ij & Hij & _). by apply elem_of_nil in Hij. }
  apply NoDup_cons in Hnd as [Hfresh Hnd].
  destruct (Hin (i, j)) as [Hi Hj]; [by left|]. simpl in Hi, Hj.
  assert (Hkeep : ∀ v ij, ij ∈ l →
            elem indeterminate (elem_set M0 i j v) ij.1 ij.2
            = elem indeterminate M0 ij.1 ij.2).
  { intros v [i' j'] Hij. destruct (Hin (i', j')) as [Hi' Hj']; [by right|].
    apply elem_elem_set_ne; try done. intros [= -> ->]. done. }
  simpl. rewrite Hf. simpl.
  destruct (g i j (elem indeterminate M0 i j)) as [v|] eqn:Hg; simpl.
  - destruct (IH (elem_set M0 i j v) Hnd) as [IHu IHr].
    { intros ij Hij. apply Hin. by right. }
    split.
    + intros (ij & Hij & Hnone). apply IHu.
      apply elem_of_cons in Hij as [->|Hij]; [simpl in Hnone; congruence|].
      exists ij. split; [done|]. by rewrite Hkeep.
    + intros Hall. apply IHr. intros ij Hij. rewrite Hkeep by done.
      apply Hall. by right.
  - split; [done|]. intros Hall.
    destruct (Hall (i, j)) as [v Hv]; [by left|]. simpl in Hv. congruence.
Qed.

Hypothesis to_int_of_int :
  ∀ n, INT_MIN ≤ n ≤ INT_MAX → p_to_int (p_of_int n) = Some n.
Hypothesis to_int_range :
  ∀ (x : T) n, p_to_int x = Some n → INT_MIN ≤ n ≤ INT_MAX.

Lemma m_elem_truncate_cells (M : matrix_t T) :
  well_formed M →
  ((∃ i j, 0 ≤ i < rows M ∧ 0 ≤ j < cols M ∧
           p_to_int (elem indeterminate M i j) = None) →
   m_elem_truncate indeterminate M = Undefined) ∧
  ((∀ i j, 0 ≤ i < rows M → 0 ≤ j < cols M →
      is_Some (p_to_int (elem indeterminate M i j))) →
   ∃ M', m_elem_truncate indeterminate M = Returns M' ∧
     well_formed M' ∧ rows M' = rows M ∧ cols M' = cols M ∧
     ∀ i j, 0 ≤ i < rows M → 0 ≤ j < cols M →
       ∃ n, p_to_int (elem indeterminate M i j) = Some n ∧
            elem indeterminate M' i j = p_of_int n).
Proof.
  intros Hwf.
  set (body := λ (i j : Z) (M : matrix_t T),
         match p_to_int (elem indeterminate M i j) with
         | Some n => mret (elem_set M i j (p_of_int n))
         | None => Undefined
         end).
  assert (Hrun : m_elem_truncate indeterminate M
                 = foldlM (λ M ij, body ij.1 ij.2 M) M
                     (row_major (rows M) (cols M))).
  { unfold m_elem_truncate. rewrite <- for_loopM_nested. unfold for_loopM.
    apply (foldlM_ext (λ M', cols M' = cols M)); [done|].
    intros M' i Hc. rewrite Hc. split; [done|].
    intros M'' Hret.
    refine (foldlM_invariant (λ M0, cols M0 = cols M) _ _ _ M' M'' Hc Hret).
    intros M3 j M4 H3. unfold body.
    destruct (p_to_int _); [|done]. intros [= <-]. done. }
  set (g := λ (_ _ : Z) (v : T), p_of_int <$> p_to_int v).
  destruct (foldlM_fill g (λ M ij, body ij.1 ij.2 M)
              (row_major (rows M) (cols M))) with (M0 := M) as [Hu Hr].
  { intros M' [i j]. unfold body, g. simpl.
    by destruct (p_to_int (elem indeterminate M' i j)). }
  { apply NoDup_row_major. }
  { intros [i j] Hij. by apply elem_of_row_major in Hij. }
  rewrite Hrun. split.
  - intros (i & j & Hi & Hj & Hnone). apply Hu. exists (i, j).
    split; [by apply elem_of_row_major|]. unfold g. simpl. by rewrite Hnone.
  - intros Hall. rewrite Hr.
    2:{ intros [i j] Hij. apply elem_of_row_major in Hij as [Hi Hj].
        unfold g. simpl. destruct (Hall i j Hi Hj) as [n ->]. by eexists. }
    eexists. split; [done|].
    destruct (foldl_elem_set_cells indeterminate
                (λ i j v, default v (g i j v))
                (row_major (rows M) (cols M)) M Hwf)
      as (Hwf' & Hr' & Hc' & Hcells); [apply NoDup_row_major| |].
    { intros [i j] Hij. by apply elem_of_row_major in Hij. }
    cbv zeta in Hwf', Hr', Hc', Hcells |- *.
    do 3 (split; [done|]). intros i j Hi Hj.
    rewrite Hcells by done.
    rewrite decide_True by (by apply elem_of_row_major).
    unfold g. destruct (Hall i j Hi Hj) as [n Hn]. exists n.
    by rewrite Hn.
Qed.

(** X3. [m_elem_truncate] converts every element to [int] and back.  If
    some element of [M] does not fit an [int] the call is undefined.
    Otherwise it returns a matrix of the same shape holding the
    truncations, and truncating that matrix again returns it
    unchanged. *)
Theorem m_elem_truncate_idempotent (M : matrix_t T) :
  well_formed M →
  ((∃ i j, 0 ≤ i < rows M ∧ 0 ≤ j < cols M ∧
           p_to_int (elem indeterminate M i j) = None) →
   m_elem_truncate indeterminate M = Undefined) ∧
  ((∀ i j, 0 ≤ i < rows M → 0 ≤ j < cols M →
      is_Some (p_to_int (elem indeterminate M i j))) →
   ∃ M', m_elem_truncate indeterminate M = Returns M' ∧
     rows M' = rows M ∧ cols M' = cols M ∧
     (∀ i j, 0 ≤ i < rows M → 0 ≤ j < cols M →
        ∃ n, p_to_int (elem indeterminate M i j) = Some n ∧
             elem indeterminate M' i j = p_of_int n) ∧
     m_elem_truncate indeterminate M' = Returns M').
Proof.
  intros Hwf. destruct (m_elem_truncate_cells M Hwf) as [Hu Hr].
  split; [done|]. intros Hall.
  destruct (Hr Hall) as (M' & Hrun & Hwf' & Hr' & Hc' & Hcells).
  exists M'. do 4 (split; [done|]).
  destruct (m_elem_truncate_cells M' Hwf') as [_ Hr2].
  destruct Hr2 as (M'' & Hrun2 & Hwf'' & Hr'' & Hc'' & Hcells2).
  { intros i j Hi Hj. rewrite Hr' in Hi. rewrite Hc' in Hj.
    destruct (Hcells i j Hi Hj) as (n & Hn & ->).
    exists n. apply to_int_of_int. by apply (to_int_range _ _ Hn). }
  rewrite Hrun2. f_equal. apply (matrix_ext indeterminate); try done; try lia.
  rewrite Hr'', Hc''. intros i j Hi Hj.
  destruct (Hcells2 i j Hi Hj) as (n2 & Hn2 & ->).
  rewrite Hr' in Hi. rewrite Hc' in Hj.
  destruct (Hcells i j Hi Hj) as (n & Hn & Heq). rewrite Heq in Hn2 |- *.
  rewrite to_int_of_int in Hn2 by (by apply (to_int_range _ _ Hn)).
  by simplify_eq.
Qed.
End Truncate.

(** ** Copy, transpose, column flip *)

Section Rearrange.
Context {T : Type} {PR : Precision T}.
Context (indeterminate : Z → T).

(** X4. The copy of a matrix is equal to it: same shape, same elements,
    whatever the new block held. *)
Theorem m_copy_equal (M : matrix_t T) :
  well_formed M → m_copy indeterminate M = M.
Proof.
  intros (_ & _ & _ & Hlen). destruct M as [r c d]. unfold m_copy. simpl in *.
  f_equal. unfold memcpy. apply list_eq. intros k.
  rewrite list_lookup_fmap.
  destruct (d !! k) as [x|] eqn:Hx.
  - pose proof (lookup_lt_Some _ _ _ Hx).
    rewrite lookup_seqZ_lt by lia. simpl. f_equal.
    apply load_lookup; [lia|]. rewrite <- Hx. f_equal. lia.
  - apply lookup_ge_None in Hx. by rewrite lookup_seqZ_ge by lia.
Qed.

Lemma m_transpose_cells (M : matrix_t T) :
  well_formed M →
  well_formed (m_transpose indeterminate M) ∧
  rows (m_transpose indeterminate M) = cols M ∧
  cols (m_transpose indeterminate M) = rows M ∧
  ∀ i j, 0 ≤ i < cols M → 0 ≤ j < rows M →
    elem indeterminate (m_transpose indeterminate M) i j
    = elem indeterminate M j i.
Proof.
  intros (Hr & Hc & Hmax & Hlen).
  assert (Hwf0 : well_formed (m_initialize indeterminate (cols M) (rows M))).
  { apply m_initialize_well_formed; lia. }
  destruct (for_loops_elem_set indeterminate
              (λ i j _, elem indeterminate M j i) _ Hwf0)
    as (Hwf' & Hr' & Hc' & Hcells).
  done.
Qed.

(** X5. The transpose of an r-by-c matrix is c-by-r with
    T(i,j) = M(j,i), and transposing twice gives the matrix back. *)
Theorem m_transpose_involutive (M : matrix_t T) :
  well_formed M →
  rows (m_transpose indeterminate M) = cols M ∧
  cols (m_transpose indeterminate M) = rows M ∧
  (∀ i j, 0 ≤ i < cols M → 0 ≤ j < rows M →
     elem indeterminate (m_transpose indeterminate M) i j
     = elem indeterminate M j i) ∧
  m_transpose indeterminate (m_transpose indeterminate M) = M.
Proof.
  intros Hwf.
  destruct (m_transpose_cells M Hwf) as (Hwf1 & Hr1 & Hc1 & Hcells1).
  destruct (m_transpose_cells _ Hwf1) as (Hwf2 & Hr2 & Hc2 & Hcells2).
  do 3 (split; [done|]).
  apply (matrix_ext indeterminate); [done|done|lia|lia|].
  rewrite Hr2, Hc1, Hc2, Hr1. intros i j Hi Hj.
  rewrite Hcells2 by lia. by apply Hcells1.
Qed.

(** One row of [m_flipCols]: after [k] swaps the [k] outermost pairs of
    cells of row [i] have changed places. *)
Lemma m_flipCols_row (M0 : matrix_t T) (i k : Z) :
  well_formed M0 → 0 ≤ i < rows M0 → 0 ≤ k ≤ cols M0 `quot` 2 →
  let M' := for_loop 0 k (λ j M,
              let temp := elem indeterminate M i j in
              let M := elem_set M i j
                         (elem indeterminate M i (cols M - j - 1)) in
              elem_set M i (cols M - j - 1) temp) M0 in
  well_formed M' ∧ rows M' = rows M0 ∧ cols M' = cols M0 ∧
  ∀ i' j', 0 ≤ i' < rows M0 → 0 ≤ j' < cols M0 →
    elem indeterminate M' i' j'
    = if (i' =? i) && ((j' <? k) || (cols M0 - k <=? j'))
      then elem indeterminate M0 i' (cols M0 - j' - 1)
      else elem indeterminate M0 i' j'.
Proof.
  intros Hwf Hi Hk.
  pose proof Hwf as (_ & Hc0 & _).
  assert (Hhalf : 2 * (cols M0 `quot` 2) ≤ cols M0).
  { pose proof (Z.quot_rem' (cols M0) 2).
    pose proof (Z.rem_nonneg (cols M0) 2). lia. }
  pose (P := λ (k : Z) (M' : matrix_t T),
    well_formed M' ∧ rows M' = rows M0 ∧ cols M' = cols M0 ∧
    ∀ i' j', 0 ≤ i' < rows M0 → 0 ≤ j' < cols M0 →
      elem indeterminate M' i' j'
      = if (i' =? i) && ((j' <? k) || (cols M0 - k <=? j'))
        then elem indeterminate M0 i' (cols M0 - j' - 1)
        else elem indeterminate M0 i' j').
  apply (for_loop_ind P); [lia| |]; unfold P.
  - do 3 (split; [done|]). intros i' j' Hi' Hj'.
    rewrite (proj2 (Z.ltb_ge j' 0)), (proj2 (Z.leb_gt (cols M0 - 0) j'))
      by lia.
    by rewrite andb_false_r.
  - intros j M Hj (HwfM & Hr & Hc & Hcells). clear P. cbv zeta.
    split; [by apply elem_set_well_formed, elem_set_well_formed|].
    do 2 (split; [done|]).
    intros i' j' Hi' Hj'. rewrite !(elem_set_cols indeterminate), Hc.
    destruct (decide (i' = i)) as [->|Hne].
    2:{ rewrite !elem_elem_set_ne
          by (simpl; rewrite ?Hr, ?Hc; (lia || (intros ?; simplify_eq; lia))).
        rewrite Hcells by done.
        by rewrite (proj2 (Z.eqb_neq i' i)). }
    rewrite Z.eqb_refl. simpl.
    destruct (decide (j' = cols M0 - j - 1)) as [->|Hne1].
    { rewrite elem_elem_set_eq
        by (try apply elem_set_well_formed; simpl; rewrite ?Hr, ?Hc;
            (done || lia)).
      rewrite Hcells by lia. rewrite Z.eqb_refl. simpl.
      rewrite (proj2 (Z.ltb_ge j j)), (proj2 (Z.leb_gt (cols M0 - j) j))
        by lia. simpl.
      rewrite (proj2 (Z.leb_le (cols M0 - (j + 1)) (cols M0 - j - 1)))
        by lia.
      rewrite orb_true_r. f_equal. lia. }
    rewrite elem_elem_set_ne
      by (simpl; rewrite ?Hr, ?Hc; (lia || (intros ?; simplify_eq; lia))).
    destruct (decide (j' = j)) as [->|Hne2].
    { rewrite elem_elem_set_eq by (rewrite ?Hr, ?Hc; (done || lia)).
      rewrite Hcells by lia. rewrite Z.eqb_refl. simpl.
      rewrite (proj2 (Z.ltb_ge (cols M0 - j - 1) j)),
        (proj2 (Z.leb_gt (cols M0 - j) (cols M0 - j - 1))) by lia. simpl.
      by rewrite (proj2 (Z.ltb_lt j (j + 1))) by lia. }
    rewrite elem_elem_set_ne
      by (rewrite ?Hr, ?Hc; (lia || (intros ?; simplify_eq; lia))).
    rewrite Hcells by done. rewrite Z.eqb_refl. simpl.
    assert ((j' <? j + 1) = (j' <? j)) as ->.
    { destruct (j' <? j) eqn:H1; [apply Z.ltb_lt in H1; apply Z.ltb_lt; lia
                                 |apply Z.ltb_ge in H1; apply Z.ltb_ge; lia]. }
    assert ((cols M0 - (j + 1) <=? j') = (cols M0 - j <=? j')) as ->; [|done].
    destruct (cols M0 - j <=? j') eqn:H1;
      [apply Z.leb_le in H1; apply Z.leb_le; lia
      |apply Z.leb_gt in H1; apply Z.leb_gt; lia].
Qed.

Lemma m_flipCols_cells (M : matrix_t T) :
  well_formed M →
  well_formed (m_flipCols indeterminate M) ∧
  rows (m_flipCols indeterminate M) = rows M ∧
  cols (m_flipCols indeterminate M) = cols M ∧
  ∀ i j, 0 ≤ i < rows M → 0 ≤ j < cols M →
    elem indeterminate (m_flipCols indeterminate M) i j
    = elem indeterminate M i (cols M - j - 1).
Proof.
  intros Hwf. pose proof Hwf as (Hr0 & Hc0 & _).
  pose proof (Z.quot_rem' (cols M) 2) as Hquot.
  pose proof (Z.rem_bound_pos (cols M) 2 Hc0 eq_refl) as Hrem.
  pose (P := λ (i : Z) (M' : matrix_t T),
    well_formed M' ∧ rows M' = rows M ∧ cols M' = cols M ∧
    ∀ i' j', 0 ≤ i' < rows M → 0 ≤ j' < cols M →
      elem indeterminate M' i' j'
      = if i' <? i then elem indeterminate M i' (cols M - j' - 1)
        else elem indeterminate M i' j').
  assert (Hend : P (rows M) (m_flipCols indeterminate M)).
  { apply (for_loop_ind P); [done| |]; unfold P.
    - do 3 (split; [done|]). intros i' j' Hi' Hj'.
      by rewrite (proj2 (Z.ltb_ge i' 0)) by lia.
    - intros i M' Hi (Hwf' & Hr & Hc & Hcells). clear P.
      destruct (m_flipCols_row M' i (cols M' `quot` 2))
        as (Hwf2 & Hr2 & Hc2 & Hcells2); [done|lia| |].
      { rewrite Hc. split; [|done]. apply Z.quot_pos; lia. }
      cbv zeta in Hwf2, Hr2, Hc2, Hcells2.
      split; [done|]. split; [lia|]. split; [lia|].
      intros i' j' Hi' Hj'. rewrite Hcells2 by lia. rewrite Hc.
      destruct (decide (i' = i)) as [->|Hne].
      + rewrite Z.eqb_refl, (proj2 (Z.ltb_lt i (i + 1))) by lia. simpl.
        destruct ((j' <? cols M `quot` 2)
                  || (cols M - cols M `quot` 2 <=? j')) eqn:Hflip.
        * rewrite Hcells by lia. by rewrite (proj2 (Z.ltb_ge i i)) by lia.
        * apply orb_false_iff in Hflip as [H1 H2].
          apply Z.ltb_ge in H1. apply Z.leb_gt in H2.
          rewrite Hcells by lia. rewrite (proj2 (Z.ltb_ge i i)) by lia.
          f_equal. lia.
      + rewrite (proj2 (Z.eqb_neq i' i)) by done. simpl.
        rewrite Hcells by lia.
        destruct (i' <? i) eqn:H1, (i' <? i + 1) eqn:H2; try done;
          [apply Z.ltb_lt in H1; apply Z.ltb_ge in H2; lia
          |apply Z.ltb_ge in H1; apply Z.ltb_lt in H2; lia]. }
  destruct Hend as (Hwf' & Hr & Hc & Hcells).
  do 3 (split; [done|]). intros i j Hi Hj. rewrite Hcells by done.
  by rewrite (proj2 (Z.ltb_lt i (rows M))) by lia.
Qed.

(** X6. [m_flipCols] mirrors every row: cell (i,j) receives what cell
    (i, cols - 1 - j) held (the middle column of an odd number of columns
    stays), and flipping twice gives the matrix back. *)
Theorem m_flipCols_involutive (M : matrix_t T) :
  well_formed M →
  rows (m_flipCols indeterminate M) = rows M ∧
  cols (m_flipCols indeterminate M) = cols M ∧
  (∀ i j, 0 ≤ i < rows M → 0 ≤ j < cols M →
     elem indeterminate (m_flipCols indeterminate M) i j
     = elem indeterminate M i (cols M - j - 1)) ∧
  m_flipCols indeterminate (m_flipCols indeterminate M) = M.
Proof.
  intros Hwf.
  destruct (m_flipCols_cells M Hwf) as (Hwf1 & Hr1 & Hc1 & Hcells1).
  destruct (m_flipCols_cells _ Hwf1) as (Hwf2 & Hr2 & Hc2 & Hcells2).
  do 3 (split; [done|]).
  apply (matrix_ext indeterminate); [done|done|lia|lia|].
  rewrite Hr2, Hr1, Hc2, Hc1. intros i j Hi Hj.
  rewrite Hcells2, Hc1 by lia. rewrite Hcells1 by lia. f_equal. lia.
Qed.
End Rearrange.

(** ** Sums and means of columns and rows *)

Section Sums.
Context {T : Type} {PR : Precision T}.
Context (indeterminate : Z → T).

(** One loop that writes the cell [cell k] at step [k], from what the
    cell holds; no cell is written twice. *)
Lemma for_loop_cells (cell : Z → Z * Z) (g : Z → T → T) (n : Z)
    (M0 : matrix_t T) :
  well_formed M0 → 0 ≤ n →
  (∀ k, 0 ≤ k < n → 0 ≤ (cell k).1 < rows M0 ∧ 0 ≤ (cell k).2 < cols M0) →
  (∀ k k', 0 ≤ k < n → 0 ≤ k' < n → cell k = cell k' → k = k') →
  let M' := for_loop 0 n (λ k M,
              elem_set M (cell k).1 (cell k).2
                (g k (elem indeterminate M (cell k).1 (cell k).2))) M0 in
  well_formed M' ∧ rows M' = rows M0 ∧ cols M' = cols M0 ∧
  (∀ k, 0 ≤ k < n →
     elem indeterminate M' (cell k).1 (cell k).2
     = g k (elem indeterminate M0 (cell k).1 (cell k).2)) ∧
  (∀ i j, 0 ≤ i < rows M0 → 0 ≤ j < cols M0 →
     (∀ k, 0 ≤ k < n → cell k ≠ (i, j)) →
     elem indeterminate M' i j = elem indeterminate M0 i j).
Proof.
  intros Hwf Hn Hin Hinj.
  pose (P := λ (m : Z) (M' : matrix_t T),
    well_formed M' ∧ rows M' = rows M0 ∧ cols M' = cols M0 ∧
    (∀ k, 0 ≤ k < n →
       elem indeterminate M' (cell k).1 (cell k).2
       = if k <? m then g k (elem indeterminate M0 (cell k).1 (cell k).2)
         else elem indeterminate M0 (cell k).1 (cell k).2) ∧
    (∀ i j, 0 ≤ i < rows M0 → 0 ≤ j < cols M0 →
       (∀ k, 0 ≤ k < n → cell k ≠ (i, j)) →
       elem indeterminate M' i j = elem indeterminate M0 i j)).
  cbv zeta.
  match goal with |- context [for_loop 0 n ?f M0] =>
    assert (Hend : P n (for_loop 0 n f M0)) end.
  { apply (for_loop_ind P); [done| |]; unfold P.
    - do 3 (split; [done|]). split; [|done]. intros k Hk.
      by rewrite (proj2 (Z.ltb_ge k 0)) by lia.
    - intros m M Hm (HwfM & Hr & Hc & Hcells & Hrest). clear P.
      destruct (Hin m) as [Hi Hj]; [lia|].
      split; [by apply elem_set_well_formed|]. do 2 (split; [done|]).
      split.
      + intros k Hk. destruct (decide (k = m)) as [->|Hne].
        * rewrite elem_elem_set_eq by (rewrite ?Hr, ?Hc; done).
          rewrite Hcells by lia.
          by rewrite (proj2 (Z.ltb_ge m m)), (proj2 (Z.ltb_lt m (m + 1)))
            by lia.
        * destruct (Hin k) as [Hi' Hj']; [lia|].
          rewrite elem_elem_set_ne; rewrite ?Hr, ?Hc; try done.
          2:{ intros Heq. apply Hne. symmetry. apply Hinj; [lia..|].
              by destruct (cell m), (cell k); simplify_eq/=. }
          rewrite Hcells by lia.
          destruct (k <? m) eqn:H1, (k <? m + 1) eqn:H2; try done;
            [apply Z.ltb_lt in H1; apply Z.ltb_ge in H2; lia
            |apply Z.ltb_ge in H1; apply Z.ltb_lt in H2; lia].
      + intros i j Hi' Hj' Hfree.
        rewrite elem_elem_set_ne; rewrite ?Hr, ?Hc; try done.
        * by apply Hrest.
        * intros Heq. apply (Hfree m); [lia|].
          by destruct (cell m); simplify_eq/=. }
  destruct Hend as (Hwf' & Hr & Hc & Hcells & Hrest).
  do 3 (split; [done|]). split; [|done]. intros k Hk.
  rewrite Hcells by done. by rewrite (proj2 (Z.ltb_lt k n)) by lia.
Qed.

Lemma for_loop_ext_range {St : Type} (lo hi : Z) (f g : Z → St → St) (s : St) :
  (∀ i s, lo ≤ i < hi → f i s = g i s) →
  for_loop lo hi f s = for_loop lo hi g s.
Proof.
  intros Hfg. unfold for_loop.
  assert (Hin : ∀ i, i ∈ seqZ lo (hi - lo) → lo ≤ i < hi).
  { intros i Hi. apply elem_of_seqZ in Hi. lia. }
  revert Hin. generalize (seqZ lo (hi - lo)) as l. intros l. revert s.
  induction l as [|i l IH]; intros s Hin; [done|]. simpl.
  rewrite Hfg by (apply Hin; by left). apply IH.
  intros k Hk. apply Hin. by right.
Qed.

Lemma m_sumCols_cells (M : matrix_t T) :
  well_formed M → cols M ≤ INT_MAX →
  well_formed (m_sumCols indeterminate M) ∧
  rows (m_sumCols indeterminate M) = 1 ∧
  cols (m_sumCols indeterminate M) = cols M ∧
  ∀ j, 0 ≤ j < cols M →
    elem indeterminate (m_sumCols indeterminate M) 0 j
    = for_loop 0 (rows M) (λ i val, p_add val (elem indeterminate M i j))
        (p_of_int 0).
Proof.
  intros (Hr & Hc & _) Hmax.
  assert (Hwf0 : well_formed (m_initialize indeterminate 1 (cols M))).
  { apply m_initialize_well_formed; lia. }
  destruct (for_loop_cells (λ j, (0, j))
              (λ j _, for_loop 0 (rows M)
                        (λ i val, p_add val (elem indeterminate M i j))
                        (p_of_int 0))
              (cols M) _ Hwf0) as (Hwf' & Hr' & Hc' & Hcells & _);
    [done|simpl; lia|intros ???? [= ?]; done|].
  done.
Qed.

Lemma m_sumRows_cells (M : matrix_t T) :
  well_formed M → rows M ≤ INT_MAX →
  well_formed (m_sumRows indeterminate M) ∧
  rows (m_sumRows indeterminate M) = rows M ∧
  cols (m_sumRows indeterminate M) = 1 ∧
  ∀ i, 0 ≤ i < rows M →
    elem indeterminate (m_sumRows indeterminate M) i 0
    = for_loop 0 (cols M) (λ j val, p_add val (elem indeterminate M i j))
        (p_of_int 0).
Proof.
  intros (Hr & Hc & _) Hmax.
  assert (Hwf0 : well_formed (m_initialize indeterminate (rows M) 1)).
  { apply m_initialize_well_formed; lia. }
  destruct (for_loop_cells (λ i, (i, 0))
              (λ i _, for_loop 0 (cols M)
                        (λ j val, p_add val (elem indeterminate M i j))
                        (p_of_int 0))
              (rows M) _ Hwf0) as (Hwf' & Hr' & Hc' & Hcells & _);
    [done|simpl; lia|intros ???? [= ?]; done|].
  done.
Qed.

Lemma m_meanCols_cells (M : matrix_t T) :
  well_formed M → cols M ≤ INT_MAX →
  well_formed (m_meanCols indeterminate M) ∧
  rows (m_meanCols indeterminate M) = 1 ∧
  cols (m_meanCols indeterminate M) = cols M ∧
  ∀ j, 0 ≤ j < cols M →
    elem indeterminate (m_meanCols indeterminate M) 0 j
    = p_div (for_loop 0 (rows M)
               (λ i val, p_add val (elem indeterminate M i j)) (p_of_int 0))
            (p_of_int (rows M)).
Proof.
  intros Hwf Hmax. pose proof Hwf as (Hr & Hc & _).
  destruct (m_sumCols_cells M Hwf Hmax) as (Hwf1 & Hr1 & Hc1 & Hcells1).
  destruct (for_loop_cells (λ j, (0, j))
              (λ _ v, p_div v (p_of_int (rows M)))
              (cols M) _ Hwf1) as (Hwf' & Hr' & Hc' & Hcells & _);
    [done|intros k Hk; cbn [fst snd]; rewrite Hr1, Hc1; lia
    |intros ???? [= ?]; done|].
  cbv zeta in Hwf', Hr', Hc', Hcells. cbn [fst snd] in Hwf', Hr', Hc', Hcells.
  unfold m_meanCols. split; [done|]. split; [lia|]. split; [lia|].
  intros j Hj. rewrite Hcells by done. by rewrite Hcells1.
Qed.

Lemma m_mean_column_cells (M : matrix_t T) :
  well_formed M → rows M ≤ INT_MAX →
  well_formed (m_mean_column indeterminate M) ∧
  rows (m_mean_column indeterminate M) = rows M ∧
  cols (m_mean_column indeterminate M) = 1 ∧
  ∀ j, 0 ≤ j < rows M →
    elem indeterminate (m_mean_column indeterminate M) j 0
    = p_div (for_loop 0 (cols M)
               (λ i val, p_add val (elem indeterminate M j i)) zero)
            (p_of_int (cols M)).
Proof.
  intros Hwf Hmax. pose proof Hwf as (Hr & Hc & _).
  pose (P := λ (i : Z) (a : matrix_t T),
    well_formed a ∧ rows a = rows M ∧ cols a = 1 ∧
    ∀ j, 0 ≤ j < rows M →
      elem indeterminate a j 0
      = for_loop 0 i (λ i val, p_add val (elem indeterminate M j i)) zero).
  assert (Hsum : P (cols M)
            (for_loop 0 (cols M) (λ i a,
               for_loop 0 (rows M) (λ j a,
                 elem_set a j 0
                   (p_add (elem indeterminate a j 0)
                          (elem indeterminate M j i))) a)
               (m_zeros (rows M) 1))).
  { apply (for_loop_ind P); [done| |]; unfold P.
    - split.
      { unfold well_formed, m_zeros. simpl. rewrite length_replicate. lia. }
      do 2 (split; [done|]). intros j Hj. rewrite for_loop_empty by lia.
      unfold elem, elem_index, m_zeros. simpl.
      apply load_lookup; [lia|]. apply lookup_replicate_2. lia.
    - intros i a Hi (Hwfa & Hra & Hca & Hcells). clear P.
      destruct (for_loop_cells (λ j, (j, 0))
                  (λ j v, p_add v (elem indeterminate M j i))
                  (rows M) a Hwfa) as (Hwf' & Hr' & Hc' & Hcells' & _);
        [done|intros k Hk; cbn [fst snd]; rewrite Hra, Hca; lia
        |intros ???? [= ?]; done|].
      cbv zeta in Hwf', Hr', Hc', Hcells'. cbn [fst snd] in Hwf', Hr', Hc', Hcells'.
      split; [done|]. split; [lia|]. split; [lia|]. intros j Hj.
      rewrite Hcells' by done. rewrite Hcells by done.
      by rewrite for_loop_last by lia. }
  destruct Hsum as (Hwf1 & Hr1 & Hc1 & Hcells1).
  destruct (for_loop_cells (λ j, (j, 0))
              (λ _ v, p_div v (p_of_int (cols M)))
              (rows M) _ Hwf1) as (Hwf' & Hr' & Hc' & Hcells & _);
    [done|intros k Hk; cbn [fst snd]; rewrite Hr1, Hc1; lia
    |intros ???? [= ?]; done|].
  cbv zeta in Hwf', Hr', Hc', Hcells. cbn [fst snd] in Hwf', Hr', Hc', Hcells.
  unfold m_mean_column. split; [done|]. split; [lia|]. split; [lia|].
  intros j Hj. rewrite Hcells by done. by rewrite Hcells1.
Qed.

(** X7. [m_sumCols] returns the 1-by-c row of the column sums, each
    added up from 0 in the order of the rows; it is what [m_sumRows]
    returns for the transpose, transposed. *)
Theorem m_sumCols_sumRows (M : matrix_t T) :
  well_formed M → cols M ≤ INT_MAX →
  rows (m_sumCols indeterminate M) = 1 ∧
  cols (m_sumCols indeterminate M) = cols M ∧
  (∀ j, 0 ≤ j < cols M →
     elem indeterminate (m_sumCols indeterminate M) 0 j
     = for_loop 0 (rows M) (λ i val, p_add val (elem indeterminate M i j))
         (p_of_int 0)) ∧
  m_sumCols indeterminate M
  = m_transpose indeterminate
      (m_sumRows indeterminate (m_transpose indeterminate M)).
Proof.
  intros Hwf Hmax.
  destruct (m_sumCols_cells M Hwf Hmax) as (Hwf1 & Hr1 & Hc1 & Hcells1).
  do 3 (split; [done|]).
  destruct (m_transpose_cells indeterminate M Hwf) as (Hwft & Hrt & Hct & Hcellst).
  destruct (m_sumRows_cells _ Hwft) as (Hwfs & Hrs & Hcs & Hcellss); [lia|].
  destruct (m_transpose_cells indeterminate _ Hwfs)
    as (Hwf2 & Hr2 & Hc2 & Hcells2).
  apply (matrix_ext indeterminate); [done|done|lia|lia|].
  rewrite Hr1, Hc1. intros i j Hi Hj. assert (i = 0) as -> by lia.
  rewrite Hcells1, Hcells2, Hcellss by lia. rewrite Hct.
  apply for_loop_ext_range. intros k val Hk. by rewrite Hcellst by lia.
Qed.

(** X8. [m_meanCols] returns the 1-by-c row of the column means (the
    column sum divided by the number of rows); it is what [m_mean_column]
    returns for the transpose, transposed. *)
Theorem m_meanCols_mean_column (M : matrix_t T) :
  well_formed M → cols M ≤ INT_MAX →
  rows (m_meanCols indeterminate M) = 1 ∧
  cols (m_meanCols indeterminate M) = cols M ∧
  (∀ j, 0 ≤ j < cols M →
     elem indeterminate (m_meanCols indeterminate M) 0 j
     = p_div (for_loop 0 (rows M)
                (λ i val, p_add val (elem indeterminate M i j)) (p_of_int 0))
             (p_of_int (rows M))) ∧
  m_meanCols indeterminate M
  = m_transpose indeterminate
      (m_mean_column indeterminate (m_transpose indeterminate M)).
Proof.
  intros Hwf Hmax.
  destruct (m_meanCols_cells M Hwf Hmax) as (Hwf1 & Hr1 & Hc1 & Hcells1).
  do 3 (split; [done|]).
  destruct (m_transpose_cells indeterminate M Hwf) as (Hwft & Hrt & Hct & Hcellst).
  destruct (m_mean_column_cells _ Hwft) as (Hwfs & Hrs & Hcs & Hcellss); [lia|].
  destruct (m_transpose_cells indeterminate _ Hwfs)
    as (Hwf2 & Hr2 & Hc2 & Hcells2).
  apply (matrix_ext indeterminate); [done|done|lia|lia|].
  rewrite Hr1, Hc1. intros i j Hi Hj. assert (i = 0) as -> by lia.
  rewrite Hcells1, Hcells2, Hcellss by lia. rewrite Hct. f_equal.
  apply for_loop_ext_range. intros k val Hk. by rewrite Hcellst by lia.
Qed.
End Sums.

(** ** Reshape *)

Section Reshape.
Context {T : Type} {PR : Precision T}.
Context (indeterminate : Z → T).








End Reshape.

(** ** Covariance and column reordering *)

Section OutOfBounds.
Context {T : Type} {PR : Precision T} {CV : Conversion T}.
Context (indeterminate : Z → T) (indeterminate_elem : T).

(** A loop in which some step is undefined in every state, while the
    steps before it return or are undefined themselves. *)
Lemma foldlM_undefined {St B : Type} (P : St → Prop)
    (f : St → B → outcome St) (l : list B) (x : B) :
  x ∈ l →
  (∀ s, P s → f s x = Undefined) →
  (∀ s y, P s → f s y = Undefined ∨ ∃ s', f s y = Returns s' ∧ P s') →
  ∀ s, P s → foldlM f s l = Undefined.
Proof.
  intros Hx Hbad Hstep. induction l as [|y l IH]; intros s Hs.
  { by apply elem_of_nil in Hx. }
  simpl. destruct (Hstep s y Hs) as [->|(s' & Hret & Hs')]; [done|].
  rewrite Hret. simpl. apply elem_of_cons in Hx as [->|Hx].
  - rewrite Hbad in Hret by done. done.
  - by apply IH.
Qed.

(** A loop on a pair of variables whose body assigns the first one
    before reading it. *)
Lemma foldlM_overwritten {V R B : Type} (f : V * R → B → outcome (V * R))
    (l : list B) (v v' : V) (r : R) :
  (∀ v v' r x, f (v, r) x = f (v', r) x) →
  (st ← foldlM f (v, r) l; mret st.2)
  = (st ← foldlM f (v', r) l; mret st.2).
Proof.
  intros Hf. destruct l as [|x l]; [done|]. simpl. by rewrite (Hf v v').
Qed.

(** X10. [m_covariance] never uses the elements of [M]: the column
    means it computes are assigned to [val] and dropped, and the sums
    are taken over the block [norm] as [malloc] returned it.  Two
    matrices of the same shape give the same result. *)
Theorem m_covariance_ignores_elements (M M' : matrix_t T) :
  rows M = rows M' → cols M = cols M' →
  m_covariance indeterminate indeterminate_elem M
  = m_covariance indeterminate indeterminate_elem M'.
Proof.
  intros Hr Hc. unfold m_covariance. rewrite !for_loopM_nested.
  rewrite <- Hr, <- Hc.
  match goal with |- (foldlM ?f (?v, ?r) ?l ≫= _) = (foldlM _ (?v', _) _ ≫= _) =>
    pose proof (foldlM_overwritten f l v v' r) as Hsame
  end.
  assert (Hmret : ∀ c : outcome (T * matrix_t T),
            (c ≫= λ '(_, R), mret R) = (st ← c; mret st.2)).
  { intros [[??]| | | |]; done. }
  rewrite !Hmret. apply Hsame. by intros v v' r [j k].
Qed.

Lemma elem_store_run (R : matrix_t T) (i j : Z) (v : T) :
  elem_store R i j v
  = if (0 <=? j * rows R + i) && (j * rows R + i <? Z.of_nat (length (data R)))
    then Returns (elem_set R i j v) else Undefined.
Proof. done. Qed.

(** X11. [m_covariance] writes the cells (j,k) with j and k below the
    number of columns into a block of rows-by-cols elements.  With more
    columns than rows a write falls outside the block and the call is
    undefined.  Otherwise it returns a matrix of the shape of [M] whose
    cell (j,k) is the sum of squares of column j of the unwritten block
    [norm], divided by cols - 1: the same value along each row. *)
Theorem m_covariance_bounds (M : matrix_t T) :
  well_formed M →
  (rows M < cols M →
   m_covariance indeterminate indeterminate_elem M = Undefined) ∧
  (cols M ≤ rows M →
   ∃ R, m_covariance indeterminate indeterminate_elem M = Returns R ∧
     rows R = rows M ∧ cols R = cols M ∧
     ∀ j k, 0 ≤ j < cols M → 0 ≤ k < cols M →
       elem indeterminate R j k
       = p_div
           (for_loop 0 (rows M) (λ i val,
              let norm := m_initialize indeterminate (rows M) (cols M) in
              p_add val (p_mul (elem indeterminate norm i j)
                               (elem indeterminate norm i j))) (p_of_int 0))
           (p_of_int (cols M - 1))).
Proof.
  intros (Hr & Hc & Hmax & Hlen).
  set (R0 := m_initialize indeterminate (rows M) (cols M)).
  assert (HwfR0 : well_formed R0) by (by apply m_initialize_well_formed).
  set (value := λ j : Z,
         p_div
           (for_loop 0 (rows M) (λ i val,
              p_add val (p_mul (elem indeterminate R0 i j)
                               (elem indeterminate R0 i j))) (p_of_int 0))
           (p_of_int (cols M - 1))).
  set (f := λ (st : T * matrix_t T) (jk : Z * Z),
         let '(val, R) := st in
         R ← elem_store R jk.1 jk.2 (value jk.1); mret (value jk.1, R)).
  assert (Hrun : ∀ v,
            m_covariance indeterminate indeterminate_elem M
            = (st ← foldlM f (v, R0) (row_major (cols M) (cols M));
               mret st.2)).
  { intros v. unfold m_covariance. rewrite for_loopM_nested.
    fold R0.
    match goal with |- (foldlM ?g0 (?v0, _) ?l ≫= _) = _ =>
      set (g := g0); set (v1 := v0) end.
    transitivity (st ← foldlM g (v1, R0) (row_major (cols M) (cols M));
                  mret st.2).
    { by destruct (foldlM g (v1, R0) _) as [[??]| | | |]. }
    rewrite (foldlM_overwritten g _ v1 v R0) by (by intros ??? [??]).
    rewrite (foldlM_ext (λ _, True) g f); [done|done|].
    intros [val R] [j k] _. done. }
  pose (P := λ st : T * matrix_t T,
         rows st.2 = rows M ∧
         length (data st.2) = Z.to_nat (rows M * cols M)).
  assert (HP0 : P (indeterminate_elem, R0)).
  { split; [done|]. by destruct HwfR0 as (_ & _ & _ & ?). }
  assert (Hstep : ∀ st jk, P st →
            f st jk = Undefined ∨ ∃ st', f st jk = Returns st' ∧ P st').
  { intros [val R] [j k] [HrR HlR]. unfold f. rewrite elem_store_run.
    destruct (_ && _); [|by left]. right. eexists. split; [done|].
    split; [done|]. simpl. by rewrite length_store. }
  rewrite (Hrun indeterminate_elem). split.
  - intros Hlt.
    rewrite (foldlM_undefined P f _ (rows M, cols M - 1)); try done.
    + apply elem_of_row_major. lia.
    + intros [val R] [HrR HlR]. unfold f. rewrite elem_store_run.
      simpl in *. rewrite HrR, HlR.
      replace ((cols M - 1) * rows M + rows M) with (rows M * cols M) by lia.
      rewrite Z2Nat.id by nia.
      by rewrite (proj2 (Z.ltb_ge _ _)), andb_false_r by lia.
  - intros Hle.
    set (step := λ (R : matrix_t T) (jk : Z * Z),
           elem_set R jk.1 jk.2
             ((λ (j _ : Z) (_ : T), value j) jk.1 jk.2
                (elem indeterminate R jk.1 jk.2))).
    destruct (foldlM_visited
                (λ l1 st, P st ∧ st.2 = foldl step R0 l1) f
                (indeterminate_elem, R0) (row_major (cols M) (cols M)))
      as ([val R] & -> & _ & HR); [done| |].
    { intros l1 [j k] [val R] Hjk [[HrR HlR] HR].
      apply elem_of_row_major in Hjk as [Hj Hk]. simpl in *.
      unfold f. rewrite elem_store_run. simpl. rewrite HrR, HlR.
      assert (0 ≤ k * rows M + j < rows M * cols M).
      { assert (0 ≤ k * rows M) by nia.
        assert (k * rows M ≤ (cols M - 1) * rows M) by nia. lia. }
      rewrite (proj2 (Z.leb_le _ _)) by lia.
      rewrite (proj2 (Z.ltb_lt _ _)) by lia. simpl.
      eexists. split; [done|].
      split; [split; [done|by simpl; rewrite length_store]|].
      by rewrite foldl_snoc, HR. }
    simpl in HR. subst R.
    destruct (foldl_elem_set_cells indeterminate (λ j _ _, value j)
                (row_major (cols M) (cols M)) R0 HwfR0)
      as (_ & Hr' & Hc' & Hcells); [apply NoDup_row_major| |].
    { intros [j k] Hjk. apply elem_of_row_major in Hjk. simpl. lia. }
    cbv zeta in Hr', Hc', Hcells. fold step in Hr', Hc', Hcells.
    eexists. split; [done|]. simpl. do 2 (split; [done|]).
    intros j k Hj Hk. rewrite Hcells by (simpl; lia).
    rewrite decide_True by (by apply elem_of_row_major). done.
Qed.

End OutOfBounds.

Section Reorder.
Context {T : Type} {PR : Precision T} {CV : Conversion T}.
Context (indeterminate : Z → T).

Lemma foldlM_returns_or_undefined {St B : Type} (f : St → B → outcome St)
    (l : list B) :
  (∀ s y, f s y = Undefined ∨ ∃ s', f s y = Returns s') →
  ∀ s, foldlM f s l = Undefined ∨ ∃ s', foldlM f s l = Returns s'.
Proof.
  intros Hstep. induction l as [|y l IH]; intros s; [right; by eexists|].
  simpl. destruct (Hstep s y) as [->|[s' ->]]; [by left|]. apply IH.
Qed.

(** X12. [m_reorder_columns] aborts unless [V] is one row of as many
    columns as [M].  Then it takes the row for column j from
    [elem(V, 1, j)], the element after the one of column j: for the last
    column that is outside [V], so with one column or more the call is
    undefined, and with none it returns the empty matrix. *)
Theorem m_reorder_columns_out_of_bounds (M V : matrix_t T) :
  well_formed V →
  ((cols M =? cols V) && (rows V =? 1) = false →
   m_reorder_columns indeterminate M V = Aborts) ∧
  (cols M = cols V → rows V = 1 →
   (cols M ≤ 0 →
    m_reorder_columns indeterminate M V
    = Returns (m_initialize indeterminate (rows M) (cols M))) ∧
   (0 < cols M → m_reorder_columns indeterminate M V = Undefined)).
Proof.
  intros (_ & HcV & _ & HlV). unfold m_reorder_columns, assert. split.
  { by intros ->. }
  intros Hc Hr. rewrite Hc, Hr, !Z.eqb_refl. simpl. split.
  { intros Hle. unfold for_loopM. by rewrite seqZ_nil by lia. }
  intros Hpos. unfold for_loopM at 1.
  apply (foldlM_undefined (λ _, True) _ _ (cols V - 1)); [| | |done].
  - apply elem_of_seqZ. lia.
  - intros R _. unfold elem_load, in_buffer, elem_index.
    rewrite Hr, HlV, Hr, Z2Nat.id by lia.
    by rewrite (proj2 (Z.ltb_ge _ _)), andb_false_r by lia.
  - intros R j _. destruct (elem_load indeterminate V 1 j) as [x| | | |] eqn:Hx;
      try (unfold elem_load in Hx; by destruct (in_buffer V 1 j));
      [|by left]. simpl.
    destruct (p_to_int x) as [row|]; [|by left]. simpl.
    destruct (foldlM_returns_or_undefined
                (λ R i, y ← elem_load indeterminate M row j; elem_store R i j y)
                (seqZ 0 (rows R - 0))) with (s := R) as [Hu|[R' HR']].
    + intros R1 i. unfold elem_load, elem_store.
      destruct (in_buffer M row j); [|by left]. simpl.
      destruct (in_buffer R1 i j); [right; by eexists|by left].
    + left. exact Hu.
    + right. exists R'. split; [exact HR'|done].
Qed.
End Reorder.

(** ** Elementwise operations on two matrices, composed *)

Section DotExact.
Context (indeterminate : Z → Q).

Implicit Types (h : gmap positive (matrix_t Q)) (a b : matrix_t Q).

Local Open Scope Q_scope.

(** X13. In exact arithmetic, subtracting [B] from the sum of [A] and
    [B] gives the elements of [A] back.  The two calls allocate two new
    blocks and leave every block that was there as it was. *)
Theorem m_dot_add_subtract h A B a b :
  h !! A = Some a → h !! B = Some b → well_formed a →
  same_dimensions a b = true →
  ∃ S D s d,
    (S ← m_dot_add indeterminate A B; m_dot_subtract indeterminate S B) h
    = Returns (D, <[D := d]> (<[S := s]> h)) ∧
    h !! S = None ∧ h !! D = None ∧ S ≠ D ∧
    rows d = rows a ∧ cols d = cols a ∧
    ∀ i j, (0 ≤ i < rows a)%Z → (0 ≤ j < cols a)%Z →
      elem indeterminate d i j == elem indeterminate a i j.
Proof.
  intros HA HB Hwf Hdim.
  destruct (m_dot_returns indeterminate p_add h A B a b HA HB Hwf Hdim)
    as (S & s & Hrun & HS & Hrs & Hcs & Hwfs & Hcells).
  assert (HSB : S ≠ B) by (intros ->; congruence).
  assert (Hdim' : same_dimensions s b = true).
  { unfold same_dimensions in *. by rewrite Hrs, Hcs. }
  destruct (m_dot_returns indeterminate p_sub (<[S := s]> h) S B s b)
    as (D & d & Hrun' & HD & Hrd & Hcd & Hwfd & Hcells'); try done.
  { by rewrite lookup_insert_eq. }
  { by rewrite lookup_insert_ne. }
  exists S, D, s, d. rewrite (prog_bind_run indeterminate).
  unfold m_dot_add, m_dot_subtract. rewrite Hrun, Hrun'.
  split; [done|]. split; [done|].
  assert (S ≠ D) by (intros ->; by rewrite lookup_insert_eq in HD).
  split; [by rewrite lookup_insert_ne in HD|]. split; [done|].
  split; [lia|]. split; [lia|]. intros i j Hi Hj.
  rewrite Hcells' by lia. rewrite Hcells by lia. simpl.
  rewrite !Qred_correct. ring.
Qed.

Lemma m_zeros_cells (r c : Z) :
  (0 ≤ r)%Z → (0 ≤ c)%Z → (r * c ≤ INT_MAX)%Z →
  well_formed (m_zeros (T := Q) r c) ∧
  ∀ i j, (0 ≤ i < r)%Z → (0 ≤ j < c)%Z →
    elem indeterminate (m_zeros r c) i j = zero.
Proof.
  intros Hr Hc Hmax. split.
  { unfold well_formed, m_zeros. simpl. by rewrite length_replicate. }
  intros i j Hi Hj. unfold elem, elem_index, m_zeros. simpl.
  pose proof (cell_index_range r c i j Hi Hj).
  apply load_lookup; [lia|]. apply lookup_replicate_2. lia.
Qed.

(** X14. Both operands may be one and the same matrix: in exact
    arithmetic [m_dot_subtract] of [A] and [A] returns a new block that
    holds the zero matrix of the shape of [A], and [A] is unchanged. *)
Theorem m_dot_subtract_self h A a :
  h !! A = Some a → well_formed a →
  ∃ R,
    m_dot_subtract indeterminate A A h
    = Returns (R, <[R := m_zeros (rows a) (cols a)]> h) ∧
    h !! R = None ∧
    <[R := m_zeros (rows a) (cols a)]> h !! A = Some a.
Proof.
  intros HA Hwf.
  destruct (m_dot_returns indeterminate p_sub h A A a a HA HA Hwf)
    as (R & r & Hrun & HR & Hrr & Hcr & Hwfr & Hcells).
  { unfold same_dimensions. by rewrite !Z.eqb_refl. }
  pose proof Hwf as (Hr & Hc & Hmax & _).
  destruct (m_zeros_cells (rows a) (cols a)) as [Hwfz Hz]; [done..|].
  assert (r = m_zeros (rows a) (cols a)) as ->.
  { apply (matrix_ext indeterminate); [done|done|done|done|].
    rewrite Hrr, Hcr. intros i j Hi Hj.
    rewrite Hcells, Hz by done. simpl.
    change (inject_Z 0) with (Qred 0). apply Qred_complete. ring. }
  exists R. split; [exact Hrun|]. split; [done|].
  rewrite lookup_insert_ne; [done|]. intros ->. congruence.
Qed.
End DotExact.

(** ** Subtracting the mean column *)

Section Centering.
Context {T : Type} {PR : Precision T}.
Context (indeterminate : Z → T).

Lemma m_normalize_columns_cells (M a : matrix_t T) :
  well_formed M →
  well_formed (m_normalize_columns indeterminate M a) ∧
  rows (m_normalize_columns indeterminate M a) = rows M ∧
  cols (m_normalize_columns indeterminate M a) = cols M ∧
  ∀ j i, 0 ≤ j < rows M → 0 ≤ i < cols M →
    elem indeterminate (m_normalize_columns indeterminate M a) j i
    = p_sub (elem indeterminate M j i) (elem indeterminate a j 0).
Proof.
  intros Hwf. pose proof Hwf as (Hr & Hc & _).
  pose (P := λ (i : Z) (M' : matrix_t T),
    well_formed M' ∧ rows M' = rows M ∧ cols M' = cols M ∧
    ∀ j i', 0 ≤ j < rows M → 0 ≤ i' < cols M →
      elem indeterminate M' j i'
      = if i' <? i
        then p_sub (elem indeterminate M j i') (elem indeterminate a j 0)
        else elem indeterminate M j i').
  assert (Hend : P (cols M) (m_normalize_columns indeterminate M a)).
  { apply (for_loop_ind P); [done| |]; unfold P.
    - do 3 (split; [done|]). intros j i Hj Hi.
      by rewrite (proj2 (Z.ltb_ge i 0)) by lia.
    - intros i M' Hi (Hwf' & Hr' & Hc' & Hcells). clear P.
      destruct (for_loop_cells indeterminate (λ j, (j, i))
                  (λ j v, p_sub v (elem indeterminate a j 0))
                  (rows M') M' Hwf') as (Hwf2 & Hr2 & Hc2 & Hin & Hout);
        [lia|intros k Hk; cbn [fst snd]; lia|intros ???? [= ?]; done|].
      cbv zeta in Hwf2, Hr2, Hc2, Hin, Hout.
      cbn [fst snd] in Hwf2, Hr2, Hc2, Hin, Hout.
      split; [done|]. split; [lia|]. split; [lia|]. intros j i' Hj Hi'.
      destruct (decide (i' = i)) as [->|Hne].
      + rewrite Hin by lia. rewrite Hcells by lia.
        by rewrite (proj2 (Z.ltb_ge i i)), (proj2 (Z.ltb_lt i (i + 1)))
          by lia.
      + rewrite Hout by (lia || (intros ?? [= ??]; lia)).
        rewrite Hcells by lia.
        destruct (i' <? i) eqn:H1, (i' <? i + 1) eqn:H2; try done;
          [apply Z.ltb_lt in H1; apply Z.ltb_ge in H2; lia
          |apply Z.ltb_ge in H1; apply Z.ltb_lt in H2; lia]. }
  destruct Hend as (Hwf' & Hr' & Hc' & Hcells).
  do 3 (split; [done|]). intros j i Hj Hi. rewrite Hcells by done.
  by rewrite (proj2 (Z.ltb_lt i (cols M))) by lia.
Qed.
End Centering.

Section CenteringExact.
Context (indeterminate : Z → Q).

Local Open Scope Q_scope.

Lemma sum_shift (x : Z → Q) (a : Q) (n : nat) :
  for_loop 0 (Z.of_nat n) (λ i val, p_add val (p_sub (x i) a)) zero
  == for_loop 0 (Z.of_nat n) (λ i val, p_add val (x i)) zero
     - inject_Z (Z.of_nat n) * a.
Proof.
  induction n as [|n IH].
  { rewrite !for_loop_empty by done. unfold zero. simpl.
    change (inject_Z (Z.of_nat 0)) with 0. change (inject_Z 0) with 0. ring. }
  rewrite Nat2Z.inj_succ, <- Z.add_1_r.
  rewrite !for_loop_last by lia.
  set (s1 := for_loop 0 (Z.of_nat n)
               (λ i val, p_add val (p_sub (x i) a)) zero) in *.
  set (s2 := for_loop 0 (Z.of_nat n) (λ i val, p_add val (x i)) zero) in *.
  simpl. rewrite !Qred_correct.
  rewrite IH, inject_Z_plus. change (inject_Z 1) with 1. ring.
Qed.

(** X15. Centering works in exact arithmetic: after [m_normalize_columns]
    has subtracted the mean column of [M] from every column, the mean
    column of the result is zero in every row. *)
Theorem mean_of_centered (M : matrix_t Q) (j : Z) :
  well_formed M → (0 < cols M)%Z → (0 ≤ j < rows M)%Z →
  elem indeterminate
    (m_mean_column indeterminate
       (m_normalize_columns indeterminate M (m_mean_column indeterminate M)))
    j 0
  == 0.
Proof.
  intros Hwf Hc Hj. pose proof Hwf as (Hr & _ & Hmax & _).
  assert (rows M ≤ INT_MAX)%Z by nia.
  destruct (m_mean_column_cells indeterminate M Hwf) as (_ & _ & _ & Ha);
    [done|].
  destruct (m_normalize_columns_cells indeterminate M
              (m_mean_column indeterminate M) Hwf)
    as (Hwf' & Hr' & Hc' & Hcells').
  destruct (m_mean_column_cells indeterminate _ Hwf')
    as (_ & _ & _ & Hmean); [lia|].
  rewrite Hmean by lia. rewrite Hc'.
  rewrite (for_loop_ext_range 0 (cols M) _
             (λ i val,
                p_add val
                  (p_sub (elem indeterminate M j i)
                     (elem indeterminate (m_mean_column indeterminate M) j 0)))).
  2:{ intros i val Hi. by rewrite Hcells' by lia. }
  pose proof (sum_shift (λ i, elem indeterminate M j i)
                (elem indeterminate (m_mean_column indeterminate M) j 0)
                (Z.to_nat (cols M))) as Hshift.
  rewrite Z2Nat.id in Hshift by lia.
  simpl. rewrite Qred_correct. rewrite Hshift.
  rewrite Ha by done. simpl. rewrite Qred_correct.
  field. intros H0. apply (inject_Z_injective (cols M) 0) in H0. lia.
Qed.
End CenteringExact.

(** ** Reading a stream that ends early *)

Section ShortStream.
Context {T : Type} {PR : Precision T} {text : Type} {IO : Stdio T text}.
Context (indeterminate : Z → T) (indeterminate_int : Z).



End ShortStream.

(** ** The identity *)

Section IdentityTranspose.
Context {T : Type} {PR : Precision T}.
Context (indeterminate : Z → T).

(** X17. [m_identity n] is n-by-n with 1 on the diagonal and 0
    elsewhere, and it is its own transpose. *)
Theorem m_identity_symmetric (n : Z) :
  0 ≤ n → n * n ≤ INT_MAX →
  rows (m_identity (T := T) n) = n ∧ cols (m_identity (T := T) n) = n ∧
  (∀ i j, 0 ≤ i < n → 0 ≤ j < n →
     elem indeterminate (m_identity n) i j = if i =? j then one else zero) ∧
  m_transpose indeterminate (m_identity n) = m_identity n.
Proof.
  intros Hn Hmax.
  destruct (m_identity_cells indeterminate n Hn Hmax)
    as (Hwf & Hr & Hc & Hcells).
  do 3 (split; [done|]).
  destruct (m_transpose_cells indeterminate _ Hwf) as (Hwft & Hrt & Hct & Hcellst).
  apply (matrix_ext indeterminate); [done|done|lia|lia|].
  rewrite Hrt, Hct, Hr, Hc. intros i j Hi Hj.
  rewrite Hcellst by lia. rewrite !Hcells by lia.
  by rewrite (Z.eqb_sym j i).
Qed.
End IdentityTranspose.

(** ** The determinant of the identity, at every order *)

Section IdentityOrders.
Context (indeterminate : Z → Q) (indeterminate_int : Z).

Local Open Scope Q_scope.

(** X18. In exact arithmetic [m_determinant] returns, for the identity
    of order n, -1 when n is 3, 4, 7, 8, 11, 12, ... (n >= 3 and n mod 4
    is 3 or 0) and 1 at every other order. *)
Theorem m_determinant_identity_orders (n : nat) :
  (1 ≤ n)%nat → (Z.of_nat n * Z.of_nat n ≤ INT_MAX)%Z →
  ∃ v, m_determinant indeterminate indeterminate_int
         (m_identity (Z.of_nat n)) = Returns v
       ∧ v == if (3 <=? Z.of_nat n)%Z
                 && ((Z.of_nat n mod 4 =? 3)%Z || (Z.of_nat n mod 4 =? 0)%Z)
              then -1 else 1.
Proof.
  intros Hn Hmax.
  destruct (m_determinant_identity_exact indeterminate indeterminate_int
              n Hn Hmax) as (v & Hv & Heq).
  exists v. split; [done|]. rewrite Heq, (sign_defect_closed n).
  by destruct (_ && _).
Qed.
End IdentityOrders.

(** ** Means of nothing *)

Section EmptyMeans.
Context (indeterminate : Z → float).

(** X21. On binary64 a mean over nothing is 0.0 / 0.0: every cell of
    [m_meanCols] of a matrix without rows, and of [m_mean_column] of a
    matrix without columns, is NaN; no error is raised. *)
Theorem mean_of_nothing (M : matrix_t float) :
  well_formed M →
  (rows M = 0 → cols M ≤ INT_MAX →
   ∀ j, 0 ≤ j < cols M →
     elem indeterminate (m_meanCols indeterminate M) 0 j = nan) ∧
  (cols M = 0 → rows M ≤ INT_MAX →
   ∀ j, 0 ≤ j < rows M →
     elem indeterminate (m_mean_column indeterminate M) j 0 = nan).
Proof.
  intros Hwf. split.
  - intros Hr Hmax j Hj.
    destruct (m_meanCols_cells indeterminate M Hwf Hmax) as (_ & _ & _ & Hcells).
    rewrite Hcells by done. rewrite Hr. by rewrite for_loop_empty.
  - intros Hc Hmax j Hj.
    destruct (m_mean_column_cells indeterminate M Hwf Hmax)
      as (_ & _ & _ & Hcells).
    rewrite Hcells by done. rewrite Hc. by rewrite for_loop_empty.
Qed.
End EmptyMeans.

(** ** Normalizing twice *)

Section NormalizeTwice.
Context (indeterminate : Z → Q).

Local Open Scope Q_scope.

(** What [m_normalize] does with a matrix that is not constant, in terms
    of the two elements [mn] and [mx] that its first pass selects. *)
Lemma m_normalize_cells (M : matrix_t Q) :
  well_formed M →
  (∃ i j i' j',
     (0 ≤ i < rows M)%Z ∧ (0 ≤ j < cols M)%Z ∧
     (0 ≤ i' < rows M)%Z ∧ (0 ≤ j' < cols M)%Z ∧
     elem indeterminate M i j < elem indeterminate M i' j') →
  ∃ mn mx, mn < mx ∧
    (∃ i j, (0 ≤ i < rows M)%Z ∧ (0 ≤ j < cols M)%Z ∧
            mn = elem indeterminate M i j) ∧
    (∃ i j, (0 ≤ i < rows M)%Z ∧ (0 ≤ j < cols M)%Z ∧
            mx = elem indeterminate M i j) ∧
    (∀ i j, (0 ≤ i < rows M)%Z → (0 ≤ j < cols M)%Z →
       mn <= elem indeterminate M i j ∧ elem indeterminate M i j <= mx) ∧
    well_formed (m_normalize indeterminate M) ∧
    rows (m_normalize indeterminate M) = rows M ∧
    cols (m_normalize indeterminate M) = cols M ∧
    ∀ i j, (0 ≤ i < rows M)%Z → (0 ≤ j < cols M)%Z →
      elem indeterminate (m_normalize indeterminate M) i j
      = p_div (p_sub (elem indeterminate M i j) mn) (p_sub mx mn).
Proof.
  intros Hwf (i1 & j1 & i2 & j2 & Hi1 & Hj1 & Hi2 & Hj2 & Hlt).
  rewrite m_normalize_passes.
  set (vals := (λ ij : Z * Z, elem indeterminate M ij.1 ij.2)
                 <$> row_major (rows M) (cols M)).
  assert (Hval : ∀ x, x ∈ elem indeterminate M 0 0 :: vals →
            ∃ i j, (0 ≤ i < rows M)%Z ∧ (0 ≤ j < cols M)%Z ∧
                   x = elem indeterminate M i j).
  { intros x [->|Hx]%elem_of_cons.
    - exists 0%Z, 0%Z. split; [lia|]. split; [lia|done].
    - apply list_elem_of_fmap in Hx as ([i j] & -> & Hij).
      apply elem_of_row_major in Hij as [Hi Hj]. exists i, j. auto. }
  assert (Hin : ∀ i j, (0 ≤ i < rows M)%Z → (0 ≤ j < cols M)%Z →
            elem indeterminate M i j ∈ elem indeterminate M 0 0 :: vals).
  { intros i j Hi Hj. right. apply list_elem_of_fmap. exists (i, j).
    split; [done|]. by apply elem_of_row_major. }
  pose proof (min_max_scan (elem indeterminate M 0 0) vals) as Hscan.
  cbv zeta in Hscan |- *.
  destruct (foldl _ _ vals) as [mn mx]. cbn [fst snd] in Hscan |- *.
  destruct Hscan as ([Hmn Hmx] & Hbounds).
  assert (Hcell : ∀ i j, (0 ≤ i < rows M)%Z → (0 ≤ j < cols M)%Z →
            mn <= elem indeterminate M i j ∧ elem indeterminate M i j <= mx).
  { intros i j Hi Hj. by apply Hbounds, Hin. }
  exists mn, mx. split.
  { destruct (Hcell i1 j1 Hi1 Hj1), (Hcell i2 j2 Hi2 Hj2). lra. }
  split; [by apply Hval|]. split; [by apply Hval|]. split; [done|].
  destruct (for_loops_elem_set indeterminate
              (λ _ _ x, p_div (p_sub x mn) (p_sub mx mn)) M Hwf)
    as (Hwf' & Hr & Hc & Hcells).
  done.
Qed.

(** X22. In exact arithmetic, normalizing a matrix that is not constant
    a second time changes no element: the first call has put the least
    element at 0 and the greatest at 1. *)
Theorem m_normalize_idempotent (M : matrix_t Q) (i j : Z) :
  well_formed M →
  (∃ i j i' j',
     (0 ≤ i < rows M)%Z ∧ (0 ≤ j < cols M)%Z ∧
     (0 ≤ i' < rows M)%Z ∧ (0 ≤ j' < cols M)%Z ∧
     elem indeterminate M i j < elem indeterminate M i' j') →
  (0 ≤ i < rows M)%Z → (0 ≤ j < cols M)%Z →
  elem indeterminate
    (m_normalize indeterminate (m_normalize indeterminate M)) i j
  == elem indeterminate (m_normalize indeterminate M) i j.
Proof.
  intros Hwf Hvar Hi Hj.
  destruct (m_normalize_cells M Hwf Hvar)
    as (mn & mx & Hlt & (a & b & Ha & Hb & Hmn) & (a' & b' & Ha' & Hb' & Hmx)
        & Hbounds & HwfN & HrN & HcN & HN).
  set (N := m_normalize indeterminate M) in *.
  assert (Hunit : ∀ i j, (0 ≤ i < rows M)%Z → (0 ≤ j < cols M)%Z →
            (0 <= elem indeterminate N i j ∧ elem indeterminate N i j <= 1) ∧
            (elem indeterminate M i j == mn → elem indeterminate N i j == 0) ∧
            (elem indeterminate M i j == mx → elem indeterminate N i j == 1)).
  { intros i0 j0 Hi0 Hj0. rewrite HN by done.
    destruct (Hbounds i0 j0 Hi0 Hj0).
    by apply normalized_value. }
  assert (Hzero : elem indeterminate N a b == 0).
  { apply Hunit; [done..|]. by rewrite Hmn. }
  assert (Hone : elem indeterminate N a' b' == 1).
  { apply Hunit; [done..|]. by rewrite Hmx. }
  destruct (m_normalize_cells N HwfN)
    as (mn' & mx' & Hlt' & (c & d & Hc & Hd & Hmn')
        & (c' & d' & Hc' & Hd' & Hmx') & Hbounds' & _ & _ & _ & HNN).
  { exists a, b, a', b'. rewrite HrN, HcN. do 4 (split; [done|]).
    rewrite Hzero, Hone. lra. }
  rewrite HrN, HcN in *.
  assert (Hmn0 : mn' == 0).
  { destruct (Hbounds' a b Ha Hb) as [H1 _].
    destruct (Hunit c d Hc Hd) as ([H2 _] & _). rewrite <- Hmn' in H2. lra. }
  assert (Hmx1 : mx' == 1).
  { destruct (Hbounds' a' b' Ha' Hb') as [_ H1].
    destruct (Hunit c' d' Hc' Hd') as ([_ H2] & _). rewrite <- Hmx' in H2.
    lra. }
  rewrite HNN by done. simpl. rewrite !Qred_correct, Hmn0, Hmx1.
  field.
Qed.

(** X23. The test driver normalizes a matrix and scales the result by 35.
    In exact arithmetic, for a matrix that is not constant and a scalar
    x >= 0, every element of the result lies in [0, x]; a least element
    of [M] ends at 0 and a greatest at x. *)
Theorem normalize_then_scale (M : matrix_t Q) (x : Q) (i j : Z) :
  well_formed M →
  (∃ i j i' j',
     (0 ≤ i < rows M)%Z ∧ (0 ≤ j < cols M)%Z ∧
     (0 ≤ i' < rows M)%Z ∧ (0 ≤ j' < cols M)%Z ∧
     elem indeterminate M i j < elem indeterminate M i' j') →
  0 <= x → (0 ≤ i < rows M)%Z → (0 ≤ j < cols M)%Z →
  let R := m_elem_mult indeterminate (m_normalize indeterminate M) x in
  (0 <= elem indeterminate R i j ∧ elem indeterminate R i j <= x) ∧
  ((∀ i' j', (0 ≤ i' < rows M)%Z → (0 ≤ j' < cols M)%Z →
      elem indeterminate M i j <= elem indeterminate M i' j') →
   elem indeterminate R i j == 0) ∧
  ((∀ i' j', (0 ≤ i' < rows M)%Z → (0 ≤ j' < cols M)%Z →
      elem indeterminate M i' j' <= elem indeterminate M i j) →
   elem indeterminate R i j == x).
Proof.
  intros Hwf Hvar Hx Hi Hj R.
  destruct (m_normalize_cells M Hwf Hvar)
    as (mn & mx & Hlt & (a & b & Ha & Hb & Hmn) & (a' & b' & Ha' & Hb' & Hmx)
        & Hbounds & HwfN & HrN & HcN & HN).
  destruct (elementwise_loops indeterminate (λ v, p_mul v x) _ HwfN)
    as (_ & _ & HR).
  unfold R, m_elem_mult. rewrite HR by (rewrite ?HrN, ?HcN; done).
  rewrite HN by done. destruct (Hbounds i j Hi Hj) as [Hlo Hhi].
  destruct (normalized_value (elem indeterminate M i j) mn mx Hlo Hhi Hlt)
    as ([H0 H1] & Hzero & Hone).
  set (y := p_div (p_sub (elem indeterminate M i j) mn) (p_sub mx mn)) in *.
  simpl. rewrite Qred_correct. split; [split; nra|]. split.
  - intros Hleast. rewrite Hzero; [ring|].
    apply Qle_antisym; [|done]. rewrite Hmn. by apply Hleast.
  - intros Hmost. rewrite Hone; [ring|].
    apply Qle_antisym; [done|]. rewrite Hmx. by apply Hmost.
Qed.
End NormalizeTwice.

(** ** The theorems of this part at concrete inputs *)

Lemma scalar_operations_witness :
  elementwise stale_heap_Q p_neg sample_2x2_Q
    (m_elem_negate stale_heap_Q sample_2x2_Q) ∧
  elementwise stale_heap_Q (λ v, p_mul v 2%Q) sample_2x2_Q
    (m_elem_mult stale_heap_Q sample_2x2_Q 2%Q) ∧
  elementwise stale_heap_Q (λ v, p_div v 2%Q) sample_2x2_Q
    (m_elem_divideByConst stale_heap_Q sample_2x2_Q 2%Q) ∧
  elementwise stale_heap_Q (λ v, p_div 2%Q v) sample_2x2_Q
    (m_elem_divideByMatrix stale_heap_Q sample_2x2_Q 2%Q) ∧
  elementwise stale_heap_Q (λ v, p_add v 2%Q) sample_2x2_Q
    (m_elem_add stale_heap_Q sample_2x2_Q 2%Q).
Proof.
  apply (scalar_operations stale_heap_Q sample_2x2_Q 2%Q).
  unfold well_formed, INT_MAX. simpl. lia.
Defined.

Example m_elem_divideByMatrix_sample :
  m_elem_divideByMatrix stale_heap_Q sample_2x2_Q 2%Q
  = Matrix 2 2 [2 # 5; 2; 2 # 3; 1]%Q.
Proof. vm_compute. reflexivity. Qed.

Lemma scalar_round_trips_witness :
  (elem stale_heap_Q
     (m_elem_divideByConst stale_heap_Q
        (m_elem_mult stale_heap_Q sample_2x2_Q 2) 2) 0 1
   == elem stale_heap_Q sample_2x2_Q 0 1)%Q ∧
  (elem stale_heap_Q
     (m_elem_add stale_heap_Q (m_elem_add stale_heap_Q sample_2x2_Q 2)
        (p_neg 2%Q)) 0 1
   == elem stale_heap_Q sample_2x2_Q 0 1)%Q ∧
  (elem stale_heap_Q
     (m_elem_negate stale_heap_Q (m_elem_negate stale_heap_Q sample_2x2_Q))
     0 1
   == elem stale_heap_Q sample_2x2_Q 0 1)%Q ∧
  (elem stale_heap_Q
     (m_elem_divideByMatrix stale_heap_Q
        (m_elem_divideByMatrix stale_heap_Q sample_2x2_Q 2) 2) 0 1
   == elem stale_heap_Q sample_2x2_Q 0 1)%Q.
Proof.
  destruct (scalar_round_trips stale_heap_Q sample_2x2_Q 2%Q 0 1)
    as (H1 & H2 & H3 & H4).
  - unfold well_formed, INT_MAX. simpl. lia.
  - unfold Qeq. simpl. lia.
  - simpl. lia.
  - simpl. lia.
  - split; [exact H1|]. split; [exact H2|]. split; [exact H3|].
    apply H4. unfold Qeq. simpl. lia.
Defined.

Lemma Q_to_int_of_int (n : Z) :
  INT_MIN ≤ n ≤ INT_MAX → p_to_int (p_of_int (T := Q) n) = Some n.
Proof.
  intros Hn. simpl. rewrite Z.quot_1_r.
  by rewrite (proj2 (Z.leb_le _ _)), (proj2 (Z.leb_le _ _)) by lia.
Qed.

Lemma Q_to_int_range (x : Q) (n : Z) :
  p_to_int x = Some n → INT_MIN ≤ n ≤ INT_MAX.
Proof.
  simpl. destruct (_ && _) eqn:Hin; [|done]. intros [= <-].
  apply andb_true_iff in Hin as [H1 H2].
  apply Z.leb_le in H1, H2. lia.
Qed.

Lemma m_elem_truncate_idempotent_witness :
  m_elem_truncate stale_heap_Q too_large_1x1 = Undefined ∧
  ∃ M', m_elem_truncate stale_heap_Q fractions_1x2 = Returns M' ∧
    rows M' = 1 ∧ cols M' = 2 ∧
    (∀ i j, 0 ≤ i < 1 → 0 ≤ j < 2 →
       ∃ n, p_to_int (elem stale_heap_Q fractions_1x2 i j) = Some n ∧
            elem stale_heap_Q M' i j = p_of_int n) ∧
    m_elem_truncate stale_heap_Q M' = Returns M'.
Proof.
  split.
  - apply (m_elem_truncate_idempotent stale_heap_Q
             Q_to_int_of_int Q_to_int_range too_large_1x1).
    + unfold well_formed, INT_MAX. simpl. lia.
    + exists 0, 0. simpl. split; [lia|]. split; [lia|]. reflexivity.
  - apply (m_elem_truncate_idempotent stale_heap_Q
             Q_to_int_of_int Q_to_int_range fractions_1x2).
    + unfold well_formed, INT_MAX. simpl. lia.
    + simpl. intros i j Hi Hj. assert (i = 0) as -> by lia.
      assert (j = 0 ∨ j = 1) as [-> | ->] by lia; by eexists.
Defined.

(** 7/2 and -5/3 are truncated toward zero. *)
Example m_elem_truncate_sample :
  m_elem_truncate stale_heap_Q fractions_1x2
  = Returns (Matrix 1 2 [3; -1]%Q).
Proof. vm_compute. reflexivity. Qed.

Lemma m_copy_equal_witness : m_copy stale_heap_Q sample_2x2_Q = sample_2x2_Q.
Proof.
  apply (m_copy_equal stale_heap_Q sample_2x2_Q).
  unfold well_formed, INT_MAX. simpl. lia.
Defined.

Lemma m_transpose_involutive_witness :
  rows (m_transpose stale_heap sample_2x3) = 3 ∧
  cols (m_transpose stale_heap sample_2x3) = 2 ∧
  (∀ i j, 0 ≤ i < 3 → 0 ≤ j < 2 →
     elem stale_heap (m_transpose stale_heap sample_2x3) i j
     = elem stale_heap sample_2x3 j i) ∧
  m_transpose stale_heap (m_transpose stale_heap sample_2x3) = sample_2x3.
Proof.
  apply (m_transpose_involutive stale_heap sample_2x3).
  unfold well_formed, INT_MAX. simpl. lia.
Defined.

Lemma m_flipCols_involutive_witness :
  rows (m_flipCols stale_heap sample_2x3) = 2 ∧
  cols (m_flipCols stale_heap sample_2x3) = 3 ∧
  (∀ i j, 0 ≤ i < 2 → 0 ≤ j < 3 →
     elem stale_heap (m_flipCols stale_heap sample_2x3) i j
     = elem stale_heap sample_2x3 i (3 - j - 1)) ∧
  m_flipCols stale_heap (m_flipCols stale_heap sample_2x3) = sample_2x3.
Proof.
  apply (m_flipCols_involutive stale_heap sample_2x3).
  unfold well_formed, INT_MAX. simpl. lia.
Defined.

(** The columns of [5 0 1; 0 2 1] from right to left. *)
Example m_flipCols_sample :
  m_flipCols stale_heap sample_2x3 = Matrix 2 3 [1; 1; 0; 2; 5; 0]%float.
Proof. vm_compute. reflexivity. Qed.

Lemma m_sumCols_sumRows_witness :
  rows (m_sumCols stale_heap sample_2x3) = 1 ∧
  cols (m_sumCols stale_heap sample_2x3) = 3 ∧
  (∀ j, 0 ≤ j < 3 →
     elem stale_heap (m_sumCols stale_heap sample_2x3) 0 j
     = for_loop 0 2 (λ i val, p_add val (elem stale_heap sample_2x3 i j))
         (p_of_int 0)) ∧
  m_sumCols stale_heap sample_2x3
  = m_transpose stale_heap
      (m_sumRows stale_heap (m_transpose stale_heap sample_2x3)).
Proof.
  apply (m_sumCols_sumRows stale_heap sample_2x3).
  - unfold well_formed, INT_MAX. simpl. lia.
  - unfold INT_MAX. simpl. lia.
Defined.

Example m_sumCols_sample :
  m_sumCols stale_heap sample_2x3 = Matrix 1 3 [5; 2; 2]%float ∧
  m_sumRows stale_heap sample_2x3 = Matrix 2 1 [6; 3]%float.
Proof. split; vm_compute; reflexivity. Qed.

Lemma m_meanCols_mean_column_witness :
  rows (m_meanCols stale_heap sample_2x3) = 1 ∧
  cols (m_meanCols stale_heap sample_2x3) = 3 ∧
  (∀ j, 0 ≤ j < 3 →
     elem stale_heap (m_meanCols stale_heap sample_2x3) 0 j
     = p_div (for_loop 0 2
                (λ i val, p_add val (elem stale_heap sample_2x3 i j))
                (p_of_int 0))
             (p_of_int 2)) ∧
  m_meanCols stale_heap sample_2x3
  = m_transpose stale_heap
      (m_mean_column stale_heap (m_transpose stale_heap sample_2x3)).
Proof.
  apply (m_meanCols_mean_column stale_heap sample_2x3).
  - unfold well_formed, INT_MAX. simpl. lia.
  - unfold INT_MAX. simpl. lia.
Defined.


(** [5 0 1; 0 2 1] read row by row into three rows of two. *)
Example m_reshape_sample :
  m_reshape stale_heap sample_2x3 3 2
  = Returns (Matrix 3 2 [5; 1; 2; 0; 0; 1]%float).
Proof. vm_compute. reflexivity. Qed.

(** With negative dimensions of the same product the second cell is
    written before the block. *)
Example m_reshape_negative :
  m_reshape stale_heap sample_2x3 (-3) (-2) = Undefined.
Proof. vm_compute. reflexivity. Qed.

Lemma m_covariance_ignores_elements_witness :
  m_covariance stale_heap_Q 0%Q sample_2x2_Q
  = m_covariance stale_heap_Q 0%Q singular_2x2.
Proof.
  apply (m_covariance_ignores_elements stale_heap_Q 0%Q
           sample_2x2_Q singular_2x2); reflexivity.
Defined.

(** With 5 in every element of a fresh block, the "covariance" of any
    2-by-2 matrix is 5^2 + 5^2 = 50 in every cell. *)
Example m_covariance_sample :
  m_covariance stale_heap_Q 0%Q sample_2x2_Q
  = Returns (Matrix 2 2 [50; 50; 50; 50]%Q).
Proof. vm_compute. reflexivity. Qed.

Lemma m_covariance_bounds_witness :
  m_covariance stale_heap_Q 0%Q two_classes_Q = Undefined ∧
  ∃ R, m_covariance stale_heap_Q 0%Q sample_2x2_Q = Returns R ∧
    rows R = 2 ∧ cols R = 2 ∧
    ∀ j k, 0 ≤ j < 2 → 0 ≤ k < 2 →
      elem stale_heap_Q R j k
      = p_div
          (for_loop 0 2 (λ i val,
             let norm := m_initialize stale_heap_Q 2 2 in
             p_add val (p_mul (elem stale_heap_Q norm i j)
                              (elem stale_heap_Q norm i j))) (p_of_int 0))
          (p_of_int (2 - 1)).
Proof.
  split.
  - apply (m_covariance_bounds stale_heap_Q 0%Q two_classes_Q).
    + unfold well_formed, INT_MAX. simpl. lia.
    + simpl. lia.
  - apply (m_covariance_bounds stale_heap_Q 0%Q sample_2x2_Q).
    + unfold well_formed, INT_MAX. simpl. lia.
    + simpl. lia.
Defined.

Lemma m_reorder_columns_out_of_bounds_witness :
  m_reorder_columns stale_heap_Q sample_2x2_Q sample_2x2_Q = Aborts ∧
  m_reorder_columns stale_heap_Q no_columns_2 no_columns_1
  = Returns (m_initialize stale_heap_Q 2 0) ∧
  m_reorder_columns stale_heap_Q sample_2x2_Q two_classes_Q = Undefined.
Proof.
  split; [|split].
  - apply (m_reorder_columns_out_of_bounds stale_heap_Q
             sample_2x2_Q sample_2x2_Q).
    + unfold well_formed, INT_MAX. simpl. lia.
    + reflexivity.
  - apply (m_reorder_columns_out_of_bounds stale_heap_Q
             no_columns_2 no_columns_1).
    + unfold well_formed, INT_MAX. simpl. lia.
    + reflexivity.
    + reflexivity.
    + simpl. lia.
  - apply (m_reorder_columns_out_of_bounds stale_heap_Q
             sample_2x2_Q two_classes_Q).
    + unfold well_formed, INT_MAX. simpl. lia.
    + reflexivity.
    + reflexivity.
    + simpl. lia.
Defined.

Lemma m_dot_add_subtract_witness :
  ∃ S D s d,
    (S ← m_dot_add stale_heap_Q 1 2; m_dot_subtract stale_heap_Q S 2) heap_Q
    = Returns (D, <[D := d]> (<[S := s]> heap_Q)) ∧
    heap_Q !! S = None ∧ heap_Q !! D = None ∧ S ≠ D ∧
    rows d = 1 ∧ cols d = 2 ∧
    ∀ i j, 0 ≤ i < 1 → 0 ≤ j < 2 →
      (elem stale_heap_Q d i j
       == elem stale_heap_Q (Matrix 1 2 [1; 2]%Q) i j)%Q.
Proof.
  apply (m_dot_add_subtract stale_heap_Q heap_Q 1 2
           (Matrix 1 2 [1; 2]%Q) (Matrix 1 2 [3; 5]%Q)).
  - reflexivity.
  - reflexivity.
  - unfold well_formed, INT_MAX. simpl. lia.
  - reflexivity.
Defined.

Lemma m_dot_subtract_self_witness :
  ∃ R,
    m_dot_subtract stale_heap_Q 1 1 heap_Q
    = Returns (R, <[R := m_zeros 1 2]> heap_Q) ∧
    heap_Q !! R = None ∧
    <[R := m_zeros 1 2]> heap_Q !! 1%positive = Some (Matrix 1 2 [1; 2]%Q).
Proof.
  apply (m_dot_subtract_self stale_heap_Q heap_Q 1 (Matrix 1 2 [1; 2]%Q)).
  - reflexivity.
  - unfold well_formed, INT_MAX. simpl. lia.
Defined.

Lemma mean_of_centered_witness :
  (elem stale_heap_Q
     (m_mean_column stale_heap_Q
        (m_normalize_columns stale_heap_Q sample_2x2_Q
           (m_mean_column stale_heap_Q sample_2x2_Q))) 1 0
   == 0)%Q.
Proof.
  apply (mean_of_centered stale_heap_Q sample_2x2_Q 1).
  - unfold well_formed, INT_MAX. simpl. lia.
  - simpl. lia.
  - simpl. lia.
Defined.

(** [5 3; 1 2] has the mean column (4, 3/2). *)
Example m_normalize_columns_sample :
  m_normalize_columns stale_heap_Q sample_2x2_Q
    (m_mean_column stale_heap_Q sample_2x2_Q)
  = Matrix 2 2 [1; -1 # 2; -1; 1 # 2]%Q.
Proof. vm_compute. reflexivity. Qed.


(** The second element is the 5 that the block held. *)
Example m_fscan_short_sample :
  m_fscan stale_heap_Q 0 [printf_d 1; printf_d 2; printf_lg 3%Q]
  = (Matrix 1 2 [3; 5]%Q, []).
Proof. vm_compute. reflexivity. Qed.

Lemma m_identity_symmetric_witness :
  rows (m_identity (T := float) 3) = 3 ∧ cols (m_identity (T := float) 3) = 3 ∧
  (∀ i j, 0 ≤ i < 3 → 0 ≤ j < 3 →
     elem stale_heap (m_identity 3) i j = if i =? j then one else zero) ∧
  m_transpose stale_heap (m_identity 3) = m_identity 3.
Proof.
  apply (m_identity_symmetric stale_heap 3).
  - lia.
  - unfold INT_MAX. lia.
Defined.

Lemma m_determinant_identity_orders_witness :
  ∃ v, m_determinant stale_heap_Q 0 (m_identity (Z.of_nat 4)) = Returns v
       ∧ (v == -1)%Q.
Proof.
  apply (m_determinant_identity_orders stale_heap_Q 0 4).
  - lia.
  - unfold INT_MAX. simpl. lia.
Defined.

Lemma m_determinant_zero_row_exact_witness :
  ∃ v, m_determinant stale_heap_Q 0 zero_row_3x3 = Returns v ∧ (v == 0)%Q.
Proof.
  apply (m_determinant_zero_row_exact stale_heap_Q 0 3 zero_row_3x3 1).
  - unfold well_formed, INT_MAX. simpl. lia.
  - reflexivity.
  - reflexivity.
  - simpl. lia.
  - intros c Hc. simpl in Hc.
    assert (c = 0 ∨ c = 1 ∨ c = 2) as [-> | [-> | ->]] by lia; reflexivity.
Defined.

Lemma m_cofactor_exact_witness :
  ∃ R, m_cofactor stale_heap_Q 0 sample_3x3 = Returns R ∧
    ∀ i j, 0 ≤ i < 3 → 0 ≤ j < 3 →
      (elem stale_heap_Q R j i
       == inject_Z (sign_defect (3 - 1))
          * signed_minor_spec stale_heap_Q sample_3x3 i j)%Q.
Proof.
  apply (m_cofactor_exact stale_heap_Q 0 3 sample_3x3).
  - unfold well_formed, INT_MAX. simpl. lia.
  - reflexivity.
  - reflexivity.
  - lia.
Defined.

Lemma mean_of_nothing_witness :
  (∀ j, 0 ≤ j < 2 → elem stale_heap (m_meanCols stale_heap no_rows) 0 j = nan) ∧
  (∀ j, 0 ≤ j < 2 →
     elem stale_heap (m_mean_column stale_heap no_columns) j 0 = nan).
Proof.
  destruct (mean_of_nothing stale_heap no_rows) as [Hrows _].
  { unfold well_formed, INT_MAX. simpl. lia. }
  destruct (mean_of_nothing stale_heap no_columns) as [_ Hcols].
  { unfold well_formed, INT_MAX. simpl. lia. }
  split.
  - apply Hrows; [reflexivity|unfold INT_MAX; simpl; lia].
  - apply Hcols; [reflexivity|unfold INT_MAX; simpl; lia].
Defined.

Lemma m_normalize_idempotent_witness :
  (elem stale_heap_Q
     (m_normalize stale_heap_Q (m_normalize stale_heap_Q sample_2x2_Q)) 1 1
   == elem stale_heap_Q (m_normalize stale_heap_Q sample_2x2_Q) 1 1)%Q.
Proof.
  apply (m_normalize_idempotent stale_heap_Q sample_2x2_Q 1 1).
  - unfold well_formed, INT_MAX. simpl. lia.
  - exists 1, 0, 0, 0. simpl. repeat split; try lia.
  - simpl. lia.
  - simpl. lia.
Defined.

Lemma normalize_then_scale_witness :
  let R := m_elem_mult stale_heap_Q (m_normalize stale_heap_Q sample_2x2_Q)
             35%Q in
  (0 <= elem stale_heap_Q R 0 0 ∧ elem stale_heap_Q R 0 0 <= 35)%Q ∧
  (elem stale_heap_Q R 0 0 == 35)%Q.
Proof.
  destruct (normalize_then_scale stale_heap_Q sample_2x2_Q 35%Q 0 0)
    as (Hrange & _ & Hmost).
  - unfold well_formed, INT_MAX. simpl. lia.
  - exists 1, 0, 0, 0. simpl. repeat split; try lia.
  - unfold Qle. simpl. lia.
  - simpl. lia.
  - simpl. lia.
  - split; [exact Hrange|]. apply Hmost. simpl. intros i' j' Hi' Hj'.
    assert (i' = 0 ∨ i' = 1) as [-> | ->] by lia;
      assert (j' = 0 ∨ j' = 1) as [-> | ->] by lia;
      unfold Qle; simpl; lia.
Defined.

Example normalize_then_scale_sample :
  m_elem_mult stale_heap_Q (m_normalize stale_heap_Q sample_2x2_Q) 35%Q
  = Matrix 2 2 [35; 0; 35 # 2; 35 # 4]%Q.
Proof. vm_compute. reflexivity. Qed.
